(** * The agreement instance of dexon-consensus-core (core/agreement.go)

    A shallow embedding of the per-position Byzantine agreement instance:
    its round state, the vote tally, fork detection, the pending buffers
    with their replay, and the one-slot fast-forward mailbox.

    Locks are not modelled: every method runs as one sequential call.  The
    one place where a call can stop half-way, the send on the one-slot
    channel [fastForward], is an outcome of its own ([BlockedOnSend]), and
    so is the loop of [setPeriod] that never exits ([Diverges]). *)

From Stdlib Require Import NArith ZArith List Lia.
From stdpp Require Import base decidable option numbers list gmap fin_maps fin_sets sorting.

(** ** Identifiers and messages *)

(** common.Hash is [32]byte and types.NodeID wraps a Hash: both are read as
    the 256-bit number their bytes spell. *)
Abbreviation Hash := N (only parsing).
Abbreviation NodeID := N (only parsing).

(** Modelled from the spec: types.Position is declared outside
    core/agreement.go; the spec gives it as [{chainID: uint32, height: uint64}]. *)
Record Position := mkPosition { ChainID : N; Height : N }.

(** Modelled from the spec: types.VoteType is declared outside
    core/agreement.go; the three types the file names, in the order of their
    declaration, with types.MaxVoteType after them. *)
Inductive VoteType := VoteInit | VotePreCom | VoteCom.

(** Modelled from the spec: types.Vote, with the fields the spec lists. *)
Record Vote := mkVote {
  vProposerID : NodeID;
  vPosition : Position;
  vPeriod : N;
  vType : VoteType;
  vBlockHash : Hash;
  vSignature : list N
}.

(** Modelled from the spec: types.Block, with the fields the spec lists. *)
Record Block := mkBlock {
  bProposerID : NodeID;
  bPosition : Position;
  bHash : Hash
}.

#[global] Instance Position_eq_dec : EqDecision Position.
Proof. solve_decision. Defined.

#[global] Instance VoteType_eq_dec : EqDecision VoteType.
Proof. solve_decision. Defined.

#[global] Instance Vote_eq_dec : EqDecision Vote.
Proof. solve_decision. Defined.

#[global] Instance Block_eq_dec : EqDecision Block.
Proof. solve_decision. Defined.

(** math.MaxUint32 and math.MaxUint64. *)
Definition MaxUint32 : N := 2 ^ 32 - 1.
Definition MaxUint64 : N := 2 ^ 64 - 1.

(** Addition of uint64 values wraps around. *)
Definition add64 (a b : N) : N := ((a + b) mod 2 ^ 64)%N.

(** [newVoteListMap]: a slice with one empty map per vote type.  It is the
    only constructor of such a slice, so a slice always has one slot for each
    [VoteType] and indexing it by a vote type never leaves its range: the
    slice is a record with one map per type. *)
Record voteListMap := mkVoteListMap {
  votesInit : gmap NodeID Vote;
  votesPreCom : gmap NodeID Vote;
  votesCom : gmap NodeID Vote
}.

Definition newVoteListMap : voteListMap := mkVoteListMap ∅ ∅ ∅.

(** [listMap[voteType]] *)
Definition voteMap (l : voteListMap) (t : VoteType) : gmap NodeID Vote :=
  match t with
  | VoteInit => votesInit l
  | VotePreCom => votesPreCom l
  | VoteCom => votesCom l
  end.

(** [listMap[voteType] = m] *)
Definition setVoteMap (t : VoteType) (m : gmap NodeID Vote) (l : voteListMap)
  : voteListMap :=
  match t with
  | VoteInit => mkVoteListMap m (votesPreCom l) (votesCom l)
  | VotePreCom => mkVoteListMap (votesInit l) m (votesCom l)
  | VoteCom => mkVoteListMap (votesInit l) (votesPreCom l) m
  end.

(** The calls the instance makes on its agreementReceiver, in the order it
    makes them.  [ConfirmBlock] receives the Commit map of the period as it is
    at the call. *)
Inductive recvCall :=
| ConfirmBlock (hash : Hash) (votes : gmap NodeID Vote)
| PullBlocks (hashes : list Hash).

(** Time is counted in nanoseconds, as time.Time and time.Duration do. *)
Definition Second : Z := 1000000000.

Record pendingBlock := mkPendingBlock {
  pbBlock : Block;
  pbReceivedTime : Z
}.

Record pendingVote := mkPendingVote {
  pvVote : Vote;
  pvReceivedTime : Z
}.

(** Modelled from the spec: the state objects of the state machine are
    declared outside core/agreement.go; the instance builds the initial and
    the pre-commit state and asks whether the state is the pull-vote one. *)
Inductive agreementState := stateInitial | statePreCommit | statePullVote.

Section Agreement.

(** What core/agreement.go uses and does not declare. *)

(** The sentinel hashes [nullBlockHash] and [skipBlockHash]. *)
Variable nullBlockHash skipBlockHash : Hash.

(** [pos.Newer(&other)] of types.Position. *)
Variable Newer : Position → Position → bool.

(** Errors of the collaborators, propagated unchanged. *)
Variable ExtError : Type.

(** [verifyVoteSignature(vote)] returns [(ok, err)]. *)
Variable verifyVoteSignature : Vote → bool * option ExtError.

(** The leader selector: its state, [leader.restart()] and
    [leader.processBlock(block)], which returns an error or nil. *)
Variable leaderSelector : Type.
Variable leaderRestart : leaderSelector → leaderSelector.
Variable leaderProcessBlock :
  Block → leaderSelector → option ExtError * leaderSelector.

Inductive Error :=
| ErrNotInNotarySet
| ErrIncorrectVoteSignature
| ErrFork (nID : NodeID) (old new : Hash)
| ErrForkVote (nID : NodeID) (old new : Vote)
| ErrExternal (err : ExtError).

(** ** Round state *)

(** [agreementData].  The receiver is the list of the calls made on it; the
    locks have no counterpart, and [ID], which no function of the file
    reads, is left out. *)
Record agreementData := mkAgreementData {
  recv : list recvCall;
  leader : leaderSelector;
  lockValue : Hash;
  lockRound : N;
  period : N;
  requiredVote : nat;
  votes : gmap N voteListMap;
  blocks : gmap NodeID Block
}.

(** [agreement].  The fields [pendingBlock] and [pendingVote] are in the
    plural here, their names being those of the entry types; the channel
    [fastForward], of capacity one, is its slot; [authModule], read by
    [prepareVote] only, is left out. *)
Record agreement := mkAgreement {
  state : agreementState;
  data : agreementData;
  aID : Position;
  notarySet : gset NodeID;
  hasOutput : bool;
  pendingBlocks : list pendingBlock;
  pendingVotes : list pendingVote;
  candidateBlock : gmap Hash Block;
  fastForward : option N
}.

(** Field updates. *)
Definition withData (d : agreementData) (a : agreement) : agreement :=
  mkAgreement (state a) d (aID a) (notarySet a) (hasOutput a)
    (pendingBlocks a) (pendingVotes a) (candidateBlock a) (fastForward a).

Definition withState (st : agreementState) (a : agreement) : agreement :=
  mkAgreement st (data a) (aID a) (notarySet a) (hasOutput a)
    (pendingBlocks a) (pendingVotes a) (candidateBlock a) (fastForward a).

Definition withHasOutput (b : bool) (a : agreement) : agreement :=
  mkAgreement (state a) (data a) (aID a) (notarySet a) b
    (pendingBlocks a) (pendingVotes a) (candidateBlock a) (fastForward a).

Definition withPendingBlocks (l : list pendingBlock) (a : agreement) : agreement :=
  mkAgreement (state a) (data a) (aID a) (notarySet a) (hasOutput a)
    l (pendingVotes a) (candidateBlock a) (fastForward a).

Definition withPendingVotes (l : list pendingVote) (a : agreement) : agreement :=
  mkAgreement (state a) (data a) (aID a) (notarySet a) (hasOutput a)
    (pendingBlocks a) l (candidateBlock a) (fastForward a).

Definition withCandidateBlock (m : gmap Hash Block) (a : agreement) : agreement :=
  mkAgreement (state a) (data a) (aID a) (notarySet a) (hasOutput a)
    (pendingBlocks a) (pendingVotes a) m (fastForward a).

Definition withFastForward (c : option N) (a : agreement) : agreement :=
  mkAgreement (state a) (data a) (aID a) (notarySet a) (hasOutput a)
    (pendingBlocks a) (pendingVotes a) (candidateBlock a) c.

Definition withVotes (m : gmap N voteListMap) (d : agreementData) : agreementData :=
  mkAgreementData (recv d) (leader d) (lockValue d) (lockRound d) (period d)
    (requiredVote d) m (blocks d).

Definition withLock (h : Hash) (r : N) (d : agreementData) : agreementData :=
  mkAgreementData (recv d) (leader d) h r (period d)
    (requiredVote d) (votes d) (blocks d).

Definition withPeriod (p : N) (d : agreementData) : agreementData :=
  mkAgreementData (recv d) (leader d) (lockValue d) (lockRound d) p
    (requiredVote d) (votes d) (blocks d).

Definition withRecv (l : list recvCall) (d : agreementData) : agreementData :=
  mkAgreementData l (leader d) (lockValue d) (lockRound d) (period d)
    (requiredVote d) (votes d) (blocks d).

Definition withLeader (l : leaderSelector) (d : agreementData) : agreementData :=
  mkAgreementData (recv d) l (lockValue d) (lockRound d) (period d)
    (requiredVote d) (votes d) (blocks d).

Definition withBlocks (m : gmap NodeID Block) (d : agreementData) : agreementData :=
  mkAgreementData (recv d) (leader d) (lockValue d) (lockRound d) (period d)
    (requiredVote d) (votes d) m.

(** ** Outcomes of a call

    A call returns a value and leaves a state; or it is suspended in
    [a.fastForward <- p], the slot being full, having left the state [a]
    (in agreement.go [return nil] follows every send, so the call returns
    nil once the slot is drained); or it runs for ever. *)
Inductive Result (A : Type) :=
| Returned (r : A) (a : agreement)
| BlockedOnSend (p : N) (a : agreement)
| Diverges.

Arguments Returned {A} r a.
Arguments BlockedOnSend {A} p a.
Arguments Diverges {A}.

(** The state a call has left, when it has not run for ever. *)
Definition stateOf {A} (r : Result A) : option agreement :=
  match r with
  | Returned _ a => Some a
  | BlockedOnSend _ a => Some a
  | Diverges => None
  end.

(** The error a call of [processVote] or [processBlock] hands back; a call
    suspended on its send has none to hand back. *)
Definition errorOf (r : Result (option Error)) : option Error :=
  match r with
  | Returned e _ => e
  | _ => None
  end.

(** The value a call puts on the fast-forward channel: the slot's new content
    when the send went through, the value it is suspended on otherwise. *)
Definition posted (before : agreement) (r : Result (option Error)) : option N :=
  match r with
  | Returned _ a =>
      match fastForward before with
      | None => fastForward a
      | Some _ => None
      end
  | BlockedOnSend p _ => Some p
  | Diverges => None
  end.

(** [a.fastForward <- p; return nil] on a channel of capacity one. *)
Definition send (p : N) (a : agreement) : Result (option Error) :=
  match fastForward a with
  | None => Returned None (withFastForward (Some p) a)
  | Some _ => BlockedOnSend p a
  end.

(** ** Quorum tally *)

(** The first loop of [countVoteNoLock]: the number of votes per block hash. *)
Definition tally (m : gmap NodeID Vote) : gmap Hash nat :=
  foldr (λ kv cand,
           <[vBlockHash kv.2 := S (default 0 (cand !! vBlockHash kv.2))]> cand)
        ∅ (map_to_list m).

(** [countVoteNoLock]: the zero hash and false when the period has no bucket
    or no hash has [requiredVote] votes; Go visits the candidates in an order
    of its choosing, the model in the order of [map_to_list].  The two agree
    when one hash at most has [requiredVote] votes, which is so in a round
    unless the notary set has exactly two members; what Go may report in
    any order is [countVoteMay] below. *)
Definition countVoteNoLock (d : agreementData) (p : N) (t : VoteType)
  : Hash * bool :=
  match votes d !! p with
  | None => (0%N, false)
  | Some l =>
      match List.find (λ c, bool_decide (requiredVote d ≤ c.2))
                      (map_to_list (tally (voteMap l t))) with
      | Some c => (c.1, true)
      | None => (0%N, false)
      end
  end.

(** The body of the loop of [setPeriod], over the periods [ks]. *)
Definition fillBuckets (ks : list N) (m : gmap N voteListMap)
  : gmap N voteListMap :=
  foldl (λ m i, match m !! i with
                | Some _ => m
                | None => <[i := newVoteListMap]> m
                end) m ks.

(** The periods [first], [first + 1], ..., [last]. *)
Definition periodsFromTo (first last : N) : list N :=
  map (λ k, (first + N.of_nat k)%N) (seq 0 (N.to_nat (N.succ last - first))).

(** [setPeriod]: a bucket for every period from [a.period + 1] to [p].  The
    loop counter is a uint64, so with [p = MaxUint64] its test [i <= p] never
    fails and the loop does not exit. *)
Definition setPeriod (p : N) (d : agreementData) : option agreementData :=
  if decide (p = MaxUint64) then None
  else
    Some (withPeriod p
            (withVotes
               (fillBuckets (periodsFromTo (add64 (period d) 1) p) (votes d))
               d)).

(** ** The instance *)

Definition isStop (pos : Position) : bool := bool_decide (ChainID pos = MaxUint32).

Definition stopPosition : Position := mkPosition MaxUint32 0.

Definition sanityCheck (vote : Vote) (a : agreement) : option Error :=
  if decide (vProposerID vote ∈ notarySet a) then
    match verifyVoteSignature vote with
    | (_, Some err) => Some (ErrExternal err)
    | (false, None) => Some ErrIncorrectVoteSignature
    | (true, None) => None
    end
  else Some ErrNotInNotarySet.

Definition checkForkVote (vote : Vote) (a : agreement) : option Error :=
  match votes (data a) !! vPeriod vote with
  | Some l =>
      match voteMap l (vType vote) !! vProposerID vote with
      | Some oldVote =>
          if decide (vBlockHash vote ≠ vBlockHash oldVote)
          then Some (ErrForkVote (vProposerID vote) oldVote vote)
          else None
      | None => None
      end
  | None => None
  end.

(** The bucket of a period, made on first use. *)
Definition bucketOf (m : gmap N voteListMap) (p : N) : voteListMap :=
  default newVoteListMap (m !! p).

(** [a.data.votes[vote.Period][vote.Type][vote.ProposerID] = vote], after the
    bucket of the period is made if it is missing. *)
Definition recordVote (vote : Vote) (d : agreementData) : agreementData :=
  let l := bucketOf (votes d) (vPeriod vote) in
  withVotes
    (<[vPeriod vote :=
         setVoteMap (vType vote)
           (<[vProposerID vote := vote]> (voteMap l (vType vote))) l]> (votes d))
    d.

(** [addPullBlocks(voteType)]: the hashes of the votes of one type that are
    neither sentinel nor a candidate block, one entry per vote. *)
Definition addPullBlocks (a : agreement) (l : voteListMap) (t : VoteType)
    (hashes : list Hash) : list Hash :=
  foldl (λ hs kv,
           if decide (vBlockHash kv.2 = nullBlockHash
                      ∨ vBlockHash kv.2 = skipBlockHash) then hs
           else match candidateBlock a !! vBlockHash kv.2 with
                | Some _ => hs
                | None => hs ++ [vBlockHash kv.2]
                end)
        hashes (map_to_list (voteMap l t)).

Definition pullHashes (a : agreement) (l : voteListMap) : list Hash :=
  addPullBlocks a l VoteCom
    (addPullBlocks a l VotePreCom (addPullBlocks a l VoteInit [])).

(** Condition 3 and the final [return nil]. *)
Definition condition3 (vote : Vote) (a : agreement) : Result (option Error) :=
  let l := bucketOf (votes (data a)) (vPeriod vote) in
  if decide (vType vote = VoteCom ∧ (period (data a) ≤ vPeriod vote)%N
             ∧ requiredVote (data a) ≤ size (voteMap l VoteCom)) then
    send (add64 (vPeriod vote) 1)
      (withData (withRecv (recv (data a) ++ [PullBlocks (pullHashes a l)])
                   (data a)) a)
  else Returned None a.

(** The fast-forward part of [processVote], after the vote is recorded. *)
Definition checkFastForward (vote : Vote) (a : agreement) : Result (option Error) :=
  if decide (vType vote = VotePreCom) then
    match countVoteNoLock (data a) (vPeriod vote) (vType vote) with
    | (hash, true) =>
        if decide (hash ≠ skipBlockHash) then
          if decide ((vPeriod vote ≤ period (data a))%N
                     ∧ (lockRound (data a) < vPeriod vote)%N
                     ∧ vBlockHash vote ≠ lockValue (data a)) then
            send (add64 (period (data a)) 1)
              (withData (withLock hash (vPeriod vote) (data a)) a)
          else if decide (period (data a) < vPeriod vote)%N then
            send (vPeriod vote)
              (withData (withLock hash (vPeriod vote) (data a)) a)
          else condition3 vote a
        else condition3 vote a
    | (_, false) => condition3 vote a
    end
  else condition3 vote a.

(** [processVote], from the lock of [a.data] on. *)
Definition tallyVote (vote : Vote) (a : agreement) : Result (option Error) :=
  let a1 := withData (recordVote vote (data a)) a in
  if negb (hasOutput a1) && bool_decide (vType vote = VoteCom) then
    match countVoteNoLock (data a1) (vPeriod vote) (vType vote) with
    | (hash, true) =>
        if decide (hash ≠ skipBlockHash) then
          Returned None
            (withHasOutput true
               (withData
                  (withRecv
                     (recv (data a1) ++
                        [ConfirmBlock hash
                           (voteMap (bucketOf (votes (data a1)) (vPeriod vote))
                                    VoteCom)])
                     (data a1)) a1))
        else checkFastForward vote a1
    | (_, false) => checkFastForward vote a1
    end
  else if hasOutput a1 then Returned None a1
  else checkFastForward vote a1.

(** [processVote] at the time [now]. *)
Definition processVote (now : Z) (vote : Vote) (a : agreement)
  : Result (option Error) :=
  match sanityCheck vote a with
  | Some err => Returned (Some err) a
  | None =>
      if decide (vPosition vote ≠ aID a) then
        if negb (isStop (aID a)) && Newer (aID a) (vPosition vote)
        then Returned None a
        else Returned None
               (withPendingVotes (pendingVotes a ++ [mkPendingVote vote now]) a)
      else
        match checkForkVote vote a with
        | Some err => Returned (Some err) a
        | None => tallyVote vote a
        end
  end.

(** [done()]: whether the returned channel holds a signal.  This is the call
    as it runs while no call of [processVote] is suspended in its send, as
    along [run]; were one suspended, the receive would let its send through,
    and the slot would hold the value of that send when [done] is over. *)
Definition done (a : agreement) : Result bool :=
  if hasOutput a then Returned true a
  else
    match fastForward a with
    | Some p =>
        let a1 := withFastForward None a in
        if decide (p ≤ period (data a))%N then Returned false a1
        else
          match setPeriod p (data a) with
          | Some d => Returned true (withState statePreCommit (withData d a1))
          | None => Diverges
          end
    | None => Returned false a
    end.

Definition addCandidateBlock (block : Block) (a : agreement) : agreement :=
  withCandidateBlock (<[bHash block := block]> (candidateBlock a)) a.

Definition findCandidateBlock (hash : Hash) (a : agreement) : option Block :=
  candidateBlock a !! hash.

(** [processBlock] at the time [now]; it sends nothing and has no loop. *)
Definition processBlock (now : Z) (block : Block) (a : agreement)
  : option Error * agreement :=
  if decide (bPosition block ≠ aID a) then
    if negb (isStop (aID a)) && Newer (aID a) (bPosition block)
    then (None, a)
    else (None,
          withPendingBlocks (pendingBlocks a ++ [mkPendingBlock block now]) a)
  else
    match blocks (data a) !! bProposerID block with
    | Some b =>
        if decide (bHash b ≠ bHash block)
        then (Some (ErrFork (bProposerID block) (bHash b) (bHash block)), a)
        else (None, a)
    | None =>
        match leaderProcessBlock block (leader (data a)) with
        | (Some err, ld) =>
            (Some (ErrExternal err), withData (withLeader ld (data a)) a)
        | (None, ld) =>
            (None,
             addCandidateBlock block
               (withData
                  (withBlocks (<[bProposerID block := block]> (blocks (data a)))
                     (withLeader ld (data a))) a))
        end
    end.

(** The first critical section of [restart]. *)
Definition resetRound (ns : gset NodeID) (pos : Position) (a : agreement)
  : agreement :=
  mkAgreement stateInitial
    (mkAgreementData (recv (data a)) (leaderRestart (leader (data a)))
       nullBlockHash 1 1 (size ns / 3 * 2 + 1)
       {[ 1%N := newVoteListMap ]} ∅)
    pos ns false (pendingBlocks a) (pendingVotes a) ∅ None.

(** The sweep of the pending blocks: the blocks to replay and the entries
    that stay. *)
Definition sweepBlocks (expireTime : Z) (pos : Position) (l : list pendingBlock)
  : list Block * list pendingBlock :=
  foldl (λ acc pending,
           if Newer pos (bPosition (pbBlock pending)) then acc
           else if decide (bPosition (pbBlock pending) = pos)
                then (acc.1 ++ [pbBlock pending], acc.2)
                else if decide (expireTime < pbReceivedTime pending)%Z
                     then (acc.1, acc.2 ++ [pending])
                     else acc)
        ([], []) l.

Definition sweepVotes (expireTime : Z) (pos : Position) (l : list pendingVote)
  : list Vote * list pendingVote :=
  foldl (λ acc pending,
           if Newer pos (vPosition (pvVote pending)) then acc
           else if decide (vPosition (pvVote pending) = pos)
                then (acc.1 ++ [pvVote pending], acc.2)
                else if decide (expireTime < pvReceivedTime pending)%Z
                     then (acc.1, acc.2 ++ [pending])
                     else acc)
        ([], []) l.

(** [for _, block := range replayBlock { a.processBlock(block) }] *)
Definition replayBlocks (now : Z) (l : list Block) (a : agreement) : agreement :=
  foldl (λ a block, (processBlock now block a).2) a l.

(** [for _, vote := range replayVote { a.processVote(vote) }]: the errors are
    dropped; a call suspended on its send suspends the loop. *)
Fixpoint replayVotes (now : Z) (l : list Vote) (a : agreement) : Result unit :=
  match l with
  | [] => Returned tt a
  | vote :: l' =>
      match processVote now vote a with
      | Returned _ a' => replayVotes now l' a'
      | BlockedOnSend p a' => BlockedOnSend p a'
      | Diverges => Diverges
      end
  end.

(** [restart] at the time [now]. *)
Definition restart (now : Z) (ns : gset NodeID) (pos : Position) (a : agreement)
  : Result unit :=
  let a1 := resetRound ns pos a in
  if isStop pos then Returned tt a1
  else
    let expireTime := (now - 10 * Second)%Z in
    let sb := sweepBlocks expireTime pos (pendingBlocks a1) in
    let a2 := withPendingBlocks sb.2 a1 in
    let sv := sweepVotes expireTime pos (pendingVotes a2) in
    let a3 := withPendingVotes sv.2 a2 in
    replayVotes now sv.1 (replayBlocks now sb.1 a3).

Definition stop (now : Z) (a : agreement) : Result unit :=
  restart now ∅ stopPosition a.

(** [newAgreement]: the fresh struct, stopped.  [stop] returns at once, so
    the instance is the struct after the first critical section of
    [restart]. *)
Definition newAgreement (ld : leaderSelector) : agreement :=
  resetRound ∅ stopPosition
    (mkAgreement stateInitial
       (mkAgreementData [] ld 0%N 0%N 0%N 0 ∅ ∅)
       (mkPosition 0 0) ∅ false [] [] ∅ None).

(** ** Sequences of calls *)

(** The calls the network layer and the driver make between two restarts. *)
Inductive call :=
| CallVote (now : Z) (vote : Vote)
| CallBlock (now : Z) (block : Block)
| CallDone.

(** The state a call returns with; none when it does not return. *)
Definition exec (c : call) (a : agreement) : option agreement :=
  match c with
  | CallVote now vote =>
      match processVote now vote a with
      | Returned _ a' => Some a'
      | _ => None
      end
  | CallBlock now block => Some (processBlock now block a).2
  | CallDone =>
      match done a with
      | Returned _ a' => Some a'
      | _ => None
      end
  end.

Fixpoint run (cs : list call) (a : agreement) : option agreement :=
  match cs with
  | [] => Some a
  | c :: cs' =>
      match exec c a with
      | Some a' => run cs' a'
      | None => None
      end
  end.

(** ** What the statements count *)

(** The number of proposers whose vote in [m] is for the hash [h]. *)
Definition voteCount (h : Hash) (m : gmap NodeID Vote) : nat :=
  length (filter (λ kv : NodeID * Vote, vBlockHash kv.2 = h) (map_to_list m)).

(** The proposers whose vote in [m] is for the hash [h]. *)
Definition votersFor (h : Hash) (m : gmap NodeID Vote) : gset NodeID :=
  dom (filter (λ kv : NodeID * Vote, vBlockHash kv.2 = h) m).

Definition isConfirm (c : recvCall) : bool :=
  match c with
  | ConfirmBlock _ _ => true
  | PullBlocks _ => false
  end.

(** The number of [ConfirmBlock] calls the receiver has had. *)
Definition confirmCount (a : agreement) : nat :=
  length (List.filter isConfirm (recv (data a))).

(** A vote of the tally. *)
Definition recorded (vote : Vote) (a : agreement) : Prop :=
  ∃ l, votes (data a) !! vPeriod vote = Some l
       ∧ voteMap l (vType vote) !! vProposerID vote = Some vote.

(** ** What holds along a round *)

(** The round has confirmed a block when its output flag is set, and only
    then; [n] confirmations came before the round. *)
Definition confirmedOnce (n : nat) (a : agreement) : Prop :=
  confirmCount a = n + (if hasOutput a then 1 else 0).

(** The voters of the tally are notaries and the quorum size is that of the
    notary set. *)
Definition votersAreNotaries (a : agreement) : Prop :=
  requiredVote (data a) = size (notarySet a) / 3 * 2 + 1
  ∧ ∀ p l t, votes (data a) !! p = Some l → dom (voteMap l t) ⊆ notarySet a.

(** The lock round is at most the period, or at most the target that waits
    in the mailbox for [done] to adopt it. *)
Definition lockBound (a : agreement) : Prop :=
  (lockRound (data a) ≤ period (data a))%N
  ∨ ∃ m, fastForward a = Some m ∧ (lockRound (data a) ≤ m)%N.

(** The votes and blocks of the tally are for the current position, and the
    votes pass the sanity check. *)
Definition tallyIsValid (a : agreement) : Prop :=
  (∀ p l t n v,
     votes (data a) !! p = Some l → voteMap l t !! n = Some v →
     vPosition v = aID a ∧ sanityCheck v a = None)
  ∧ (∀ n b, blocks (data a) !! n = Some b → bPosition b = aID a).

(** ** The sweep *)

(** The verdicts of the sweep of [restart] on a pending entry, by its
    position and the time it came: replayed, or kept in the buffer; an entry
    that is neither is dropped. *)
Definition replayed (pos entry : Position) : Prop :=
  Newer pos entry = false ∧ entry = pos.

Definition kept (now : Z) (pos entry : Position) (receivedTime : Z) : Prop :=
  Newer pos entry = false ∧ entry ≠ pos ∧ (now - 10 * Second < receivedTime)%Z.

#[local] Instance replayed_dec (pos entry : Position) :
  Decision (replayed pos entry).
Proof. unfold replayed. apply _. Defined.

#[local] Instance kept_dec (now : Z) (pos entry : Position) (receivedTime : Z) :
  Decision (kept now pos entry receivedTime).
Proof. unfold kept. apply _. Defined.

(** ** What the records keep

    Properties of the tally, the blocks and the lock that the proofs below
    carry along a round. *)

(** [countVote]: [countVoteNoLock] under the read lock of the data. *)
Definition countVote (d : agreementData) (p : N) (t : VoteType) : Hash * bool :=
  countVoteNoLock d p t.

(** The second loop of [countVoteNoLock] over the candidates in the order
    [cs]: the first candidate with [req] votes, or the zero hash and false. *)
Definition firstQuorum (req : nat) (cs : list (Hash * nat)) : Hash * bool :=
  match List.find (λ c, bool_decide (req ≤ c.2)) cs with
  | Some c => (c.1, true)
  | None => (0%N, false)
  end.

(** What [countVoteNoLock] may report: Go ranges over the candidate map in
    an order of its choosing, which is any order of the candidates. *)
Definition countVoteMay (d : agreementData) (p : N) (t : VoteType)
    (r : Hash * bool) : Prop :=
  match votes d !! p with
  | None => r = (0%N, false)
  | Some l =>
      ∃ cs, cs ≡ₚ map_to_list (tally (voteMap l t))
            ∧ r = firstQuorum (requiredVote d) cs
  end.

(** The loop of [setPeriod] turn by turn, from the counter [i] on: a turn
    tests [i <= period], makes the bucket of [i] when it is missing and adds
    one to the uint64 [i]; the loop is left when the test fails.  [fuel]
    bounds the number of tests, and [None] says that the loop is not left
    within them. *)
Fixpoint setPeriodLoop (fuel : nat) (p i : N) (m : gmap N voteListMap)
  : option (gmap N voteListMap) :=
  match fuel with
  | 0 => None
  | S fuel' =>
      if decide (i ≤ p)%N then
        setPeriodLoop fuel' p (add64 i 1)
          (match m !! i with
           | Some _ => m
           | None => <[i := newVoteListMap]> m
           end)
      else Some m
  end.

(** A vote of the tally lies under its own period, type and proposer. *)
Definition votesFiled (a : agreement) : Prop :=
  ∀ p l t n v,
    votes (data a) !! p = Some l → voteMap l t !! n = Some v →
    vPeriod v = p ∧ vType v = t ∧ vProposerID v = n.

(** A recorded block lies under its proposer and its hash is in the
    candidate pool; a candidate block lies under its hash and is the recorded
    block of its proposer. *)
Definition blocksFiled (a : agreement) : Prop :=
  (∀ n b, blocks (data a) !! n = Some b →
          bProposerID b = n
          ∧ ∃ b', candidateBlock a !! bHash b = Some b')
  ∧ (∀ h b, candidateBlock a !! h = Some b →
            bHash b = h ∧ blocks (data a) !! bProposerID b = Some b).

(** The tally has a bucket for every period from 1 to the current one. *)
Definition bucketsCover (a : agreement) : Prop :=
  ∀ q, (1 ≤ q ≤ period (data a))%N → is_Some (votes (data a) !! q).

(** The lock is the one [restart] sets, or a hash, not the skip hash, that
    has [requiredVote] PreCommit votes in the bucket of the lock round. *)
Definition lockJustified (a : agreement) : Prop :=
  (lockValue (data a) = nullBlockHash ∧ lockRound (data a) = 1%N)
  ∨ (lockValue (data a) ≠ skipBlockHash
     ∧ requiredVote (data a)
       ≤ voteCount (lockValue (data a))
           (voteMap (bucketOf (votes (data a)) (lockRound (data a))) VotePreCom)).

(** What a call of the receiver hands over in the round of the notary set
    [ns] at the position [pos]: with [ConfirmBlock], a hash that is not the
    skip hash and Commit votes of one period, for the position, signed, one
    for a notary at most and those of a quorum of notaries for the hash. *)
Definition soundConfirm (ns : gset NodeID) (pos : Position) (c : recvCall)
  : Prop :=
  match c with
  | ConfirmBlock h vs =>
      h ≠ skipBlockHash
      ∧ size ns / 3 * 2 + 1 ≤ size (votersFor h vs)
      ∧ dom vs ⊆ ns
      ∧ ∃ p, ∀ n v, vs !! n = Some v →
                    vProposerID v = n ∧ vType v = VoteCom ∧ vPeriod v = p
                    ∧ vPosition v = pos
                    ∧ verifyVoteSignature v = (true, None)
  | PullBlocks _ => True
  end.

(** * Properties *)

(** ** The tally *)

Lemma tally_list_lookup (l : list (NodeID * Vote)) (h : Hash) :
  foldr (λ kv cand,
           <[vBlockHash kv.2 := S (default 0 (cand !! vBlockHash kv.2))]> cand)
        (∅ : gmap Hash nat) l !! h
  = let n := length (filter (λ kv : NodeID * Vote, vBlockHash kv.2 = h) l) in
    if decide (n = 0) then None else Some n.
Proof.
  induction l as [|kv l IH]; simpl.
  - by rewrite lookup_empty.
  - destruct (decide (vBlockHash kv.2 = h)) as [Heq|Hne].
    + rewrite filter_cons_True by done. subst h.
      rewrite lookup_insert_eq, IH. simpl.
      repeat case_decide; simpl; try lia; f_equal; lia.
    + rewrite filter_cons_False by done.
      by rewrite lookup_insert_ne.
Qed.

Lemma tally_lookup (m : gmap NodeID Vote) (h : Hash) (n : nat) :
  tally m !! h = Some n ↔ n = voteCount h m ∧ 0 < n.
Proof.
  unfold tally, voteCount. rewrite tally_list_lookup. simpl.
  case_decide; split.
  - done.
  - intros [-> ?]. lia.
  - intros [= <-]. split; [done|lia].
  - by intros [-> _].
Qed.

Lemma voteCount_le_size (h : Hash) (m : gmap NodeID Vote) :
  voteCount h m ≤ size m.
Proof.
  unfold voteCount. rewrite <- length_map_to_list. apply length_filter.
Qed.

(** The count of the tally is a count of proposers. *)
Lemma voteCount_voters (h : Hash) (m : gmap NodeID Vote) :
  voteCount h m = size (votersFor h m).
Proof.
  unfold voteCount, votersFor.
  rewrite size_dom, map_filter_alt, map_size_list_to_map; [done|].
  apply (sublist_NoDup _ (map_to_list m).*1);
    [apply NoDup_fst_map_to_list|].
  apply fmap_sublist, sublist_filter.
Qed.

Lemma votersFor_spec (h : Hash) (m : gmap NodeID Vote) (n : NodeID) :
  n ∈ votersFor h m ↔ ∃ v, m !! n = Some v ∧ vBlockHash v = h.
Proof.
  unfold votersFor. rewrite elem_of_dom. unfold is_Some.
  setoid_rewrite map_lookup_filter_Some. simpl. done.
Qed.

Lemma filter_disjoint_length {A} (P Q : A → Prop)
    `{!∀ x, Decision (P x)} `{!∀ x, Decision (Q x)} (l : list A) :
  (∀ x, P x → Q x → False) →
  length (filter P l) + length (filter Q l) ≤ length l.
Proof.
  intros HPQ. induction l as [|x l IH]; simpl; [done|].
  destruct (decide (P x)), (decide (Q x)).
  - exfalso; eauto.
  - rewrite filter_cons_True, filter_cons_False by done. simpl. lia.
  - rewrite filter_cons_False, filter_cons_True by done. simpl. lia.
  - rewrite !filter_cons_False by done. lia.
Qed.

Lemma voteCount_disjoint (h h' : Hash) (m : gmap NodeID Vote) :
  h ≠ h' → voteCount h m + voteCount h' m ≤ size m.
Proof.
  intros Hne. unfold voteCount. rewrite <- length_map_to_list.
  apply filter_disjoint_length. intros kv H1 H2. congruence.
Qed.

(** A vote for [h] in the map is counted. *)
Lemma voteCount_pos (h : Hash) (m : gmap NodeID Vote) (n : NodeID) (v : Vote) :
  m !! n = Some v → vBlockHash v = h → 0 < voteCount h m.
Proof.
  intros Hm Hh. unfold voteCount.
  assert ((n, v) ∈ filter (λ kv : NodeID * Vote, vBlockHash kv.2 = h)
                          (map_to_list m)) as Hin.
  { apply list_elem_of_filter. split; [done|]. by apply elem_of_map_to_list. }
  destruct (filter _ _); [by apply elem_of_nil in Hin | simpl; lia].
Qed.

(** A hash [countVoteNoLock] reports has [requiredVote] votes. *)
Lemma countVoteNoLock_winner (d : agreementData) (p : N) (t : VoteType) (h : Hash) :
  countVoteNoLock d p t = (h, true) →
  ∃ l, votes d !! p = Some l
       ∧ requiredVote d ≤ voteCount h (voteMap l t)
       ∧ 0 < voteCount h (voteMap l t).
Proof.
  unfold countVoteNoLock. intros H.
  destruct (votes d !! p) as [l|]; [|done].
  destruct (List.find _ _) as [c|] eqn:Hfind; [|done].
  simplify_eq. apply find_some in Hfind as [Hin Hc].
  apply bool_decide_eq_true in Hc.
  apply list_elem_of_In in Hin. destruct c as [h n]. simpl in *.
  apply elem_of_map_to_list, tally_lookup in Hin as [-> Hpos].
  by exists l.
Qed.

(** A hash with [requiredVote] votes, and one at least, makes
    [countVoteNoLock] report a hash. *)
Lemma countVoteNoLock_quorum (d : agreementData) (p : N) (t : VoteType)
    (l : voteListMap) (h : Hash) :
  votes d !! p = Some l →
  requiredVote d ≤ voteCount h (voteMap l t) →
  0 < voteCount h (voteMap l t) →
  ∃ h', countVoteNoLock d p t = (h', true).
Proof.
  intros Hl Hreq Hpos. unfold countVoteNoLock. rewrite Hl.
  destruct (List.find _ _) as [c|] eqn:Hfind; [by eexists|].
  exfalso.
  assert (In (h, voteCount h (voteMap l t)) (map_to_list (tally (voteMap l t))))
    as Hin.
  { apply list_elem_of_In, elem_of_map_to_list, tally_lookup. done. }
  apply (find_none _ _ Hfind) in Hin. simpl in Hin.
  apply bool_decide_eq_false in Hin. lia.
Qed.

(** With fewer than twice [requiredVote] votes in the map, the hash that has
    [requiredVote] votes is the one [countVoteNoLock] reports. *)
Lemma countVoteNoLock_unique (d : agreementData) (p : N) (t : VoteType)
    (l : voteListMap) (h : Hash) :
  votes d !! p = Some l →
  requiredVote d ≤ voteCount h (voteMap l t) →
  0 < requiredVote d →
  size (voteMap l t) < 2 * requiredVote d →
  countVoteNoLock d p t = (h, true).
Proof.
  intros Hl Hreq Hpos Hsize.
  destruct (countVoteNoLock_quorum d p t l h Hl Hreq) as [h' Hh']; [lia|].
  destruct (countVoteNoLock_winner _ _ _ _ Hh') as (l' & Hl' & Hreq' & _).
  rewrite Hl in Hl'. injection Hl' as <-.
  destruct (decide (h = h')) as [->|Hne]; [done|].
  pose proof (voteCount_disjoint h h' (voteMap l t) Hne). lia.
Qed.

(** The four ways [processVote] ends before it takes the lock of the data,
    and the hand-over to the tally. *)
Lemma processVote_cases (now : Z) (vote : Vote) (a : agreement) :
  (∃ e, sanityCheck vote a = Some e
        ∧ processVote now vote a = Returned (Some e) a)
  ∨ (sanityCheck vote a = None ∧ vPosition vote ≠ aID a
     ∧ (processVote now vote a = Returned None a
        ∨ processVote now vote a
          = Returned None
              (withPendingVotes (pendingVotes a ++ [mkPendingVote vote now]) a)))
  ∨ (∃ e, sanityCheck vote a = None ∧ vPosition vote = aID a
          ∧ checkForkVote vote a = Some e
          ∧ processVote now vote a = Returned (Some e) a)
  ∨ (sanityCheck vote a = None ∧ vPosition vote = aID a
     ∧ checkForkVote vote a = None
     ∧ processVote now vote a = tallyVote vote a).
Proof.
  unfold processVote.
  destruct (sanityCheck vote a) as [e|]; [left; by exists e|right].
  case_decide as Hpos.
  - left. repeat split; try done. case_match; auto.
  - right.
    destruct (checkForkVote vote a) as [e|]; [left; by exists e|by right].
Qed.

(** The ways the tally ends: the round is finalized by this vote; nothing
    more than the record happens; a lock is taken and a target sent
    (conditions 1 and 2); blocks are pulled and a target sent (condition 3). *)
Lemma tallyVote_cases (vote : Vote) (a : agreement) :
  let a1 := withData (recordVote vote (data a)) a in
  let l := bucketOf (votes (data a1)) (vPeriod vote) in
  (∃ h, hasOutput a = false ∧ vType vote = VoteCom
        ∧ countVoteNoLock (data a1) (vPeriod vote) VoteCom = (h, true)
        ∧ h ≠ skipBlockHash
        ∧ tallyVote vote a
          = Returned None
              (withHasOutput true
                 (withData
                    (withRecv (recv (data a1) ++ [ConfirmBlock h (voteMap l VoteCom)])
                       (data a1)) a1)))
  ∨ tallyVote vote a = Returned None a1
  ∨ (∃ h p, hasOutput a = false ∧ vType vote = VotePreCom
            ∧ countVoteNoLock (data a1) (vPeriod vote) VotePreCom = (h, true)
            ∧ h ≠ skipBlockHash
            ∧ (((vPeriod vote ≤ period (data a))%N
                ∧ (lockRound (data a) < vPeriod vote)%N
                ∧ vBlockHash vote ≠ lockValue (data a)
                ∧ p = add64 (period (data a)) 1)
               ∨ ((period (data a) < vPeriod vote)%N ∧ p = vPeriod vote))
            ∧ tallyVote vote a
              = send p (withData (withLock h (vPeriod vote) (data a1)) a1))
  ∨ (hasOutput a = false ∧ vType vote = VoteCom
     ∧ (period (data a) ≤ vPeriod vote)%N
     ∧ requiredVote (data a) ≤ size (voteMap l VoteCom)
     ∧ (∀ h, countVoteNoLock (data a1) (vPeriod vote) VoteCom = (h, true) →
             h = skipBlockHash)
     ∧ tallyVote vote a
       = send (add64 (vPeriod vote) 1)
           (withData (withRecv (recv (data a1) ++ [PullBlocks (pullHashes a1 l)])
                        (data a1)) a1)).
Proof.
  intros a1 l. subst a1 l.
  unfold tallyVote, checkFastForward, condition3.
  set (a1 := withData (recordVote vote (data a)) a).
  change (hasOutput a1) with (hasOutput a).
  change (period (data a1)) with (period (data a)).
  change (lockRound (data a1)) with (lockRound (data a)).
  change (lockValue (data a1)) with (lockValue (data a)).
  change (requiredVote (data a1)) with (requiredVote (data a)).
  destruct (hasOutput a) eqn:Hout.
  { right; left. by destruct (bool_decide _). }
  cbn [negb andb].
  destruct (vType vote) eqn:Ht.
  - rewrite bool_decide_eq_false_2 by done.
    rewrite !decide_False by (try intros [? _]; done). auto.
  - rewrite bool_decide_eq_false_2 by done.
    rewrite (decide_True (P := VotePreCom = VotePreCom)) by done.
    rewrite (decide_False (P := VotePreCom = VoteCom ∧ _)) by (intros [? _]; done).
    destruct (countVoteNoLock _ _ VotePreCom) as [h [|]] eqn:Hc; cbv beta iota; [|auto].
    case_decide as Hskip; [|auto].
    case_decide as H1.
    { right; right; left. exists h, (add64 (period (data a)) 1).
      repeat split; tauto. }
    case_decide as H2; [|auto].
    right; right; left. exists h, (vPeriod vote).
    repeat split; tauto.
  - rewrite bool_decide_eq_true_2 by done.
    rewrite (decide_False (P := VoteCom = VotePreCom)) by done.
    destruct (countVoteNoLock _ _ _) as [h [|]] eqn:Hc; cbv beta iota.
    + case_decide as Hskip.
      { left. exists h. repeat split; tauto. }
      subst h.
      case_decide as H3; [|auto].
      right; right; right. repeat split; try tauto.
      intros h' Hh'. congruence.
    + case_decide as H3; [|auto].
      right; right; right. repeat split; try tauto.
      intros h' Hh'. congruence.
Qed.

Lemma send_cases (p : N) (a : agreement) :
  (fastForward a = None
   ∧ send p a = Returned None (withFastForward (Some p) a))
  ∨ (∃ m, fastForward a = Some m ∧ send p a = BlockedOnSend p a).
Proof. unfold send. destruct (fastForward a) as [m|]; eauto. Qed.

(** ** The paths of a call, as cases of a proof *)

(** [H] says how a call of [processVote now vote a] ended: one goal per
    path, the state the path leaves put in place in [H]. *)
Ltac vote_split now vote a H :=
  let e := fresh "e" in
  let Hsane := fresh "Hsane" in
  let Hpos := fresh "Hpos" in
  let Hfork := fresh "Hfork" in
  let Heq := fresh "Heq" in
  let Hout := fresh "Hout" in
  let Htype := fresh "Htype" in
  let Hcount := fresh "Hcount" in
  let Hskip := fresh "Hskip" in
  let Hcond := fresh "Hcond" in
  let Hsize := fresh "Hsize" in
  let Hper := fresh "Hper" in
  let h := fresh "h" in
  let p := fresh "p" in
  let m := fresh "m" in
  let Hff := fresh "Hff" in
  destruct (processVote_cases now vote a)
    as [(e & Hsane & Heq)
       |[(Hsane & Hpos & [Heq|Heq])
        |[(e & Hsane & Hpos & Hfork & Heq)
         |(Hsane & Hpos & Hfork & Heq)]]];
  rewrite Heq in H; clear Heq;
  [| | | |
   destruct (tallyVote_cases vote a)
     as [(h & Hout & Htype & Hcount & Hskip & Heq)
        |[Heq
         |[(h & p & Hout & Htype & Hcount & Hskip & Hcond & Heq)
          |(Hout & Htype & Hper & Hsize & Hcount & Heq)]]];
   rewrite Heq in H; clear Heq;
   [| |
    match type of H with
    | context [send ?q ?b] =>
        destruct (send_cases q b) as [(Hff & Heq)|(m & Hff & Heq)];
        rewrite Heq in H; clear Heq
    end ..]].

(** ** What a call leaves alone *)

(** [processVote] touches the tally, the lock, the receiver, the mailbox,
    the pending votes and the output flag, and nothing else. *)
Lemma processVote_frame (now : Z) (vote : Vote) (a a' : agreement) :
  stateOf (processVote now vote a) = Some a' →
  notarySet a' = notarySet a ∧ aID a' = aID a ∧ state a' = state a
  ∧ pendingBlocks a' = pendingBlocks a
  ∧ candidateBlock a' = candidateBlock a
  ∧ requiredVote (data a') = requiredVote (data a)
  ∧ period (data a') = period (data a)
  ∧ blocks (data a') = blocks (data a)
  ∧ leader (data a') = leader (data a).
Proof.
  intros H. vote_split now vote a H; simpl in H; simplify_eq; done.
Qed.

(** ** Invariants of a round *)

(** A property every returning call keeps holds along a sequence of calls. *)
Lemma run_inv (P : agreement → Prop) :
  (∀ c a a', P a → exec c a = Some a' → P a') →
  ∀ cs a a', P a → run cs a = Some a' → P a'.
Proof.
  intros Hstep cs. induction cs as [|c cs IH]; simpl; intros a a' HP Hrun.
  - by simplify_eq.
  - destruct (exec c a) as [a1|] eqn:Hc; [|done]. eauto.
Qed.

Lemma replayBlocks_inv (P : agreement → Prop) (now : Z) :
  (∀ c a a', P a → exec c a = Some a' → P a') →
  ∀ l a, P a → P (replayBlocks now l a).
Proof.
  intros Hstep l. unfold replayBlocks.
  induction l as [|b l IH]; simpl; intros a HP; [done|].
  apply IH. by apply (Hstep (CallBlock now b) a).
Qed.

Lemma replayVotes_inv (P : agreement → Prop) (now : Z) :
  (∀ c a a', P a → exec c a = Some a' → P a') →
  ∀ l a a', P a → replayVotes now l a = Returned tt a' → P a'.
Proof.
  intros Hstep l. induction l as [|v l IH]; simpl; intros a a' HP Hr.
  - by simplify_eq.
  - destruct (processVote now v a) as [r a1| |] eqn:Hv; [|done..].
    apply (IH a1); [|done].
    apply (Hstep (CallVote now v) a); [done|]. simpl. by rewrite Hv.
Qed.

(** A property that holds after the reset of [restart], that every
    returning call keeps and that does not read the pending buffers holds
    when [restart] returns. *)
Lemma restart_inv (P : agreement → Prop) (now : Z) (ns : gset NodeID)
    (pos : Position) (a a' : agreement) :
  (∀ c a a', P a → exec c a = Some a' → P a') →
  (∀ a l, P a → P (withPendingBlocks l a)) →
  (∀ a l, P a → P (withPendingVotes l a)) →
  P (resetRound ns pos a) →
  restart now ns pos a = Returned tt a' → P a'.
Proof.
  intros Hstep Hpb Hpv Hreset. unfold restart.
  destruct (isStop pos); [by intros [= <-]|].
  intros Hr. eapply replayVotes_inv; [done| |done].
  apply replayBlocks_inv; [done|]. apply Hpv, Hpb, Hreset.
Qed.

(** [processBlock] touches the pending blocks, the blocks, the candidate
    pool and the leader selector, and nothing else. *)
Lemma processBlock_frame (now : Z) (block : Block) (a : agreement) :
  let a' := (processBlock now block a).2 in
  notarySet a' = notarySet a ∧ aID a' = aID a ∧ state a' = state a
  ∧ hasOutput a' = hasOutput a ∧ fastForward a' = fastForward a
  ∧ pendingVotes a' = pendingVotes a
  ∧ recv (data a') = recv (data a)
  ∧ votes (data a') = votes (data a)
  ∧ requiredVote (data a') = requiredVote (data a)
  ∧ period (data a') = period (data a)
  ∧ lockRound (data a') = lockRound (data a)
  ∧ lockValue (data a') = lockValue (data a).
Proof.
  unfold processBlock. repeat case_match; simpl; done.
Qed.

Lemma fillBuckets_lookup (ks : list N) (m : gmap N voteListMap) (q : N)
    (l : voteListMap) :
  fillBuckets ks m !! q = Some l → m !! q = Some l ∨ l = newVoteListMap.
Proof.
  unfold fillBuckets. revert m.
  induction ks as [|k ks IH]; simpl; intros m Hq; [by left|].
  apply IH in Hq as [Hq|Hq]; [|by right].
  destruct (m !! k) eqn:Hk; [by left|].
  apply lookup_insert_Some in Hq as [[_ <-]|[_ Hq]]; auto.
Qed.

(** [setPeriod] adds empty buckets and sets the period. *)
Lemma setPeriod_frame (p : N) (d d' : agreementData) :
  setPeriod p d = Some d' →
  period d' = p ∧ recv d' = recv d ∧ requiredVote d' = requiredVote d
  ∧ lockRound d' = lockRound d ∧ lockValue d' = lockValue d
  ∧ blocks d' = blocks d ∧ leader d' = leader d
  ∧ ∀ q l, votes d' !! q = Some l → votes d !! q = Some l ∨ l = newVoteListMap.
Proof.
  unfold setPeriod. case_decide; [done|]. intros [= <-]. simpl.
  repeat split; try done. intros q l. apply fillBuckets_lookup.
Qed.

(** The ways [done] returns. *)
Lemma done_cases (a a' : agreement) (r : bool) :
  done a = Returned r a' →
  a' = a
  ∨ (∃ p, hasOutput a = false ∧ fastForward a = Some p
          ∧ (p ≤ period (data a))%N ∧ a' = withFastForward None a)
  ∨ (∃ p d, hasOutput a = false ∧ fastForward a = Some p
            ∧ (period (data a) < p)%N ∧ setPeriod p (data a) = Some d
            ∧ a' = withState statePreCommit
                     (withData d (withFastForward None a))).
Proof.
  unfold done. destruct (hasOutput a); [intros [= _ <-]; by left|].
  destruct (fastForward a) as [p|]; [|intros [= _ <-]; by left].
  case_decide as Hp.
  - intros [= _ <-]. right; left. by exists p.
  - destruct (setPeriod p (data a)) as [d|] eqn:Hd; [|done].
    intros [= _ <-]. right; right. exists p, d. repeat split; try done. lia.
Qed.

(** No call changes the notary set, the position or the quorum size. *)
Lemma exec_frame (c : call) (a a' : agreement) :
  exec c a = Some a' →
  notarySet a' = notarySet a ∧ aID a' = aID a
  ∧ requiredVote (data a') = requiredVote (data a).
Proof.
  destruct c as [now v|now b|]; simpl.
  - destruct (processVote now v a) as [r a1| |] eqn:Hv; [|done..].
    intros [= <-].
    assert (stateOf (processVote now v a) = Some a1) as Hs by by rewrite Hv.
    apply processVote_frame in Hs. tauto.
  - intros [= <-]. pose proof (processBlock_frame now b a). simpl in *. tauto.
  - destruct (done a) as [r a1| |] eqn:Hd; [|done..]. intros [= <-].
    apply done_cases in Hd as [->|[(p & _ & _ & _ & ->)|(p & d & _ & _ & _ & Hd & ->)]];
      [done..|].
    apply setPeriod_frame in Hd. simpl. tauto.
Qed.

(** ** The record of a vote *)

Lemma voteMap_setVoteMap (t t' : VoteType) (m : gmap NodeID Vote)
    (l : voteListMap) :
  voteMap (setVoteMap t m l) t' = if decide (t' = t) then m else voteMap l t'.
Proof. destruct t, t'; done. Qed.

(** The bucket of the period of a vote, once the vote is recorded. *)
Lemma recordVote_bucket (vote : Vote) (d : agreementData) (t : VoteType) :
  voteMap (bucketOf (votes (recordVote vote d)) (vPeriod vote)) t
  = if decide (t = vType vote)
    then <[vProposerID vote := vote]> (voteMap (bucketOf (votes d) (vPeriod vote)) t)
    else voteMap (bucketOf (votes d) (vPeriod vote)) t.
Proof.
  unfold recordVote, bucketOf at 1. simpl. rewrite lookup_insert_eq. simpl.
  rewrite voteMap_setVoteMap. case_decide; by subst.
Qed.

Lemma recordVote_has_bucket (vote : Vote) (d : agreementData) :
  votes (recordVote vote d) !! vPeriod vote
  = Some (bucketOf (votes (recordVote vote d)) (vPeriod vote)).
Proof.
  unfold bucketOf, recordVote. simpl. by rewrite lookup_insert_eq.
Qed.

(** The maps of the tally after a vote is recorded. *)
Lemma recordVote_lookup (vote : Vote) (d : agreementData) (p : N)
    (l : voteListMap) :
  votes (recordVote vote d) !! p = Some l →
  (p = vPeriod vote
   ∧ ∀ t, voteMap l t
          = if decide (t = vType vote)
            then <[vProposerID vote := vote]> (voteMap (bucketOf (votes d) p) t)
            else voteMap (bucketOf (votes d) p) t)
  ∨ (p ≠ vPeriod vote ∧ votes d !! p = Some l).
Proof.
  intros Hl. destruct (decide (p = vPeriod vote)) as [->|Hne].
  - left. split; [done|]. intros t. rewrite <- recordVote_bucket.
    unfold bucketOf. by rewrite Hl.
  - right. split; [done|]. unfold recordVote in Hl. simpl in Hl.
    by rewrite lookup_insert_ne in Hl.
Qed.

(** A vote of the tally, recorded again, leaves the data as they are. *)
Lemma recordVote_recorded (vote : Vote) (a : agreement) :
  recorded vote a → recordVote vote (data a) = data a.
Proof.
  intros (l & Hl & Hv). unfold recordVote, bucketOf. rewrite Hl.
  change (default newVoteListMap (Some l)) with l.
  rewrite (insert_id _ _ _ Hv).
  replace (setVoteMap (vType vote) (voteMap l (vType vote)) l) with l
    by (destruct l, (vType vote); done).
  rewrite insert_id by done. by destruct (data a).
Qed.

Lemma sanityCheck_member (vote : Vote) (a : agreement) :
  sanityCheck vote a = None → vProposerID vote ∈ notarySet a.
Proof. unfold sanityCheck. by case_decide. Qed.

(** The sanity check reads the notary set only. *)
Lemma sanityCheck_notarySet (vote : Vote) (a a' : agreement) :
  notarySet a' = notarySet a → sanityCheck vote a' = sanityCheck vote a.
Proof. unfold sanityCheck. by intros ->. Qed.

(** What a call of [processVote] does to the output flag and to the number
    of confirmations. *)
Lemma processVote_confirm (now : Z) (vote : Vote) (a a' : agreement) :
  stateOf (processVote now vote a) = Some a' →
  (hasOutput a' = hasOutput a ∧ confirmCount a' = confirmCount a)
  ∨ (hasOutput a = false ∧ hasOutput a' = true
     ∧ confirmCount a' = S (confirmCount a)).
Proof.
  intros H. vote_split now vote a H; simpl in H; simplify_eq; simpl;
    unfold confirmCount; simpl;
    rewrite ?List.filter_app, ?length_app; simpl; auto.
  right. repeat split; [done|lia].
Qed.

(** ** Quorum size *)

(** C8. After a restart with the notary set [ns], and after any calls that
    follow it, [requiredVote] is [size ns / 3 * 2 + 1] with the division
    rounding down: 3, 5 and 7 for sets of 4, 7 and 10 nodes; and a hash that
    [countVoteNoLock] reports is the hash of the votes of [requiredVote]
    proposers of the bucket, or more. *)
Theorem quorum_size_formula (now : Z) (ns : gset NodeID) (pos : Position)
    (a a1 : agreement) (cs : list call) (a2 : agreement) :
  restart now ns pos a = Returned tt a1 →
  run cs a1 = Some a2 →
  requiredVote (data a1) = size ns / 3 * 2 + 1
  ∧ requiredVote (data a2) = size ns / 3 * 2 + 1
  ∧ (size ns = 4 → requiredVote (data a2) = 3)
  ∧ (size ns = 7 → requiredVote (data a2) = 5)
  ∧ (size ns = 10 → requiredVote (data a2) = 7)
  ∧ (∀ p t h,
       countVoteNoLock (data a2) p t = (h, true) →
       ∃ l, votes (data a2) !! p = Some l
            ∧ requiredVote (data a2) ≤ size (votersFor h (voteMap l t))
            ∧ ∀ n, n ∈ votersFor h (voteMap l t)
                   ↔ ∃ v, voteMap l t !! n = Some v ∧ vBlockHash v = h).
Proof.
  intros Hrestart Hrun.
  assert (requiredVote (data a1) = size ns / 3 * 2 + 1) as H1.
  { revert Hrestart.
    apply (restart_inv (λ a, requiredVote (data a) = size ns / 3 * 2 + 1));
      try done.
    intros c b b' Hb Hc. apply exec_frame in Hc as (_ & _ & ->). done. }
  assert (requiredVote (data a2) = size ns / 3 * 2 + 1) as H2.
  { revert Hrun.
    apply (run_inv (λ a, requiredVote (data a) = size ns / 3 * 2 + 1));
      try done.
    intros c b b' Hb Hc. apply exec_frame in Hc as (_ & _ & ->). done. }
  repeat split; try done.
  - intros Hn. rewrite H2, Hn. done.
  - intros Hn. rewrite H2, Hn. done.
  - intros Hn. rewrite H2, Hn. done.
  - intros p t h Hc. apply countVoteNoLock_winner in Hc as (l & Hl & Hreq & _).
    exists l. split; [done|]. rewrite <- voteCount_voters.
    split; [done|]. intros n. apply votersFor_spec.
Qed.

(** ** Forks *)

(** C2, amended. A block for the current position whose proposer has a
    recorded block with another hash is answered with the fork error and the
    state stays as it is; a vote that passes the sanity check, is for the
    current position and meets a recorded vote of its period, type and
    proposer with another block hash is answered with the fork-vote error
    and the state stays as it is, the first vote still recorded. *)
Theorem fork_detection :
  (∀ (now : Z) (block : Block) (a : agreement) (old : Block),
     bPosition block = aID a →
     blocks (data a) !! bProposerID block = Some old →
     bHash old ≠ bHash block →
     processBlock now block a
     = (Some (ErrFork (bProposerID block) (bHash old) (bHash block)), a))
  ∧ (∀ (now : Z) (vote : Vote) (a : agreement) (l : voteListMap) (old : Vote),
       sanityCheck vote a = None →
       vPosition vote = aID a →
       votes (data a) !! vPeriod vote = Some l →
       voteMap l (vType vote) !! vProposerID vote = Some old →
       vBlockHash old ≠ vBlockHash vote →
       processVote now vote a
       = Returned (Some (ErrForkVote (vProposerID vote) old vote)) a).
Proof.
  split.
  - intros now block a old Hpos Hold Hne. unfold processBlock.
    rewrite decide_False by (intros ?; done).
    rewrite Hold. by rewrite decide_True.
  - intros now vote a l old Hsane Hpos Hl Hold Hne. unfold processVote.
    rewrite Hsane. rewrite decide_False by (intros ?; done).
    unfold checkForkVote. rewrite Hl, Hold.
    rewrite decide_True by (intros ?; congruence). done.
Qed.

(** ** The stopped instance *)

Lemma stop_returns (now : Z) (a : agreement) :
  stop now a = Returned tt (resetRound ∅ stopPosition a).
Proof. done. Qed.

(** C10. After [stop], and after any calls that follow it, a call of
    [processVote] returns ErrNotInNotarySet and leaves the state as it is:
    the pending votes and the tally are those [stop] left.  [processBlock]
    still buffers a block of another position. *)
Theorem stopped_rejects_votes (now : Z) (a a1 : agreement) (cs : list call)
    (a2 : agreement) :
  stop now a = Returned tt a1 →
  run cs a1 = Some a2 →
  (∀ now' vote,
     processVote now' vote a2 = Returned (Some ErrNotInNotarySet) a2)
  ∧ pendingVotes a2 = pendingVotes a
  ∧ votes (data a2) = {[ 1%N := newVoteListMap ]}
  ∧ (∀ now' block,
       bPosition block ≠ aID a2 →
       processBlock now' block a2
       = (None,
          withPendingBlocks (pendingBlocks a2 ++ [mkPendingBlock block now']) a2)).
Proof.
  rewrite stop_returns. intros [= <-] Hrun.
  set (P := λ b : agreement,
         notarySet b = ∅ ∧ aID b = stopPosition
         ∧ pendingVotes b = pendingVotes a
         ∧ votes (data b) = {[ 1%N := newVoteListMap ]}
         ∧ fastForward b = None ∧ hasOutput b = false).
  assert (∀ now' vote b, P b →
            processVote now' vote b = Returned (Some ErrNotInNotarySet) b)
    as Hvote.
  { intros now' vote b (Hns & _). unfold processVote, sanityCheck.
    rewrite Hns. rewrite decide_False by set_solver. done. }
  assert (P a2) as HP.
  { revert Hrun. apply run_inv; [|done].
    intros c b b' Hb. destruct c as [now' v|now' blk|]; simpl.
    - rewrite Hvote by done. by intros [= <-].
    - intros [= <-]. pose proof (processBlock_frame now' blk b) as Hf.
      unfold P in *. cbv zeta in Hf.
      destruct Hb as (? & ? & ? & ? & ? & ?).
      destruct Hf as (-> & -> & _ & -> & -> & -> & _ & -> & _). done.
    - destruct Hb as (? & ? & ? & ? & Hff & Hout). unfold done.
      rewrite Hout, Hff. by intros [= <-]. }
  split; [by eauto|]. destruct HP as (Hns & Hid & Hpv & Hv & _ & _).
  repeat split; try done.
  intros now' block Hpos. unfold processBlock.
  rewrite decide_True by done. rewrite Hid. done.
Qed.

(** ** Finalization *)

Lemma exec_confirm (c : call) (a a' : agreement) :
  exec c a = Some a' →
  (hasOutput a' = hasOutput a ∧ confirmCount a' = confirmCount a)
  ∨ (hasOutput a = false ∧ hasOutput a' = true
     ∧ confirmCount a' = S (confirmCount a)).
Proof.
  destruct c as [now v|now b|]; simpl.
  - destruct (processVote now v a) as [r a1| |] eqn:Hv; [|done..].
    intros [= <-]. apply (processVote_confirm now v). by rewrite Hv.
  - intros [= <-]. left.
    pose proof (processBlock_frame now b a) as Hf. cbv zeta in Hf.
    unfold confirmCount.
    destruct Hf as (_ & _ & _ & -> & _ & _ & -> & _). done.
  - destruct (done a) as [r a1| |] eqn:Hd; [|done..]. intros [= <-]. left.
    apply done_cases in Hd
        as [->|[(p & _ & _ & _ & ->)|(p & d & _ & _ & _ & Hd & ->)]];
      [done..|].
    apply setPeriod_frame in Hd as (_ & Hrecv & _).
    unfold confirmCount. simpl. by rewrite Hrecv.
Qed.

Lemma confirmedOnce_exec (n : nat) (c : call) (a a' : agreement) :
  confirmedOnce n a → exec c a = Some a' → confirmedOnce n a'.
Proof.
  unfold confirmedOnce. intros Ha Hc.
  apply exec_confirm in Hc as [[-> ->]|(Hf & -> & ->)]; [done|].
  rewrite Ha, Hf. lia.
Qed.

Lemma votersAreNotaries_record (vote : Vote) (a : agreement) :
  votersAreNotaries a → sanityCheck vote a = None →
  votersAreNotaries (withData (recordVote vote (data a)) a).
Proof.
  intros [Hreq Hdom] Hsane. split; [done|]. simpl. intros p l t Hl.
  apply recordVote_lookup in Hl as [[-> Hl]|[_ Hl]]; [|by eapply Hdom].
  rewrite Hl. apply sanityCheck_member in Hsane.
  assert (dom (voteMap (bucketOf (votes (data a)) (vPeriod vote)) t)
          ⊆ notarySet a) as Hold.
  { unfold bucketOf. destruct (votes (data a) !! vPeriod vote) as [l0|] eqn:Hl0.
    - by eapply Hdom.
    - destruct t; simpl; rewrite dom_empty_L; apply empty_subseteq. }
  case_decide; [|done]. rewrite dom_insert_L.
  apply union_subseteq. split; [by apply singleton_subseteq_l|done].
Qed.

Lemma votersAreNotaries_exec (c : call) (a a' : agreement) :
  votersAreNotaries a → exec c a = Some a' → votersAreNotaries a'.
Proof.
  intros Ha. destruct c as [now v|now b|]; simpl.
  - destruct (processVote now v a) as [r a1| |] eqn:Hv; [|done..].
    intros [= <-].
    vote_split now v a Hv; simplify_eq; try done;
      by apply (votersAreNotaries_record v a).
  - intros [= <-].
    pose proof (processBlock_frame now b a) as Hf. cbv zeta in Hf.
    destruct Ha as [Hreq Hdom]. unfold votersAreNotaries.
    destruct Hf as (-> & _ & _ & _ & _ & _ & _ & -> & -> & _). done.
  - destruct (done a) as [r a1| |] eqn:Hd; [|done..]. intros [= <-].
    apply done_cases in Hd
        as [->|[(p & _ & _ & _ & ->)|(p & d & _ & _ & _ & Hd & ->)]];
      [done..|].
    apply setPeriod_frame in Hd as (_ & _ & Hreq & _ & _ & _ & _ & Hvotes).
    destruct Ha as [Ha Hdom]. split; simpl; [by rewrite Hreq|].
    intros q l t Hl. apply Hvotes in Hl as [Hl| ->]; [by eapply Hdom|].
    destruct t; simpl; rewrite dom_empty_L; apply empty_subseteq.
Qed.

Lemma votersAreNotaries_reset (ns : gset NodeID) (pos : Position)
    (a : agreement) :
  votersAreNotaries (resetRound ns pos a).
Proof.
  split; [done|]. simpl. intros p l t Hl.
  apply lookup_singleton_Some in Hl as [_ <-].
  destruct t; simpl; rewrite dom_empty_L; apply empty_subseteq.
Qed.

(** Two quorums do not fit in a notary set, unless it has two members: its
    quorum size is then one. *)
Lemma quorum_majority (n : nat) : n ≠ 2 → n < 2 * (n / 3 * 2 + 1).
Proof.
  intros Hn2. pose proof (Nat.div_mod_eq n 3) as Hn.
  assert (n mod 3 < 3) as Hr by (apply Nat.mod_upper_bound; lia).
  revert Hn Hr. generalize (n / 3) (n mod 3). intros q r Hn Hr. lia.
Qed.

Lemma votersAreNotaries_size (a : agreement) (p : N) (l : voteListMap)
    (t : VoteType) :
  votersAreNotaries a → size (notarySet a) ≠ 2 →
  votes (data a) !! p = Some l →
  0 < requiredVote (data a) ∧ size (voteMap l t) < 2 * requiredVote (data a).
Proof.
  intros [Hreq Hdom] Hn2 Hl. rewrite Hreq. split; [lia|].
  specialize (Hdom p l t Hl). apply subseteq_size in Hdom.
  rewrite size_dom in Hdom.
  pose proof (quorum_majority (size (notarySet a)) Hn2). lia.
Qed.

Lemma confirmCount_reset (ns : gset NodeID) (pos : Position) (a : agreement) :
  confirmedOnce (confirmCount a) (resetRound ns pos a).
Proof. unfold confirmedOnce, confirmCount. simpl. lia. Qed.

(** What holds of every state of a round: from a restart that returned,
    through the calls that returned after it. *)
Lemma round_invariants (now0 : Z) (ns : gset NodeID) (pos : Position)
    (a0 a1 : agreement) (cs : list call) (a : agreement) :
  restart now0 ns pos a0 = Returned tt a1 →
  run cs a1 = Some a →
  confirmedOnce (confirmCount a0) a ∧ votersAreNotaries a
  ∧ notarySet a = ns ∧ aID a = pos.
Proof.
  intros Hrestart Hrun.
  set (P := λ b : agreement,
         confirmedOnce (confirmCount a0) b ∧ votersAreNotaries b
         ∧ notarySet b = ns ∧ aID b = pos).
  assert (∀ c b b', P b → exec c b = Some b' → P b') as Hstep.
  { intros c b b' (H1 & H2 & H3 & H4) Hc. unfold P.
    pose proof (exec_frame c b b' Hc) as (-> & -> & _).
    split; [by eapply confirmedOnce_exec|].
    split; [by eapply votersAreNotaries_exec|done]. }
  change (P a). revert Hrun. apply (run_inv P); [done|].
  revert Hrestart. apply (restart_inv P); [done|done|done|].
  split; [apply confirmCount_reset|].
  split; [apply votersAreNotaries_reset|done].
Qed.

(** C1, amended. In a round, from a restart through the calls that follow
    it, the receiver is told of a confirmed block once at most, and exactly
    when the output flag is set.  In a round that has no output yet, a
    Commit vote that passes the checks of [processVote] and gives the hash
    [h], not the skip hash, the votes of [requiredVote] proposers in its
    period, [h] being the only hash with that many (which it is when the
    notary set has not exactly two members), makes [processVote] return nil
    with [ConfirmBlock h] called on the Commit votes of the period: the one
    confirmation of the round.  Once the flag is set, no call of
    [processVote] changes the flag or calls the receiver, and a vote that
    the sanity check and the fork check let pass is answered with nil. *)
Theorem finalization_at_most_once (now0 : Z) (ns : gset NodeID) (pos : Position)
    (a0 a1 : agreement) (cs : list call) (a : agreement) :
  restart now0 ns pos a0 = Returned tt a1 →
  run cs a1 = Some a →
  confirmCount a ≤ confirmCount a0 + 1
  ∧ (hasOutput a = true ↔ confirmCount a = confirmCount a0 + 1)
  ∧ (∀ now vote h,
       hasOutput a = false →
       vType vote = VoteCom →
       sanityCheck vote a = None → vPosition vote = aID a →
       checkForkVote vote a = None →
       h ≠ skipBlockHash →
       requiredVote (data a)
       ≤ voteCount h
           (voteMap (bucketOf (votes (recordVote vote (data a))) (vPeriod vote))
                    VoteCom) →
       (size ns ≠ 2
        ∨ ∀ h', requiredVote (data a)
                ≤ voteCount h'
                    (voteMap (bucketOf (votes (recordVote vote (data a)))
                                       (vPeriod vote)) VoteCom) →
                h' = h) →
       ∃ a', processVote now vote a = Returned None a'
             ∧ hasOutput a' = true
             ∧ recv (data a')
               = recv (data a)
                 ++ [ConfirmBlock h
                       (voteMap (bucketOf (votes (recordVote vote (data a)))
                                          (vPeriod vote)) VoteCom)]
             ∧ confirmCount a' = confirmCount a0 + 1)
  ∧ (hasOutput a = true →
     ∀ now vote,
       (∀ a', stateOf (processVote now vote a) = Some a' →
              hasOutput a' = true ∧ recv (data a') = recv (data a))
       ∧ (sanityCheck vote a = None →
          (vPosition vote = aID a → checkForkVote vote a = None) →
          ∃ a', processVote now vote a = Returned None a')).
Proof.
  intros Hrestart Hrun.
  destruct (round_invariants _ _ _ _ _ _ _ Hrestart Hrun)
    as (Hconf & Hvoters & Hns & Hpos).
  unfold confirmedOnce in Hconf.
  split; [destruct (hasOutput a); lia|].
  split; [destruct (hasOutput a); split; (done || lia)|].
  split.
  - intros now vote h Hout Htype Hsane Hposv Hfork Hskip Hquorum Honly.
    pose proof (votersAreNotaries_record vote a Hvoters Hsane) as Hv1.
    set (a1' := withData (recordVote vote (data a)) a) in *.
    pose proof (recordVote_has_bucket vote (data a)) as Hl.
    set (l := bucketOf (votes (recordVote vote (data a))) (vPeriod vote)) in *.
    assert (countVoteNoLock (data a1') (vPeriod vote) VoteCom = (h, true))
      as Hcount.
    { destruct Honly as [Hn2|Honly].
      - destruct (votersAreNotaries_size a1' (vPeriod vote) l VoteCom)
          as [Hreq Hsize]; [done|by simpl; rewrite Hns|done|].
        by apply countVoteNoLock_unique with l.
      - assert (0 < requiredVote (data a)) as Hreq
          by (destruct Hvoters as [-> _]; lia).
        destruct (countVoteNoLock_quorum (data a1') (vPeriod vote) VoteCom l h)
          as [h' Hh']; [done|done|lia|].
        destruct (countVoteNoLock_winner _ _ _ _ Hh') as (l' & Hl' & Hq' & _).
        change (data a1') with (recordVote vote (data a)) in Hl'.
        rewrite Hl in Hl'. injection Hl' as <-.
        by rewrite <- (Honly h' Hq'). }
    unfold processVote. rewrite Hsane.
    rewrite decide_False by (intros ?; done). rewrite Hfork.
    unfold tallyVote. fold a1'.
    change (hasOutput a1') with (hasOutput a). rewrite Hout, Htype.
    rewrite bool_decide_eq_true_2 by done. cbn [negb andb].
    rewrite Hcount. rewrite decide_True by done.
    eexists. split; [done|]. simpl.
    repeat split; try done.
    unfold confirmCount. simpl. rewrite List.filter_app, length_app. simpl.
    unfold confirmCount in Hconf. rewrite Hconf, Hout. lia.
  - intros Hout now vote. split.
    + intros a' H.
      vote_split now vote a H; simpl in H; simplify_eq; simpl; try done;
        congruence.
    + intros Hsane Hfork.
      destruct (processVote_cases now vote a)
        as [(e & Hs & Heq)
           |[(Hs & Hp & [Heq|Heq])
            |[(e & Hs & Hp & Hf & Heq)|(Hs & Hp & Hf & Heq)]]];
        try congruence; try (by eexists).
      * specialize (Hfork Hp). congruence.
      * rewrite Heq. unfold tallyVote. simpl. rewrite Hout. simpl.
        by eexists.
Qed.

(** ** The lock round *)

Lemma lockBound_exec (c : call) (a a' : agreement) :
  lockBound a → exec c a = Some a' → lockBound a'.
Proof.
  unfold lockBound. intros Ha. destruct c as [now v|now b|]; simpl.
  - destruct (processVote now v a) as [r a1| |] eqn:Hv; [|done..].
    intros [= <-].
    vote_split now v a Hv; simplify_eq; simpl in *; try done.
    + destruct Ha as [Ha|(m & Hm & _)]; [|congruence].
      destruct Hcond as [(Hle & _ & _ & _)|(_ & ->)].
      * by left.
      * right. eexists. split; [done|lia].
    + destruct Ha as [Ha|(m & Hm & _)]; [|congruence]. by left.
  - intros [= <-].
    pose proof (processBlock_frame now b a) as Hf. cbv zeta in Hf.
    destruct Hf as (_ & _ & _ & _ & -> & _ & _ & _ & _ & -> & -> & _).
    done.
  - destruct (done a) as [r a1| |] eqn:Hd; [|done..]. intros [= <-].
    apply done_cases in Hd
        as [->|[(p & _ & Hff & Hle & ->)|(p & d & _ & Hff & Hlt & Hd & ->)]];
      [done| |].
    + left. simpl. destruct Ha as [Ha|(m & Hm & Ha)]; [done|].
      rewrite Hff in Hm. simplify_eq. lia.
    + apply setPeriod_frame in Hd as (Hp & _ & _ & Hlr & _).
      left. simpl. rewrite Hp, Hlr.
      destruct Ha as [Ha|(m & Hm & Ha)]; [lia|].
      rewrite Hff in Hm. by simplify_eq.
Qed.

(** C3, amended. In every state reached from a restart by calls of
    [processVote], [processBlock] and [done] that return, the lock round is
    at most the period or at most the fast-forward target that waits in the
    mailbox; with the mailbox empty it is at most the period. *)
Theorem lock_round_bound (now0 : Z) (ns : gset NodeID) (pos : Position)
    (a0 a1 : agreement) (cs : list call) (a : agreement) :
  restart now0 ns pos a0 = Returned tt a1 →
  run cs a1 = Some a →
  lockBound a
  ∧ (fastForward a = None → (lockRound (data a) ≤ period (data a))%N).
Proof.
  intros Hrestart Hrun.
  assert (lockBound a) as Ha.
  { revert Hrun. apply (run_inv lockBound); [apply lockBound_exec|].
    revert Hrestart.
    apply (restart_inv lockBound); [apply lockBound_exec|done|done|].
    left. simpl. lia. }
  split; [done|]. intros Hff. destruct Ha as [Ha|(m & Hm & _)]; [done|].
  congruence.
Qed.

(** ** Fast-forward *)

(** A vote that passes the three checks goes to the tally. *)
Lemma processVote_accepted (now : Z) (vote : Vote) (a : agreement) :
  sanityCheck vote a = None → vPosition vote = aID a →
  checkForkVote vote a = None →
  processVote now vote a = tallyVote vote a.
Proof.
  intros Hsane Hpos Hfork. unfold processVote.
  rewrite Hsane, Hfork. by rewrite decide_False by (intros ?; done).
Qed.

(** The tally of a PreCommit vote in a round without output. *)
Lemma tallyVote_preCommit (vote : Vote) (a : agreement) :
  hasOutput a = false → vType vote = VotePreCom →
  tallyVote vote a
  = checkFastForward vote (withData (recordVote vote (data a)) a).
Proof.
  intros Hout Htype. unfold tallyVote.
  change (hasOutput (withData (recordVote vote (data a)) a))
    with (hasOutput a).
  rewrite Hout, Htype. by rewrite bool_decide_eq_false_2.
Qed.

(** In a round the hash that alone has [requiredVote] votes of a period and
    type, the vote recorded, is the one [countVoteNoLock] reports, in
    whatever order the candidates are visited; with a notary set that has
    not exactly two members a hash that has them is alone. *)
Lemma countVoteNoLock_only (ns : gset NodeID) (vote : Vote) (a : agreement)
    (h : Hash) :
  votersAreNotaries a → notarySet a = ns → sanityCheck vote a = None →
  requiredVote (data a)
  ≤ voteCount h
      (voteMap (bucketOf (votes (recordVote vote (data a))) (vPeriod vote))
               (vType vote)) →
  (size ns ≠ 2
   ∨ ∀ h', requiredVote (data a)
           ≤ voteCount h'
               (voteMap (bucketOf (votes (recordVote vote (data a)))
                                  (vPeriod vote)) (vType vote)) →
           h' = h) →
  countVoteNoLock (recordVote vote (data a)) (vPeriod vote) (vType vote)
  = (h, true).
Proof.
  intros Hvoters Hns Hsane Hquorum Honly.
  pose proof (votersAreNotaries_record vote a Hvoters Hsane) as Hv1.
  set (a1' := withData (recordVote vote (data a)) a) in *.
  pose proof (recordVote_has_bucket vote (data a)) as Hl.
  set (l := bucketOf (votes (recordVote vote (data a))) (vPeriod vote)) in *.
  destruct Honly as [Hn2|Honly].
  - destruct (votersAreNotaries_size a1' (vPeriod vote) l (vType vote))
      as [Hreq Hsize]; [done|by simpl; rewrite Hns|done|].
    by apply (countVoteNoLock_unique (data a1')) with l.
  - assert (0 < requiredVote (data a)) as Hreq
      by (destruct Hvoters as [-> _]; lia).
    destruct (countVoteNoLock_quorum (data a1') (vPeriod vote) (vType vote) l h)
      as [h' Hh']; [done|done|lia|].
    destruct (countVoteNoLock_winner _ _ _ _ Hh') as (l' & Hl' & Hq' & _).
    change (data a1') with (recordVote vote (data a)) in Hl', Hh'.
    rewrite Hl in Hl'. injection Hl' as <-.
    by rewrite <- (Honly h' Hq').
Qed.

(** C4, amended. In a round, from a restart through the calls that follow
    it, a PreCommit vote passes the three checks of [processVote], the round
    being without output; the PreCommit votes of its period, the vote among
    them, give the hash [h], not the skip hash, the votes of [requiredVote]
    proposers, and no other hash that many (which is so when the notary set
    has not exactly two members): [h] is then the hash the tally reports in
    whatever order it visits the candidates.  If the period of the instance
    is at least that of the vote, the period of the vote is above the lock
    round, and the block hash of the vote itself is not the lock value, then
    [processVote] sets the lock value to [h], the lock round to the period
    of the vote, and sends the period of the instance plus one to the
    fast-forward channel. *)
Theorem fast_forward_condition1 (now0 : Z) (ns : gset NodeID) (pos : Position)
    (a0 a1 : agreement) (cs : list call) (a : agreement) (now : Z)
    (vote : Vote) (h : Hash) :
  restart now0 ns pos a0 = Returned tt a1 →
  run cs a1 = Some a →
  sanityCheck vote a = None → vPosition vote = aID a →
  checkForkVote vote a = None →
  hasOutput a = false →
  vType vote = VotePreCom →
  h ≠ skipBlockHash →
  requiredVote (data a)
  ≤ voteCount h
      (voteMap (bucketOf (votes (recordVote vote (data a))) (vPeriod vote))
               VotePreCom) →
  (size ns ≠ 2
   ∨ ∀ h', requiredVote (data a)
           ≤ voteCount h'
               (voteMap (bucketOf (votes (recordVote vote (data a)))
                                  (vPeriod vote)) VotePreCom) →
           h' = h) →
  (vPeriod vote ≤ period (data a))%N →
  (lockRound (data a) < vPeriod vote)%N →
  vBlockHash vote ≠ lockValue (data a) →
  ∃ a', stateOf (processVote now vote a) = Some a'
        ∧ errorOf (processVote now vote a) = None
        ∧ lockValue (data a') = h
        ∧ lockRound (data a') = vPeriod vote
        ∧ posted a (processVote now vote a) = Some (add64 (period (data a)) 1)
        ∧ (fastForward a = None →
           processVote now vote a = Returned None a'
           ∧ fastForward a' = Some (add64 (period (data a)) 1)).
Proof.
  intros Hrestart Hrun Hsane Hpos Hfork Hout Htype Hskip Hquorum Honly H1 H2 H3.
  destruct (round_invariants _ _ _ _ _ _ _ Hrestart Hrun)
    as (_ & Hvoters & Hns & _).
  assert (countVoteNoLock (recordVote vote (data a)) (vPeriod vote) VotePreCom
          = (h, true)) as Hcount.
  { rewrite <- Htype. apply (countVoteNoLock_only ns); try done;
      by rewrite Htype. }
  rewrite processVote_accepted, tallyVote_preCommit by done.
  unfold checkFastForward. rewrite Htype. rewrite decide_True by done.
  change (data (withData (recordVote vote (data a)) a))
    with (recordVote vote (data a)).
  rewrite Hcount. rewrite decide_True by done.
  change (period (recordVote vote (data a))) with (period (data a)).
  change (lockRound (recordVote vote (data a))) with (lockRound (data a)).
  change (lockValue (recordVote vote (data a))) with (lockValue (data a)).
  rewrite decide_True by done.
  unfold send, posted. simpl.
  destruct (fastForward a) eqn:Hff; simpl; rewrite ?Hff;
    eexists; repeat split; done.
Qed.

(** C5, amended. In a round, from a restart through the calls that follow
    it, a PreCommit vote passes the three checks of [processVote], the round
    being without output; its period is above the period of the instance;
    the PreCommit votes of its period, the vote among them, give the hash
    [h], not the skip hash, the votes of [requiredVote] proposers, and no
    other hash that many (which is so when the notary set has not exactly
    two members): [h] is then the hash the tally reports in whatever order
    it visits the candidates.  Then [processVote] sets the lock value to
    [h], the lock round to the period of the vote, and sends the period of
    the vote to the fast-forward channel. *)
Theorem fast_forward_condition2 (now0 : Z) (ns : gset NodeID) (pos : Position)
    (a0 a1 : agreement) (cs : list call) (a : agreement) (now : Z)
    (vote : Vote) (h : Hash) :
  restart now0 ns pos a0 = Returned tt a1 →
  run cs a1 = Some a →
  sanityCheck vote a = None → vPosition vote = aID a →
  checkForkVote vote a = None →
  hasOutput a = false →
  vType vote = VotePreCom →
  (period (data a) < vPeriod vote)%N →
  h ≠ skipBlockHash →
  requiredVote (data a)
  ≤ voteCount h
      (voteMap (bucketOf (votes (recordVote vote (data a))) (vPeriod vote))
               VotePreCom) →
  (size ns ≠ 2
   ∨ ∀ h', requiredVote (data a)
           ≤ voteCount h'
               (voteMap (bucketOf (votes (recordVote vote (data a)))
                                  (vPeriod vote)) VotePreCom) →
           h' = h) →
  ∃ a', stateOf (processVote now vote a) = Some a'
        ∧ errorOf (processVote now vote a) = None
        ∧ lockValue (data a') = h
        ∧ lockRound (data a') = vPeriod vote
        ∧ posted a (processVote now vote a) = Some (vPeriod vote)
        ∧ (fastForward a = None →
           processVote now vote a = Returned None a'
           ∧ fastForward a' = Some (vPeriod vote)).
Proof.
  intros Hrestart Hrun Hsane Hpos Hfork Hout Htype Hlt Hskip Hquorum Honly.
  destruct (round_invariants _ _ _ _ _ _ _ Hrestart Hrun)
    as (_ & Hvoters & Hns & _).
  assert (countVoteNoLock (recordVote vote (data a)) (vPeriod vote) VotePreCom
          = (h, true)) as Hcount.
  { rewrite <- Htype. apply (countVoteNoLock_only ns); try done;
      by rewrite Htype. }
  rewrite processVote_accepted, tallyVote_preCommit by done.
  unfold checkFastForward. rewrite Htype. rewrite decide_True by done.
  change (data (withData (recordVote vote (data a)) a))
    with (recordVote vote (data a)).
  rewrite Hcount. rewrite decide_True by done.
  change (period (recordVote vote (data a))) with (period (data a)).
  change (lockRound (recordVote vote (data a))) with (lockRound (data a)).
  change (lockValue (recordVote vote (data a))) with (lockValue (data a)).
  rewrite decide_False by lia. rewrite decide_True by done.
  unfold send, posted. simpl.
  destruct (fastForward a) eqn:Hff; simpl; rewrite ?Hff;
    eexists; repeat split; done.
Qed.

(** ** Pulling blocks *)

(** The hashes one pass of [addPullBlocks] adds. *)
Lemma addPullBlocks_elem (a : agreement) (l : voteListMap) (t : VoteType)
    (hs : list Hash) (h : Hash) :
  h ∈ addPullBlocks a l t hs
  ↔ h ∈ hs
    ∨ (h ≠ nullBlockHash ∧ h ≠ skipBlockHash
       ∧ candidateBlock a !! h = None
       ∧ ∃ n v, voteMap l t !! n = Some v ∧ vBlockHash v = h).
Proof.
  unfold addPullBlocks.
  assert (∀ kvs hs,
            h ∈ foldl (λ hs (kv : NodeID * Vote),
                         if decide (vBlockHash kv.2 = nullBlockHash
                                    ∨ vBlockHash kv.2 = skipBlockHash) then hs
                         else match candidateBlock a !! vBlockHash kv.2 with
                              | Some _ => hs
                              | None => hs ++ [vBlockHash kv.2]
                              end) hs kvs
            ↔ h ∈ hs
              ∨ (h ≠ nullBlockHash ∧ h ≠ skipBlockHash
                 ∧ candidateBlock a !! h = None
                 ∧ ∃ kv, kv ∈ kvs ∧ vBlockHash kv.2 = h)) as Hfold.
  { induction kvs as [|kv kvs IH]; intros hs'; simpl.
    - split; [by left|]. intros [?|(_ & _ & _ & kv & Hin & _)]; [done|].
      by apply elem_of_nil in Hin.
    - rewrite IH. clear IH. split.
      + intros [Hin|(Hn & Hs & Hc & kv' & Hin & Hh)].
        * case_decide as Hsent.
          { by left. }
          destruct (candidateBlock a !! vBlockHash kv.2) eqn:Hcand;
            [by left|].
          apply elem_of_app in Hin as [Hin|Hin]; [by left|].
          apply list_elem_of_singleton in Hin. subst h. right.
          repeat split; try tauto. exists kv. split; [left|done].
        * right. repeat split; try done. exists kv'. split; [by right|done].
      + intros [Hin|(Hn & Hs & Hc & kv' & Hin & Hh)].
        * left. case_decide; [done|]. case_match; [done|].
          apply elem_of_app. by left.
        * apply elem_of_cons in Hin as [->|Hin].
          -- left. rewrite decide_False by (rewrite Hh; tauto).
             rewrite Hh, Hc. apply elem_of_app. right. by left.
          -- right. repeat split; try done. by exists kv'. }
  rewrite Hfold. split.
  - intros [?|(? & ? & ? & [n v] & Hin & Hh)]; [by left|right].
    repeat split; try done. exists n, v.
    by apply elem_of_map_to_list in Hin.
  - intros [?|(? & ? & ? & n & v & Hin & Hh)]; [by left|right].
    repeat split; try done. exists (n, v).
    by apply elem_of_map_to_list in Hin.
Qed.

(** The hashes handed to PullBlocks: those of the Init, PreCommit and Commit
    votes of the bucket that are no sentinel and no candidate block. *)
Lemma pullHashes_elem (a : agreement) (l : voteListMap) (h : Hash) :
  h ∈ pullHashes a l
  ↔ h ≠ nullBlockHash ∧ h ≠ skipBlockHash
    ∧ candidateBlock a !! h = None
    ∧ ∃ t n v, voteMap l t !! n = Some v ∧ vBlockHash v = h.
Proof.
  unfold pullHashes. rewrite !addPullBlocks_elem. split.
  - intros [[[Hin|H]|H]|H].
    + by apply elem_of_nil in Hin.
    + destruct H as (? & ? & ? & n & v & ?). repeat split; eauto.
    + destruct H as (? & ? & ? & n & v & ?). repeat split; eauto.
    + destruct H as (? & ? & ? & n & v & ?). repeat split; eauto.
  - intros (? & ? & ? & t & n & v & ?). destruct t.
    + left; left; right. eauto 10.
    + left; right. eauto 10.
    + right. eauto 10.
Qed.

(** C6, amended. A Commit vote passes the three checks of [processVote] in
    a round without output; its period is at least that of the instance;
    with the vote recorded, the Commit votes of its period are
    [requiredVote] or more, and they give [countVoteNoLock] no hash or the
    skip hash, so that the vote does not finalize the round.  Then
    [processVote] calls PullBlocks with a list whose members are the hashes
    of the Init, PreCommit and Commit votes of the period that are neither
    the null nor the skip hash and are not in the candidate pool, and sends
    the period of the vote plus one to the fast-forward channel. *)
Theorem commit_quorum_pulls_blocks (now : Z) (vote : Vote) (a : agreement) :
  sanityCheck vote a = None → vPosition vote = aID a →
  checkForkVote vote a = None →
  hasOutput a = false →
  vType vote = VoteCom →
  (period (data a) ≤ vPeriod vote)%N →
  requiredVote (data a)
  ≤ size (voteMap (bucketOf (votes (recordVote vote (data a))) (vPeriod vote))
                  VoteCom) →
  (∀ h, countVoteNoLock (recordVote vote (data a)) (vPeriod vote) VoteCom
        = (h, true) → h = skipBlockHash) →
  ∃ hashes a',
    stateOf (processVote now vote a) = Some a'
    ∧ errorOf (processVote now vote a) = None
    ∧ recv (data a') = recv (data a) ++ [PullBlocks hashes]
    ∧ (∀ h, h ∈ hashes
            ↔ h ≠ nullBlockHash ∧ h ≠ skipBlockHash
              ∧ candidateBlock a !! h = None
              ∧ ∃ t n v,
                  voteMap (bucketOf (votes (recordVote vote (data a)))
                                    (vPeriod vote)) t !! n = Some v
                  ∧ vBlockHash v = h)
    ∧ posted a (processVote now vote a) = Some (add64 (vPeriod vote) 1)
    ∧ (fastForward a = None →
       processVote now vote a = Returned None a'
       ∧ fastForward a' = Some (add64 (vPeriod vote) 1)).
Proof.
  intros Hsane Hpos Hfork Hout Htype Hper Hsize Hnone.
  rewrite processVote_accepted by done.
  set (a1 := withData (recordVote vote (data a)) a).
  set (l := bucketOf (votes (recordVote vote (data a))) (vPeriod vote)) in *.
  assert (tallyVote vote a
          = send (add64 (vPeriod vote) 1)
              (withData (withRecv (recv (data a1) ++ [PullBlocks (pullHashes a1 l)])
                           (data a1)) a1)) as ->.
  { unfold tallyVote. fold a1. change (hasOutput a1) with (hasOutput a).
    rewrite Hout, Htype. rewrite bool_decide_eq_true_2 by done.
    cbn [negb andb].
    assert (checkFastForward vote a1
            = send (add64 (vPeriod vote) 1)
                (withData
                   (withRecv (recv (data a1) ++ [PullBlocks (pullHashes a1 l)])
                      (data a1)) a1)) as Hcf.
    { unfold checkFastForward, condition3. rewrite Htype.
      rewrite (decide_False (P := VoteCom = VotePreCom)) by done.
      by rewrite decide_True by done. }
    destruct (countVoteNoLock _ _ _) as [h [|]] eqn:Hc; [|done].
    specialize (Hnone h eq_refl).
    by rewrite decide_False by (intros Hne; done). }
  exists (pullHashes a1 l).
  pose proof (pullHashes_elem a1 l) as Hmem.
  unfold send, posted. simpl.
  destruct (fastForward a) eqn:Hff; simpl; rewrite ?Hff;
    eexists; (split; [done|]); (split; [done|]); (split; [done|]);
    (split; [exact Hmem|]); split; done.
Qed.

(** ** The pending buffers *)

Lemma sweepVotes_spec (now : Z) (pos : Position) (l : list pendingVote) :
  sweepVotes (now - 10 * Second) pos l
  = (map pvVote (filter (λ e, replayed pos (vPosition (pvVote e))) l),
     filter (λ e, kept now pos (vPosition (pvVote e)) (pvReceivedTime e)) l).
Proof.
  unfold sweepVotes.
  assert (∀ acc : list Vote * list pendingVote,
            foldl (λ acc pending,
                     if Newer pos (vPosition (pvVote pending)) then acc
                     else if decide (vPosition (pvVote pending) = pos)
                          then (acc.1 ++ [pvVote pending], acc.2)
                          else if decide (now - 10 * Second
                                          < pvReceivedTime pending)%Z
                               then (acc.1, acc.2 ++ [pending])
                               else acc) acc l
            = (acc.1 ++ map pvVote
                 (filter (λ e, replayed pos (vPosition (pvVote e))) l),
               acc.2 ++ filter
                 (λ e, kept now pos (vPosition (pvVote e)) (pvReceivedTime e)) l))
    as Hgen.
  { induction l as [|e l IH]; intros [r k]; simpl.
    - by rewrite !app_nil_r.
    - rewrite IH. clear IH. unfold replayed, kept.
      destruct (Newer pos (vPosition (pvVote e))) eqn:Hnew.
      + rewrite !filter_cons_False by (intros ?; intuition congruence). done.
      + destruct (decide (vPosition (pvVote e) = pos)) as [Heq|Hne].
        * rewrite filter_cons_True by done.
          rewrite filter_cons_False by (intros ?; intuition congruence).
          simpl. by rewrite <- app_assoc.
        * rewrite filter_cons_False by (intros ?; intuition congruence).
          destruct (decide (now - 10 * Second < pvReceivedTime e)%Z).
          -- rewrite filter_cons_True by done. simpl.
             by rewrite <- app_assoc.
          -- rewrite filter_cons_False by (intros ?; intuition congruence). done. }
  by rewrite Hgen.
Qed.

Lemma sweepBlocks_spec (now : Z) (pos : Position) (l : list pendingBlock) :
  sweepBlocks (now - 10 * Second) pos l
  = (map pbBlock (filter (λ e, replayed pos (bPosition (pbBlock e))) l),
     filter (λ e, kept now pos (bPosition (pbBlock e)) (pbReceivedTime e)) l).
Proof.
  unfold sweepBlocks.
  assert (∀ acc : list Block * list pendingBlock,
            foldl (λ acc pending,
                     if Newer pos (bPosition (pbBlock pending)) then acc
                     else if decide (bPosition (pbBlock pending) = pos)
                          then (acc.1 ++ [pbBlock pending], acc.2)
                          else if decide (now - 10 * Second
                                          < pbReceivedTime pending)%Z
                               then (acc.1, acc.2 ++ [pending])
                               else acc) acc l
            = (acc.1 ++ map pbBlock
                 (filter (λ e, replayed pos (bPosition (pbBlock e))) l),
               acc.2 ++ filter
                 (λ e, kept now pos (bPosition (pbBlock e)) (pbReceivedTime e)) l))
    as Hgen.
  { induction l as [|e l IH]; intros [r k]; simpl.
    - by rewrite !app_nil_r.
    - rewrite IH. clear IH. unfold replayed, kept.
      destruct (Newer pos (bPosition (pbBlock e))) eqn:Hnew.
      + rewrite !filter_cons_False by (intros ?; intuition congruence). done.
      + destruct (decide (bPosition (pbBlock e) = pos)) as [Heq|Hne].
        * rewrite filter_cons_True by done.
          rewrite filter_cons_False by (intros ?; intuition congruence).
          simpl. by rewrite <- app_assoc.
        * rewrite filter_cons_False by (intros ?; intuition congruence).
          destruct (decide (now - 10 * Second < pbReceivedTime e)%Z).
          -- rewrite filter_cons_True by done. simpl.
             by rewrite <- app_assoc.
          -- rewrite filter_cons_False by (intros ?; intuition congruence). done. }
  by rewrite Hgen.
Qed.

(** A vote for the current position is not buffered. *)
Lemma processVote_pending (now : Z) (vote : Vote) (a a' : agreement) :
  vPosition vote = aID a →
  stateOf (processVote now vote a) = Some a' →
  pendingVotes a' = pendingVotes a ∧ pendingBlocks a' = pendingBlocks a
  ∧ aID a' = aID a.
Proof.
  intros Hp H.
  vote_split now vote a H; simpl in H; simplify_eq; done.
Qed.

(** A block for the current position is not buffered. *)
Lemma processBlock_pending (now : Z) (block : Block) (a : agreement) :
  bPosition block = aID a →
  pendingVotes (processBlock now block a).2 = pendingVotes a
  ∧ pendingBlocks (processBlock now block a).2 = pendingBlocks a
  ∧ aID (processBlock now block a).2 = aID a.
Proof.
  intros Hp. unfold processBlock. rewrite decide_False by (intros ?; done).
  repeat case_match; done.
Qed.

(** The replay of votes and blocks of the current position leaves the
    pending buffers as they are. *)
Lemma replay_pending (now : Z) (pos : Position) (pv : list pendingVote)
    (pb : list pendingBlock) (vs : list Vote) (bs : list Block)
    (a a' : agreement) :
  Forall (λ v, vPosition v = pos) vs →
  Forall (λ b, bPosition b = pos) bs →
  aID a = pos → pendingVotes a = pv → pendingBlocks a = pb →
  stateOf (replayVotes now vs (replayBlocks now bs a)) = Some a' →
  pendingVotes a' = pv ∧ pendingBlocks a' = pb.
Proof.
  intros Hvs Hbs. unfold replayBlocks. revert a.
  induction bs as [|b bs IHb]; simpl.
  - clear Hbs. induction vs as [|v vs IHv]; simpl; intros a Hid Hpv Hpb Hs.
    + by simplify_eq.
    + apply Forall_cons in Hvs as [Hv Hvs]. rewrite <- Hid in Hv.
      destruct (processVote now v a) as [r a1|p a1|] eqn:Hpr; [| |done].
      * destruct (processVote_pending now v a a1 Hv) as (H1 & H2 & H3);
          [by rewrite Hpr|].
        apply (IHv Hvs a1); congruence.
      * simpl in Hs. simplify_eq.
        destruct (processVote_pending now v a a' Hv) as (H1 & H2 & H3);
          [by rewrite Hpr|]. by rewrite H1, H2.
  - intros a Hid Hpv Hpb. apply Forall_cons in Hbs as [Hb Hbs].
    rewrite <- Hid in Hb.
    destruct (processBlock_pending now b a Hb) as (H1 & H2 & H3).
    apply (IHb Hbs); congruence.
Qed.


(** ** Resubmission *)

Lemma tallyIsValid_ext (a a' : agreement) :
  notarySet a' = notarySet a → aID a' = aID a →
  votes (data a') = votes (data a) → blocks (data a') = blocks (data a) →
  tallyIsValid a → tallyIsValid a'.
Proof.
  intros Hns Hid Hv Hb [H1 H2]. split.
  - intros p l t n v Hl Hn. rewrite Hv in Hl. rewrite Hid.
    rewrite (sanityCheck_notarySet v a a') by done. by eapply H1.
  - intros n b Hn. rewrite Hb in Hn. rewrite Hid. by eapply H2.
Qed.

Lemma recordVote_elem (vote : Vote) (d : agreementData) (p : N)
    (l : voteListMap) (t : VoteType) (n : NodeID) (v : Vote) :
  votes (recordVote vote d) !! p = Some l → voteMap l t !! n = Some v →
  v = vote ∨ ∃ l0, votes d !! p = Some l0 ∧ voteMap l0 t !! n = Some v.
Proof.
  intros Hl Hn. apply recordVote_lookup in Hl as [[-> Hl]|[_ Hl]]; [|eauto].
  rewrite Hl in Hn.
  assert (voteMap (bucketOf (votes d) (vPeriod vote)) t !! n = Some v →
          ∃ l0, votes d !! vPeriod vote = Some l0 ∧ voteMap l0 t !! n = Some v)
    as Hold.
  { unfold bucketOf. destruct (votes d !! vPeriod vote) as [l0|]; [eauto|].
    destruct t; simpl; by rewrite lookup_empty. }
  case_decide; [|auto].
  apply lookup_insert_Some in Hn as [[_ <-]|[_ Hn]]; auto.
Qed.

Lemma tallyIsValid_record (vote : Vote) (a : agreement) :
  tallyIsValid a → sanityCheck vote a = None → vPosition vote = aID a →
  tallyIsValid (withData (recordVote vote (data a)) a).
Proof.
  intros [H1 H2] Hsane Hpos. split; [|done]. simpl.
  intros p l t n v Hl Hn.
  destruct (recordVote_elem _ _ _ _ _ _ _ Hl Hn) as [->|(l0 & Hl0 & Hn0)].
  - done.
  - by eapply H1.
Qed.

Lemma tallyIsValid_exec (c : call) (a a' : agreement) :
  tallyIsValid a → exec c a = Some a' → tallyIsValid a'.
Proof.
  intros Ha. destruct c as [now v|now b|]; simpl.
  - destruct (processVote now v a) as [r a1| |] eqn:Hv; [|done..].
    intros [= <-].
    vote_split now v a Hv; simplify_eq; try done;
      try (by apply (tallyIsValid_ext a));
      by apply (tallyIsValid_ext (withData (recordVote v (data a)) a));
        try apply tallyIsValid_record.
  - intros [= <-]. destruct Ha as [H1 H2]. unfold processBlock.
    case_decide as Hpos; [by case_match|].
    destruct (blocks (data a) !! bProposerID b) as [old|] eqn:Hold;
      [by case_decide|].
    destruct (leaderProcessBlock b (leader (data a))) as [[err|] ld]; [done|].
    split; [done|]. simpl. intros n b' Hn.
    apply lookup_insert_Some in Hn as [[_ <-]|[_ Hn]]; [done|by eapply H2].
  - destruct (done a) as [r a1| |] eqn:Hd; [|done..]. intros [= <-].
    apply done_cases in Hd
        as [->|[(p & _ & _ & _ & ->)|(p & d & _ & _ & _ & Hd & ->)]];
      [done..|].
    apply setPeriod_frame in Hd as (_ & _ & _ & _ & _ & Hb & _ & Hvotes).
    destruct Ha as [H1 H2]. split; simpl.
    + intros q l t n v Hl Hn. apply Hvotes in Hl as [Hl| ->].
      * by eapply H1.
      * destruct t; simpl in Hn; by rewrite lookup_empty in Hn.
    + intros n b Hn. rewrite Hb in Hn. by eapply H2.
Qed.

Lemma tallyIsValid_reset (ns : gset NodeID) (pos : Position) (a : agreement) :
  tallyIsValid (resetRound ns pos a).
Proof.
  split; simpl.
  - intros p l t n v Hl Hn. apply lookup_singleton_Some in Hl as [_ <-].
    destruct t; simpl in Hn; by rewrite lookup_empty in Hn.
  - intros n b Hn. by rewrite lookup_empty in Hn.
Qed.

(** A call of [processVote] leaves a state: it has no loop. *)
Lemma processVote_state (now : Z) (vote : Vote) (a : agreement) :
  ∃ a', stateOf (processVote now vote a) = Some a'.
Proof.
  destruct (processVote_cases now vote a)
    as [(e & _ & ->)
       |[(_ & _ & [->| ->])
        |[(e & _ & _ & _ & ->)|(_ & _ & _ & ->)]]];
    try (by eexists).
  destruct (tallyVote_cases vote a)
    as [(h & _ & _ & _ & _ & ->)
       |[->
        |[(h & p & _ & _ & _ & _ & _ & ->)|(_ & _ & _ & _ & _ & ->)]]];
    try (by eexists);
    unfold send; case_match; by eexists.
Qed.

(** C9, amended. In a round, from a restart through the calls that follow
    it, a vote of the tally handed to [processVote] again brings no error
    and leaves the tally and the blocks as they are, one vote under its
    period, type and proposer.  The call returns nil when the round has its
    output or the fast-forward mailbox is empty; it changes nothing at all
    when the round has its output or the vote is an Init vote.  A recorded
    block handed to [processBlock] again is answered with nil and the state
    stays as it is. *)
Theorem resubmission_is_idempotent (now0 : Z) (ns : gset NodeID)
    (pos : Position) (a0 a1 : agreement) (cs : list call) (a : agreement) :
  restart now0 ns pos a0 = Returned tt a1 →
  run cs a1 = Some a →
  (∀ now vote,
     recorded vote a →
     errorOf (processVote now vote a) = None
     ∧ (∃ a', stateOf (processVote now vote a) = Some a'
              ∧ votes (data a') = votes (data a)
              ∧ blocks (data a') = blocks (data a)
              ∧ recorded vote a')
     ∧ (hasOutput a = true ∨ fastForward a = None →
        ∃ a', processVote now vote a = Returned None a')
     ∧ (hasOutput a = true ∨ vType vote = VoteInit →
        processVote now vote a = Returned None a))
  ∧ (∀ now block,
       blocks (data a) !! bProposerID block = Some block →
       processBlock now block a = (None, a)).
Proof.
  intros Hrestart Hrun.
  assert (tallyIsValid a) as [Hvotes Hblocks].
  { revert Hrun. apply (run_inv tallyIsValid); [apply tallyIsValid_exec|].
    revert Hrestart.
    apply (restart_inv tallyIsValid);
      [apply tallyIsValid_exec|done|done|apply tallyIsValid_reset]. }
  split.
  - intros now vote Hrec.
    pose proof Hrec as (l & Hl & Hv).
    destruct (Hvotes _ _ _ _ _ Hl Hv) as [Hpos Hsane].
    assert (checkForkVote vote a = None) as Hfork.
    { unfold checkForkVote. rewrite Hl, Hv. by rewrite decide_False by tauto. }
    pose proof (recordVote_recorded vote a Hrec) as Hsame.
    assert (withData (recordVote vote (data a)) a = a) as Ha1.
    { rewrite Hsame. by destruct a. }
    rewrite processVote_accepted by done.
    split; [|split; [|split]].
    + destruct (tallyVote_cases vote a)
        as [(h & _ & _ & _ & _ & Heq)
           |[Heq
            |[(h & p & _ & _ & _ & _ & _ & Heq)|(_ & _ & _ & _ & _ & Heq)]]];
        rewrite Heq; clear Heq; try done;
        unfold send; by destruct (fastForward _).
    + destruct (tallyVote_cases vote a)
        as [(h & _ & _ & _ & _ & Heq)
           |[Heq
            |[(h & p & _ & _ & _ & _ & _ & Heq)|(_ & _ & _ & _ & _ & Heq)]]];
        rewrite Heq; clear Heq; rewrite ?Ha1, ?Hsame; unfold send;
        destruct (fastForward a) eqn:Hff; simpl; rewrite ?Hff; simpl;
        eexists; (split; [done|]); simpl; repeat split; try done;
        by exists l.
    + intros Hor.
      destruct (tallyVote_cases vote a)
        as [(h & _ & _ & _ & _ & Heq)
           |[Heq
            |[(h & p & Hout & _ & _ & _ & _ & Heq)
             |(Hout & _ & _ & _ & _ & Heq)]]];
        rewrite Heq; clear Heq; try (by eexists);
        unfold send; simpl;
        (destruct Hor as [Ho|Hn]; [congruence|]); rewrite Hn; by eexists.
    + intros Hor. unfold tallyVote. rewrite Ha1.
      destruct Hor as [Hout|Htype].
      * rewrite Hout. simpl. done.
      * unfold checkFastForward, condition3. rewrite Htype.
        rewrite bool_decide_eq_false_2 by done. rewrite andb_false_r.
        rewrite !decide_False by (try intros [? _]; done).
        by destruct (hasOutput a).
  - intros now block Hb. unfold processBlock.
    rewrite decide_False by (intros Hne; apply Hne; by eapply Hblocks).
    rewrite Hb. by rewrite decide_False by tauto.
Qed.

(** ** The period *)

(** X1. The period does not go down along the calls of a round. *)
Theorem period_is_monotone (cs : list call) (a a' : agreement) :
  run cs a = Some a' → (period (data a) ≤ period (data a'))%N.
Proof.
  apply (run_inv (λ b, (period (data a) ≤ period (data b))%N)); [|lia].
  intros c b b' Hb. destruct c as [now v|now blk|]; simpl.
  - destruct (processVote now v b) as [r b1| |] eqn:Hv; [|done..].
    intros [= <-].
    assert (stateOf (processVote now v b) = Some b1) as Hs by by rewrite Hv.
    apply processVote_frame in Hs as (_ & _ & _ & _ & _ & _ & -> & _). done.
  - intros [= <-]. pose proof (processBlock_frame now blk b) as Hf.
    cbv zeta in Hf.
    destruct Hf as (_ & _ & _ & _ & _ & _ & _ & _ & _ & -> & _). done.
  - destruct (done b) as [r b1| |] eqn:Hd; [|done..]. intros [= <-].
    apply done_cases in Hd
        as [->|[(p & _ & _ & _ & ->)|(p & d & _ & _ & Hlt & Hd & ->)]];
      [done..|].
    apply setPeriod_frame in Hd as (Hp & _). simpl. rewrite Hp. lia.
Qed.

(** X2. After the reset of [restart] no period has a winning hash, whatever
    the vote type. *)
Theorem round_reset_has_no_winner (ns : gset NodeID) (pos : Position)
    (a : agreement) (p : N) (t : VoteType) :
  countVoteNoLock (data (resetRound ns pos a)) p t = (0%N, false).
Proof.
  unfold countVoteNoLock. simpl.
  destruct (decide (p = 1%N)) as [->|Hne].
  - rewrite lookup_singleton_eq. by destruct t.
  - by rewrite lookup_singleton_ne.
Qed.

(** The loop of [setPeriod] has no last turn when its bound is the
    greatest uint64: the test holds of every uint64, and the counter is
    one. *)
Lemma setPeriodLoop_never (fuel : nat) (i : N) (m : gmap N voteListMap) :
  (i < 2 ^ 64)%N → setPeriodLoop fuel MaxUint64 i m = None.
Proof.
  revert i m. induction fuel as [|fuel IH]; intros i m Hi; simpl; [done|].
  rewrite decide_True by (unfold MaxUint64; lia).
  apply IH. unfold add64. apply N.mod_lt. done.
Qed.

Lemma periodsFromTo_cons (first last : N) :
  (first ≤ last)%N →
  periodsFromTo first last = first :: periodsFromTo (first + 1) last.
Proof.
  intros Hle. unfold periodsFromTo.
  replace (N.to_nat (N.succ last - first))
    with (S (N.to_nat (N.succ last - (first + 1)))) by lia.
  cbn [seq map]. f_equal; [lia|].
  rewrite <- seq_shift, map_map. apply map_ext. intros k. lia.
Qed.

Lemma periodsFromTo_nil (first last : N) :
  (last < first)%N → periodsFromTo first last = [].
Proof.
  intros Hlt. unfold periodsFromTo.
  by replace (N.to_nat (N.succ last - first)) with 0 by lia.
Qed.

(** With a bound below the greatest uint64 the loop of [setPeriod] is left
    after a turn for each period from the counter to the bound, and one
    test more; it leaves the buckets [fillBuckets] makes. *)
Lemma setPeriodLoop_exits (p i : N) (m : gmap N voteListMap) (fuel : nat) :
  (p < MaxUint64)%N →
  N.to_nat (N.succ p - i) < fuel →
  setPeriodLoop fuel p i m = Some (fillBuckets (periodsFromTo i p) m).
Proof.
  intros Hp. remember (N.to_nat (N.succ p - i)) as n eqn:Hn.
  revert i m fuel Hn. induction n as [|n IH]; intros i m fuel Hn Hfuel.
  - destruct fuel as [|fuel]; [lia|]. simpl.
    rewrite decide_False by lia. by rewrite periodsFromTo_nil by lia.
  - destruct fuel as [|fuel]; [lia|]. simpl.
    rewrite decide_True by lia.
    assert (add64 i 1 = (i + 1)%N) as ->.
    { unfold add64. apply N.mod_small. unfold MaxUint64 in Hp. lia. }
    rewrite periodsFromTo_cons by lia. simpl.
    apply IH; lia.
Qed.

(** X3. The loop of [setPeriod], turn by turn.  With the greatest uint64
    in the mailbox, in a round without output and at a period below it,
    [done] does not return: the loop of [setPeriod] is not left within any
    number of turns, its test [i <= period] holding of every uint64.  With
    any lower target above the period the loop is left, and leaves the
    buckets of [setPeriod] with the target as the period. *)
Theorem done_diverges_at_MaxUint64 (a : agreement) :
  hasOutput a = false →
  fastForward a = Some MaxUint64 →
  (period (data a) < MaxUint64)%N →
  done a = Diverges
  ∧ (∀ fuel,
       setPeriodLoop fuel MaxUint64 (add64 (period (data a)) 1)
         (votes (data a))
       = None)
  ∧ (∀ p, (period (data a) < p < MaxUint64)%N →
          ∃ d n, setPeriod p (data a) = Some d ∧ period d = p
                 ∧ ∀ fuel, n ≤ fuel →
                           setPeriodLoop fuel p (add64 (period (data a)) 1)
                             (votes (data a))
                           = Some (votes d)).
Proof.
  intros Hout Hff Hlt. split; [|split].
  - unfold done. rewrite Hout, Hff.
    rewrite decide_False by lia. unfold setPeriod. by rewrite decide_True.
  - intros fuel. apply setPeriodLoop_never. unfold add64. by apply N.mod_lt.
  - intros p Hp. unfold setPeriod. rewrite decide_False by lia.
    eexists _, (S (N.to_nat (N.succ p - add64 (period (data a)) 1))).
    split; [done|]. split; [done|]. intros fuel Hfuel. simpl.
    apply setPeriodLoop_exits; lia.
Qed.

(** ** Errors *)

(** The tally hands back no error. *)
Lemma tallyVote_no_error (vote : Vote) (a : agreement) :
  errorOf (tallyVote vote a) = None.
Proof.
  destruct (tallyVote_cases vote a)
    as [(h & _ & _ & _ & _ & ->)
       |[->
        |[(h & p & _ & _ & _ & _ & _ & ->)|(_ & _ & _ & _ & _ & ->)]]];
    try done; unfold send; by case_match.
Qed.

(** X4. A call of [processVote] that hands back an error has changed
    nothing.  The error is that of the sanity check or, for a vote of the
    current position that passed it, that of the fork check; it is never the
    fork error of blocks. *)
Theorem processVote_error_changes_nothing (now : Z) (vote : Vote)
    (a : agreement) (e : Error) :
  errorOf (processVote now vote a) = Some e →
  processVote now vote a = Returned (Some e) a
  ∧ (sanityCheck vote a = Some e
     ∨ (sanityCheck vote a = None ∧ vPosition vote = aID a
        ∧ checkForkVote vote a = Some e))
  ∧ ∀ n old new, e ≠ ErrFork n old new.
Proof.
  intros He.
  assert (processVote now vote a = Returned (Some e) a
          ∧ (sanityCheck vote a = Some e
             ∨ (sanityCheck vote a = None ∧ vPosition vote = aID a
                ∧ checkForkVote vote a = Some e))) as [Hret Hwhy].
  { destruct (processVote_cases now vote a)
      as [(e' & Hs & Heq)
         |[(Hs & Hp & [Heq|Heq])
          |[(e' & Hs & Hp & Hf & Heq)|(Hs & Hp & Hf & Heq)]]];
      rewrite Heq in He |- *; simpl in He; simplify_eq; auto.
    by rewrite tallyVote_no_error in He. }
  split; [done|]. split; [done|]. intros n old new ->.
  destruct Hwhy as [Hs|(_ & _ & Hf)].
  - unfold sanityCheck in Hs. repeat case_match; simplify_eq.
  - unfold checkForkVote in Hf. repeat case_match; simplify_eq.
Qed.

(** ** Blocks *)

(** X5. A block for the current position whose proposer has no recorded
    block, and which the leader selector takes, is recorded under its
    proposer and is found in the candidate pool under its hash; the blocks of
    the other proposers, the other candidates and the pending blocks stay as
    they are. *)
Theorem processBlock_records_block (now : Z) (block : Block) (a : agreement) :
  bPosition block = aID a →
  blocks (data a) !! bProposerID block = None →
  (leaderProcessBlock block (leader (data a))).1 = None →
  (processBlock now block a).1 = None
  ∧ blocks (data (processBlock now block a).2) !! bProposerID block = Some block
  ∧ findCandidateBlock (bHash block) (processBlock now block a).2 = Some block
  ∧ (∀ n, n ≠ bProposerID block →
          blocks (data (processBlock now block a).2) !! n = blocks (data a) !! n)
  ∧ (∀ h, h ≠ bHash block →
          findCandidateBlock h (processBlock now block a).2
          = findCandidateBlock h a)
  ∧ pendingBlocks (processBlock now block a).2 = pendingBlocks a.
Proof.
  intros Hpos Hnone Hld. unfold processBlock, findCandidateBlock.
  rewrite decide_False by (intros ?; done). rewrite Hnone.
  destruct (leaderProcessBlock block (leader (data a))) as [[err|] ld];
    [done|]. simpl.
  rewrite !lookup_insert_eq.
  repeat split; try done.
  - intros n Hn. by rewrite lookup_insert_ne.
  - intros h Hh. by rewrite lookup_insert_ne.
Qed.

(** X6. A call of [processBlock] that hands back an error has recorded
    nothing: the blocks, the candidate pool and the pending blocks are as
    they were.  The block was for the current position; the error is the
    fork error, the proposer having a recorded block with another hash and
    the state being as it was, or the error of the leader selector. *)
Theorem processBlock_error_records_nothing (now : Z) (block : Block)
    (a : agreement) (e : Error) :
  (processBlock now block a).1 = Some e →
  bPosition block = aID a
  ∧ blocks (data (processBlock now block a).2) = blocks (data a)
  ∧ candidateBlock (processBlock now block a).2 = candidateBlock a
  ∧ pendingBlocks (processBlock now block a).2 = pendingBlocks a
  ∧ ((∃ old, blocks (data a) !! bProposerID block = Some old
             ∧ bHash old ≠ bHash block
             ∧ e = ErrFork (bProposerID block) (bHash old) (bHash block)
             ∧ (processBlock now block a).2 = a)
     ∨ (∃ err, blocks (data a) !! bProposerID block = None
               ∧ (leaderProcessBlock block (leader (data a))).1 = Some err
               ∧ e = ErrExternal err)).
Proof.
  unfold processBlock. case_decide as Hpos.
  { by case_match. }
  assert (bPosition block = aID a) as Heq by (by destruct (decide (bPosition block = aID a))).
  destruct (blocks (data a) !! bProposerID block) as [old|] eqn:Hold.
  - case_decide as Hne; [|done]. simpl. intros [= <-].
    repeat split; try done. left. by exists old.
  - destruct (leaderProcessBlock block (leader (data a))) as [[err|] ld];
      [|done]. simpl. intros [= <-].
    repeat split; try done. right. by exists err.
Qed.

(** ** The report of the tally *)

(** The first candidate with [req] votes is a candidate with [req] votes. *)
Lemma firstQuorum_winner (req : nat) (cs : list (Hash * nat)) (h : Hash) :
  firstQuorum req cs = (h, true) → ∃ n, (h, n) ∈ cs ∧ req ≤ n.
Proof.
  unfold firstQuorum. destruct (List.find _ cs) as [[h' n]|] eqn:Hfind; [|done].
  intros [= <-]. apply find_some in Hfind as [Hin Hc].
  apply bool_decide_eq_true in Hc. apply list_elem_of_In in Hin.
  by exists n.
Qed.

(** No candidate is reported when none has [req] votes, and then only. *)
Lemma firstQuorum_none (req : nat) (cs : list (Hash * nat)) (h : Hash) :
  firstQuorum req cs = (h, false) → h = 0%N ∧ ∀ c, c ∈ cs → c.2 < req.
Proof.
  unfold firstQuorum. destruct (List.find _ cs) as [c|] eqn:Hfind; [done|].
  intros [= <-]. split; [done|]. intros c Hc.
  apply list_elem_of_In in Hc. apply (find_none _ _ Hfind) in Hc.
  apply bool_decide_eq_false in Hc. lia.
Qed.

(** The order of the model is one of the orders. *)
Lemma countVoteMay_model (d : agreementData) (p : N) (t : VoteType) :
  countVoteMay d p t (countVoteNoLock d p t).
Proof.
  unfold countVoteMay, countVoteNoLock.
  destruct (votes d !! p) as [l|]; [|done].
  by exists (map_to_list (tally (voteMap l t))).
Qed.

(** A hash that is reported in some order has [requiredVote] votes. *)
Lemma countVoteMay_winner (d : agreementData) (p : N) (t : VoteType) (h : Hash) :
  countVoteMay d p t (h, true) →
  ∃ l, votes d !! p = Some l
       ∧ 0 < voteCount h (voteMap l t)
       ∧ requiredVote d ≤ voteCount h (voteMap l t).
Proof.
  unfold countVoteMay. destruct (votes d !! p) as [l|]; [|done].
  intros (cs & Hperm & Heq). symmetry in Heq.
  apply firstQuorum_winner in Heq as (n & Hin & Hreq).
  rewrite Hperm in Hin.
  apply elem_of_map_to_list, tally_lookup in Hin as [-> Hpos].
  by exists l.
Qed.

(** A hash that has [requiredVote] votes, and one at least, is reported in
    some order: the one that visits it first. *)
Lemma countVoteMay_quorum (d : agreementData) (p : N) (t : VoteType)
    (l : voteListMap) (h : Hash) :
  votes d !! p = Some l →
  0 < voteCount h (voteMap l t) →
  requiredVote d ≤ voteCount h (voteMap l t) →
  countVoteMay d p t (h, true).
Proof.
  intros Hl Hpos Hreq. unfold countVoteMay. rewrite Hl.
  assert ((h, voteCount h (voteMap l t)) ∈ map_to_list (tally (voteMap l t)))
    as Hin by by apply elem_of_map_to_list, tally_lookup.
  apply elem_of_Permutation in Hin as [k Hk].
  exists ((h, voteCount h (voteMap l t)) :: k). split; [done|].
  unfold firstQuorum. simpl. by rewrite bool_decide_eq_true_2.
Qed.

(** X7. What [countVote] reports, in whatever order Go visits the
    candidates.  A hash reported in some order has [requiredVote] votes, and
    one at least, in the bucket of the period; a hash that has them is
    reported in the order that visits it first; when a hash has them, every
    order reports a hash, and when it is the only one, that hash; when no
    hash has them, or the period has no bucket, every order reports the
    zero hash and false.  The order of the model is one of the orders. *)
Theorem countVote_reports_quorum (d : agreementData) (p : N) (t : VoteType) :
  countVoteMay d p t (countVote d p t)
  ∧ (∀ h, countVoteMay d p t (h, true) →
          ∃ l, votes d !! p = Some l
               ∧ 0 < voteCount h (voteMap l t)
               ∧ requiredVote d ≤ voteCount h (voteMap l t))
  ∧ (∀ l h, votes d !! p = Some l →
            0 < voteCount h (voteMap l t) →
            requiredVote d ≤ voteCount h (voteMap l t) →
            countVoteMay d p t (h, true)
            ∧ (∀ r, countVoteMay d p t r → r.2 = true)
            ∧ ((∀ h', 0 < voteCount h' (voteMap l t) →
                      requiredVote d ≤ voteCount h' (voteMap l t) → h' = h) →
               ∀ r, countVoteMay d p t r → r = (h, true)))
  ∧ (∀ h, countVoteMay d p t (h, false) →
          h = 0%N
          ∧ ∀ l h', votes d !! p = Some l →
                    0 < voteCount h' (voteMap l t) →
                    voteCount h' (voteMap l t) < requiredVote d)
  ∧ (votes d !! p = None → ∀ r, countVoteMay d p t r → r = (0%N, false)).
Proof.
  split; [apply countVoteMay_model|].
  split; [apply countVoteMay_winner|].
  assert (∀ l h r, votes d !! p = Some l →
            0 < voteCount h (voteMap l t) →
            requiredVote d ≤ voteCount h (voteMap l t) →
            countVoteMay d p t r → r.2 = true) as Hsome.
  { intros l h [h' [|]] Hl Hpos Hreq Hr; [done|]. exfalso.
    unfold countVoteMay in Hr. rewrite Hl in Hr.
    destruct Hr as (cs & Hperm & Heq). symmetry in Heq.
    apply firstQuorum_none in Heq as [_ Hnone].
    specialize (Hnone (h, voteCount h (voteMap l t))). simpl in Hnone.
    assert (voteCount h (voteMap l t) < requiredVote d); [|lia].
    apply Hnone. rewrite Hperm.
    by apply elem_of_map_to_list, tally_lookup. }
  split; [|split].
  - intros l h Hl Hpos Hreq.
    split; [by apply countVoteMay_quorum with l|].
    split; [intros r; by apply (Hsome l h)|].
    intros Honly [h' b] Hr.
    pose proof (Hsome l h _ Hl Hpos Hreq Hr) as Hb. simpl in Hb. subst b.
    destruct (countVoteMay_winner _ _ _ _ Hr) as (l' & Hl' & Hpos' & Hreq').
    rewrite Hl in Hl'. injection Hl' as <-.
    by rewrite (Honly h' Hpos' Hreq').
  - intros h Hr. unfold countVoteMay in Hr.
    destruct (votes d !! p) as [l|] eqn:Hl.
    + destruct Hr as (cs & Hperm & Heq). symmetry in Heq.
      apply firstQuorum_none in Heq as [-> Hnone]. split; [done|].
      intros l' h' [= <-] Hpos.
      apply (Hnone (h', voteCount h' (voteMap l t))). rewrite Hperm.
      by apply elem_of_map_to_list, tally_lookup.
    + injection Hr as ->. split; [done|]. intros l' h' Hl'. done.
  - intros Hnone r Hr. unfold countVoteMay in Hr. by rewrite Hnone in Hr.
Qed.

(** X8. In a round whose notary set has not exactly two members, two
    hashes never both have [requiredVote] votes of one period and type: the
    voters are notaries, one vote each, and two quorums do not fit in the
    notary set.  The hash that has them is the one [countVoteNoLock]
    reports. *)
Theorem quorum_is_unique (now0 : Z) (ns : gset NodeID) (pos : Position)
    (a0 a1 : agreement) (cs : list call) (a : agreement) :
  restart now0 ns pos a0 = Returned tt a1 →
  run cs a1 = Some a →
  size ns ≠ 2 →
  ∀ p t l h,
    votes (data a) !! p = Some l →
    requiredVote (data a) ≤ voteCount h (voteMap l t) →
    countVoteNoLock (data a) p t = (h, true)
    ∧ size (voteMap l t) ≤ size ns
    ∧ ∀ h', requiredVote (data a) ≤ voteCount h' (voteMap l t) → h' = h.
Proof.
  intros Hrestart Hrun Hn2 p t l h Hl Hreq.
  destruct (round_invariants _ _ _ _ _ _ _ Hrestart Hrun)
    as (_ & Hvoters & Hns & _).
  destruct (votersAreNotaries_size a p l t) as [Hpos Hsize];
    [done|by rewrite Hns|done|].
  split; [by apply countVoteNoLock_unique with l|]. split.
  - destruct Hvoters as [_ Hdom]. specialize (Hdom p l t Hl).
    apply subseteq_size in Hdom. rewrite size_dom in Hdom. by rewrite <- Hns.
  - intros h' Hreq'. destruct (decide (h' = h)) as [|Hne]; [done|].
    pose proof (voteCount_disjoint h' h (voteMap l t) Hne). lia.
Qed.

(** ** What a call does to the tally *)

Lemma fillBuckets_keeps (ks : list N) (m : gmap N voteListMap) (q : N)
    (l : voteListMap) :
  m !! q = Some l → fillBuckets ks m !! q = Some l.
Proof.
  unfold fillBuckets. revert m.
  induction ks as [|k ks IH]; simpl; intros m Hq; [done|].
  apply IH. destruct (m !! k) eqn:Hk; [done|].
  rewrite lookup_insert_ne; [done|]. intros ->. congruence.
Qed.

Lemma fillBuckets_covers (ks : list N) (m : gmap N voteListMap) (q : N) :
  q ∈ ks → is_Some (fillBuckets ks m !! q).
Proof.
  unfold fillBuckets. revert m.
  induction ks as [|k ks IH]; simpl; intros m Hq.
  - by apply elem_of_nil in Hq.
  - apply elem_of_cons in Hq as [->|Hq]; [|by apply IH].
    destruct (m !! k) as [l|] eqn:Hk.
    + exists l. by apply (fillBuckets_keeps ks).
    + exists newVoteListMap. apply (fillBuckets_keeps ks).
      by rewrite lookup_insert_eq.
Qed.

(** The empty buckets [setPeriod] adds are those a reader of a missing
    bucket sees already. *)
Lemma fillBuckets_bucketOf (ks : list N) (m : gmap N voteListMap) (q : N) :
  bucketOf (fillBuckets ks m) q = bucketOf m q.
Proof.
  unfold fillBuckets. revert m.
  induction ks as [|k ks IH]; simpl; intros m; [done|].
  rewrite IH. destruct (m !! k) eqn:Hk; [done|].
  unfold bucketOf. destruct (decide (q = k)) as [->|Hne].
  - by rewrite lookup_insert_eq, Hk.
  - by rewrite lookup_insert_ne.
Qed.

Lemma periodsFromTo_elem (first last q : N) :
  q ∈ periodsFromTo first last ↔ (first ≤ q ≤ last)%N.
Proof.
  unfold periodsFromTo. rewrite list_elem_of_fmap. split.
  - intros (k & -> & Hk). apply elem_of_seq in Hk. lia.
  - intros Hq. exists (N.to_nat (q - first)). split; [lia|].
    apply elem_of_seq. lia.
Qed.

(** The votes a call leaves: those it found; or those with one vote more,
    which passed the three checks; or those with the buckets [setPeriod]
    adds. *)
Lemma exec_votes (c : call) (a a' : agreement) :
  exec c a = Some a' →
  (votes (data a') = votes (data a) ∧ period (data a') = period (data a))
  ∨ (∃ now vote,
       c = CallVote now vote ∧ sanityCheck vote a = None
       ∧ vPosition vote = aID a ∧ checkForkVote vote a = None
       ∧ votes (data a') = votes (recordVote vote (data a))
       ∧ period (data a') = period (data a))
  ∨ (∃ p,
       c = CallDone ∧ hasOutput a = false ∧ fastForward a = Some p
       ∧ (period (data a) < p)%N ∧ p ≠ MaxUint64
       ∧ period (data a') = p
       ∧ votes (data a')
         = fillBuckets (periodsFromTo (add64 (period (data a)) 1) p)
             (votes (data a))).
Proof.
  destruct c as [now v|now b|]; simpl.
  - destruct (processVote now v a) as [r a1| |] eqn:Hv; [|done..].
    intros [= <-].
    vote_split now v a Hv; simplify_eq; simpl; auto;
      right; left; exists now, v; done.
  - intros [= <-]. left.
    pose proof (processBlock_frame now b a) as Hf. cbv zeta in Hf. tauto.
  - destruct (done a) as [r a1| |] eqn:Hd; [|done..]. intros [= <-].
    apply done_cases in Hd
        as [->|[(p & _ & _ & _ & ->)|(p & d & Hout & Hff & Hlt & Hd & ->)]];
      [by left..|].
    right; right. exists p. unfold setPeriod in Hd.
    case_decide; [done|]. simplify_eq. done.
Qed.

Lemma recordVote_keeps (vote : Vote) (d : agreementData) (q : N) :
  is_Some (votes d !! q) → is_Some (votes (recordVote vote d) !! q).
Proof.
  intros Hq. unfold recordVote. simpl.
  destruct (decide (q = vPeriod vote)) as [->|Hne].
  - rewrite lookup_insert_eq. by eexists.
  - by rewrite lookup_insert_ne.
Qed.

(** The vote found under a key once a vote is recorded: that vote, under
    its own key, or the vote that was there. *)
Lemma recordVote_elem_key (vote : Vote) (d : agreementData) (p : N)
    (l : voteListMap) (t : VoteType) (n : NodeID) (v : Vote) :
  votes (recordVote vote d) !! p = Some l → voteMap l t !! n = Some v →
  (v = vote ∧ p = vPeriod vote ∧ t = vType vote ∧ n = vProposerID vote)
  ∨ ∃ l0, votes d !! p = Some l0 ∧ voteMap l0 t !! n = Some v.
Proof.
  intros Hl Hn. apply recordVote_lookup in Hl as [[-> Hl]|[_ Hl]]; [|eauto].
  rewrite Hl in Hn.
  assert (voteMap (bucketOf (votes d) (vPeriod vote)) t !! n = Some v →
          ∃ l0, votes d !! vPeriod vote = Some l0 ∧ voteMap l0 t !! n = Some v)
    as Hold.
  { unfold bucketOf. destruct (votes d !! vPeriod vote) as [l0|]; [eauto|].
    destruct t; simpl; by rewrite lookup_empty. }
  case_decide as Ht; [|auto].
  apply lookup_insert_Some in Hn as [[<- <-]|[_ Hn]]; auto.
Qed.

(** A vote the fork check lets pass takes no voter from a hash. *)
Lemma recordVote_voters (vote : Vote) (a : agreement) (p : N) (t : VoteType)
    (h : Hash) :
  checkForkVote vote a = None →
  votersFor h (voteMap (bucketOf (votes (data a)) p) t)
  ⊆ votersFor h (voteMap (bucketOf (votes (recordVote vote (data a))) p) t).
Proof.
  intros Hfork n. rewrite !votersFor_spec. intros (v & Hv & Hh).
  destruct (decide (p = vPeriod vote)) as [->|Hne].
  - rewrite recordVote_bucket. case_decide as Ht; [|eauto]. subst t.
    destruct (decide (n = vProposerID vote)) as [->|Hn].
    + exists vote. rewrite lookup_insert_eq. split; [done|].
      unfold checkForkVote in Hfork. unfold bucketOf in Hv.
      destruct (votes (data a) !! vPeriod vote) as [l|];
        [|destruct (vType vote); simpl in Hv; by rewrite lookup_empty in Hv].
      simpl in Hv. rewrite Hv in Hfork.
      case_decide as Hne; [done|].
      destruct (decide (vBlockHash vote = vBlockHash v)); [congruence|done].
    + exists v. by rewrite lookup_insert_ne.
  - exists v. split; [|done]. unfold bucketOf, recordVote in *. simpl.
    by rewrite lookup_insert_ne.
Qed.

(** No call takes a voter from a hash. *)
Lemma exec_voters (c : call) (a a' : agreement) (p : N) (t : VoteType)
    (h : Hash) :
  exec c a = Some a' →
  votersFor h (voteMap (bucketOf (votes (data a)) p) t)
  ⊆ votersFor h (voteMap (bucketOf (votes (data a')) p) t).
Proof.
  intros Hc. apply exec_votes in Hc
      as [[-> _]
         |[(now & vote & _ & _ & _ & Hfork & -> & _)
          |(q & _ & _ & _ & _ & _ & _ & ->)]].
  - done.
  - by apply recordVote_voters.
  - by rewrite fillBuckets_bucketOf.
Qed.

(** X9. Between two restarts no vote is taken back: along the calls of a
    round a proposer whose vote of a period and type is for the hash [h]
    stays a voter for [h], and the number of votes for [h] does not go
    down. *)
Theorem votes_are_never_retracted (cs : list call) (a a' : agreement)
    (p : N) (t : VoteType) (h : Hash) :
  run cs a = Some a' →
  votersFor h (voteMap (bucketOf (votes (data a)) p) t)
  ⊆ votersFor h (voteMap (bucketOf (votes (data a')) p) t)
  ∧ voteCount h (voteMap (bucketOf (votes (data a)) p) t)
    ≤ voteCount h (voteMap (bucketOf (votes (data a')) p) t).
Proof.
  intros Hrun.
  assert (votersFor h (voteMap (bucketOf (votes (data a)) p) t)
          ⊆ votersFor h (voteMap (bucketOf (votes (data a')) p) t)) as Hsub.
  { revert Hrun.
    apply (run_inv (λ b, votersFor h (voteMap (bucketOf (votes (data a)) p) t)
                         ⊆ votersFor h (voteMap (bucketOf (votes (data b)) p) t)));
      [|done].
    intros c b b' Hb Hc. etrans; [exact Hb|]. by apply (exec_voters c). }
  split; [done|]. rewrite !voteCount_voters. by apply subseteq_size.
Qed.

(** ** Where the votes and the blocks lie *)

Lemma votesFiled_exec (c : call) (a a' : agreement) :
  votesFiled a → exec c a = Some a' → votesFiled a'.
Proof.
  intros Ha Hc p l t n v Hl Hn. apply exec_votes in Hc
      as [[Hv _]
         |[(now & vote & _ & _ & _ & _ & Hv & _)
          |(q & _ & _ & _ & _ & _ & _ & Hv)]];
    rewrite Hv in Hl.
  - by eapply Ha.
  - destruct (recordVote_elem_key _ _ _ _ _ _ _ Hl Hn)
      as [(-> & -> & -> & ->)|(l0 & Hl0 & Hn0)]; [done|by eapply Ha].
  - apply fillBuckets_lookup in Hl as [Hl| ->]; [by eapply Ha|].
    destruct t; simpl in Hn; by rewrite lookup_empty in Hn.
Qed.

Lemma votesFiled_reset (ns : gset NodeID) (pos : Position) (a : agreement) :
  votesFiled (resetRound ns pos a).
Proof.
  intros p l t n v Hl Hn. simpl in Hl.
  apply lookup_singleton_Some in Hl as [_ <-].
  destruct t; simpl in Hn; by rewrite lookup_empty in Hn.
Qed.

(** X10. In a round, from a restart through the calls that follow it,
    every vote of the tally lies under its own period, type and proposer, is
    for the position of the round, comes from a notary and passes the sanity
    check; a period and type has one vote for a notary at most. *)
Theorem recorded_votes_are_valid (now0 : Z) (ns : gset NodeID) (pos : Position)
    (a0 a1 : agreement) (cs : list call) (a : agreement) :
  restart now0 ns pos a0 = Returned tt a1 →
  run cs a1 = Some a →
  ∀ p l t,
    votes (data a) !! p = Some l →
    size (voteMap l t) ≤ size ns
    ∧ ∀ n v, voteMap l t !! n = Some v →
             vPeriod v = p ∧ vType v = t ∧ vProposerID v = n
             ∧ vPosition v = pos ∧ n ∈ ns ∧ sanityCheck v a = None.
Proof.
  intros Hrestart Hrun.
  destruct (round_invariants _ _ _ _ _ _ _ Hrestart Hrun)
    as (_ & [_ Hdom] & Hns & Hpos).
  assert (tallyIsValid a) as [Hvalid _].
  { revert Hrun. apply (run_inv tallyIsValid); [apply tallyIsValid_exec|].
    revert Hrestart.
    apply (restart_inv tallyIsValid);
      [apply tallyIsValid_exec|done|done|apply tallyIsValid_reset]. }
  assert (votesFiled a) as Hfiled.
  { revert Hrun. apply (run_inv votesFiled); [apply votesFiled_exec|].
    revert Hrestart.
    apply (restart_inv votesFiled);
      [apply votesFiled_exec|done|done|apply votesFiled_reset]. }
  intros p l t Hl. split.
  - specialize (Hdom p l t Hl). apply subseteq_size in Hdom.
    rewrite size_dom in Hdom. by rewrite <- Hns.
  - intros n v Hn.
    destruct (Hfiled _ _ _ _ _ Hl Hn) as (? & ? & ?).
    destruct (Hvalid _ _ _ _ _ Hl Hn) as [? Hsane].
    repeat split; try done; try congruence.
    rewrite <- Hns. apply (Hdom p l t Hl), elem_of_dom. by eexists.
Qed.

Lemma blocksFiled_exec (c : call) (a a' : agreement) :
  blocksFiled a → exec c a = Some a' → blocksFiled a'.
Proof.
  intros Ha. destruct c as [now v|now b|]; simpl.
  - destruct (processVote now v a) as [r a1| |] eqn:Hv; [|done..].
    intros [= <-].
    assert (stateOf (processVote now v a) = Some a1) as Hs by by rewrite Hv.
    apply processVote_frame in Hs as (_ & _ & _ & _ & Hc & _ & _ & Hb & _).
    unfold blocksFiled. by rewrite Hc, Hb.
  - intros [= <-]. unfold processBlock.
    case_decide as Hpos; [by case_match|].
    destruct (blocks (data a) !! bProposerID b) as [old|] eqn:Hold;
      [by case_decide|].
    destruct (leaderProcessBlock b (leader (data a))) as [[err|] ld]; [done|].
    destruct Ha as [H1 H2]. split; simpl.
    + intros n b0 Hn.
      apply lookup_insert_Some in Hn as [[<- <-]|[Hne Hn]].
      * split; [done|]. exists b. by rewrite lookup_insert_eq.
      * destruct (H1 n b0 Hn) as [Hp [b' Hb']]. split; [done|].
        destruct (decide (bHash b0 = bHash b)) as [->|Hh].
        -- exists b. by rewrite lookup_insert_eq.
        -- exists b'. by rewrite lookup_insert_ne.
    + intros h b0 Hh.
      apply lookup_insert_Some in Hh as [[<- <-]|[Hne Hh]].
      * split; [done|]. by rewrite lookup_insert_eq.
      * destruct (H2 h b0 Hh) as [Hb0 Hrec]. split; [done|].
        rewrite lookup_insert_ne; [done|]. intros Heq.
        rewrite <- Heq in Hrec. congruence.
  - destruct (done a) as [r a1| |] eqn:Hd; [|done..]. intros [= <-].
    apply done_cases in Hd
        as [->|[(p & _ & _ & _ & ->)|(p & d & _ & _ & _ & Hd & ->)]];
      [done..|].
    apply setPeriod_frame in Hd as (_ & _ & _ & _ & _ & Hb & _).
    unfold blocksFiled. simpl. by rewrite Hb.
Qed.

Lemma blocksFiled_reset (ns : gset NodeID) (pos : Position) (a : agreement) :
  blocksFiled (resetRound ns pos a).
Proof.
  split; simpl; intros ? ? H; by rewrite lookup_empty in H.
Qed.

(** X11. In a round the candidate pool is made of recorded blocks and has
    an entry for the hash of each of them.  A recorded block lies under its
    proposer and is for the position of the round, and the pool has under
    its hash a recorded block of that hash: the block itself when no other
    proposer has a recorded block of that hash, and else the one of them
    that [addCandidateBlock] stored last, each call writing over the entry
    of the hash.  A block found in the pool has the hash it is found by, is
    for the position of the round and is the recorded block of its
    proposer. *)
Theorem candidates_are_the_recorded_blocks (now0 : Z) (ns : gset NodeID)
    (pos : Position) (a0 a1 : agreement) (cs : list call) (a : agreement) :
  restart now0 ns pos a0 = Returned tt a1 →
  run cs a1 = Some a →
  (∀ n b, blocks (data a) !! n = Some b →
          bProposerID b = n ∧ bPosition b = pos
          ∧ ∃ b', findCandidateBlock (bHash b) a = Some b'
                  ∧ bHash b' = bHash b
                  ∧ blocks (data a) !! bProposerID b' = Some b'
                  ∧ ((∀ n' b'', blocks (data a) !! n' = Some b'' →
                                bHash b'' = bHash b → n' = n) →
                     b' = b))
  ∧ (∀ h b, findCandidateBlock h a = Some b →
            bHash b = h ∧ bPosition b = pos
            ∧ blocks (data a) !! bProposerID b = Some b).
Proof.
  intros Hrestart Hrun.
  destruct (round_invariants _ _ _ _ _ _ _ Hrestart Hrun)
    as (_ & _ & _ & Hpos).
  assert (tallyIsValid a) as [_ Hvalid].
  { revert Hrun. apply (run_inv tallyIsValid); [apply tallyIsValid_exec|].
    revert Hrestart.
    apply (restart_inv tallyIsValid);
      [apply tallyIsValid_exec|done|done|apply tallyIsValid_reset]. }
  assert (blocksFiled a) as [H1 H2].
  { revert Hrun. apply (run_inv blocksFiled); [apply blocksFiled_exec|].
    revert Hrestart.
    apply (restart_inv blocksFiled);
      [apply blocksFiled_exec|done|done|apply blocksFiled_reset]. }
  unfold findCandidateBlock. split.
  - intros n b Hn. destruct (H1 n b Hn) as [Hp [b' Hb']].
    split; [done|]. split; [rewrite <- Hpos; by eapply Hvalid|].
    destruct (H2 _ _ Hb') as [Hhash Hrec].
    exists b'. split; [done|]. split; [done|]. split; [done|].
    intros Honly. specialize (Honly _ _ Hrec Hhash).
    rewrite Honly in Hrec. congruence.
  - intros h b Hh. destruct (H2 h b Hh) as [Hb Hrec].
    split; [done|]. split; [|done].
    rewrite <- Hpos. by eapply Hvalid.
Qed.

(** ** The buckets of the tally *)

(** X12. In a round the tally has a bucket for every period from 1 to the
    current one, the period being a uint64: [restart] makes the first and
    [setPeriod] those of the periods it passes. *)
Theorem every_period_has_a_bucket (now0 : Z) (ns : gset NodeID)
    (pos : Position) (a0 a1 : agreement) (cs : list call) (a : agreement) :
  restart now0 ns pos a0 = Returned tt a1 →
  run cs a1 = Some a →
  (period (data a) < 2 ^ 64)%N →
  ∀ q, (1 ≤ q ≤ period (data a))%N → is_Some (votes (data a) !! q).
Proof.
  intros Hrestart Hrun.
  set (P := λ b : agreement, (period (data b) < 2 ^ 64)%N → bucketsCover b).
  assert (∀ c b b', P b → exec c b = Some b' → P b') as Hstep.
  { intros c b b' Hb Hc Hlt q Hq. apply exec_votes in Hc
        as [[Hv Hp]
           |[(now & vote & _ & _ & _ & _ & Hv & Hp)
            |(p & _ & _ & _ & Hp & Hmax & Hp' & Hv)]];
      rewrite Hv.
    - rewrite Hp in Hlt, Hq. by apply Hb.
    - rewrite Hp in Hlt, Hq. apply recordVote_keeps. by apply Hb.
    - rewrite Hp' in Hlt, Hq.
      destruct (decide (q ≤ period (data b))%N) as [Hle|Hgt].
      + destruct (Hb ltac:(lia) q ltac:(lia)) as [l Hl].
        exists l. by apply fillBuckets_keeps.
      + apply fillBuckets_covers, periodsFromTo_elem.
        unfold add64. rewrite N.mod_small by lia. lia. }
  change (P a). revert Hrun. apply (run_inv P); [done|].
  revert Hrestart. apply (restart_inv P); [done|done|done|].
  intros _ q Hq. simpl in *. assert (q = 1%N) as -> by lia.
  by rewrite lookup_singleton_eq.
Qed.

(** ** The lock *)

(** The lock a call leaves: the one it found, or the hash [countVoteNoLock]
    reports for the PreCommit votes of the period of the vote. *)
Lemma exec_lock (c : call) (a a' : agreement) :
  exec c a = Some a' →
  (lockValue (data a') = lockValue (data a)
   ∧ lockRound (data a') = lockRound (data a))
  ∨ (∃ now vote,
       c = CallVote now vote ∧ vType vote = VotePreCom ∧ hasOutput a = false
       ∧ countVoteNoLock (data a') (vPeriod vote) VotePreCom
         = (lockValue (data a'), true)
       ∧ lockValue (data a') ≠ skipBlockHash
       ∧ lockRound (data a') = vPeriod vote).
Proof.
  destruct c as [now v|now b|]; simpl.
  - destruct (processVote now v a) as [r a1| |] eqn:Hv; [|done..].
    intros [= <-].
    vote_split now v a Hv; simplify_eq; simpl; auto.
    right. exists now, v. repeat split; try done.
  - intros [= <-]. left.
    pose proof (processBlock_frame now b a) as Hf. cbv zeta in Hf. tauto.
  - destruct (done a) as [r a1| |] eqn:Hd; [|done..]. intros [= <-]. left.
    apply done_cases in Hd
        as [->|[(p & _ & _ & _ & ->)|(p & d & _ & _ & _ & Hd & ->)]];
      [done..|].
    apply setPeriod_frame in Hd. simpl. tauto.
Qed.

Lemma lockJustified_exec (c : call) (a a' : agreement) :
  lockJustified a → exec c a = Some a' → lockJustified a'.
Proof.
  intros Ha Hc. unfold lockJustified.
  destruct (exec_lock c a a' Hc)
    as [[Hv Hr]|(now & vote & _ & _ & _ & Hcount & Hskip & Hr)].
  - rewrite Hv, Hr. destruct Ha as [Ha|[Hskip Hq]]; [by left|right].
    split; [done|].
    pose proof (exec_frame c a a' Hc) as (_ & _ & ->).
    pose proof (exec_voters c a a' (lockRound (data a)) VotePreCom
                  (lockValue (data a)) Hc) as Hsub.
    apply subseteq_size in Hsub. rewrite <- !voteCount_voters in Hsub. lia.
  - right. split; [done|].
    apply countVoteNoLock_winner in Hcount as (l & Hl & Hq & _).
    rewrite Hr. unfold bucketOf. by rewrite Hl.
Qed.

(** X13. In a round the lock is the one [restart] sets, the null hash of
    round 1, or it is justified: its hash is not the skip hash and has the
    PreCommit votes of a quorum of notaries in the bucket of the lock
    round. *)
Theorem lock_is_justified (now0 : Z) (ns : gset NodeID) (pos : Position)
    (a0 a1 : agreement) (cs : list call) (a : agreement) :
  restart now0 ns pos a0 = Returned tt a1 →
  run cs a1 = Some a →
  (lockValue (data a) = nullBlockHash ∧ lockRound (data a) = 1%N)
  ∨ (lockValue (data a) ≠ skipBlockHash
     ∧ size ns / 3 * 2 + 1
       ≤ size (votersFor (lockValue (data a))
                 (voteMap (bucketOf (votes (data a)) (lockRound (data a)))
                          VotePreCom))
     ∧ votersFor (lockValue (data a))
         (voteMap (bucketOf (votes (data a)) (lockRound (data a))) VotePreCom)
       ⊆ ns).
Proof.
  intros Hrestart Hrun.
  destruct (round_invariants _ _ _ _ _ _ _ Hrestart Hrun)
    as (_ & [Hreq Hdom] & Hns & _).
  assert (lockJustified a) as [Ha|[Hskip Hq]].
  { revert Hrun. apply (run_inv lockJustified); [apply lockJustified_exec|].
    revert Hrestart.
    apply (restart_inv lockJustified); [apply lockJustified_exec|done|done|].
    by left. }
  - by left.
  - right. split; [done|]. rewrite <- voteCount_voters.
    split; [by rewrite <- Hns, <- Hreq|].
    intros n Hn. apply votersFor_spec in Hn as (v & Hv & _).
    unfold bucketOf in Hv.
    destruct (votes (data a) !! lockRound (data a)) as [l|] eqn:Hl;
      [|simpl in Hv; by rewrite lookup_empty in Hv].
    rewrite <- Hns. apply (Hdom _ l VotePreCom Hl), elem_of_dom. by eexists.
Qed.

(** ** The finalized round *)

(** In a finalized round [processVote] returns, and what it may have
    changed is the tally and the pending votes. *)
Lemma processVote_finalized (now : Z) (vote : Vote) (a : agreement) :
  hasOutput a = true →
  ∃ e a', processVote now vote a = Returned e a'
          ∧ hasOutput a' = true
          ∧ period (data a') = period (data a)
          ∧ lockValue (data a') = lockValue (data a)
          ∧ lockRound (data a') = lockRound (data a)
          ∧ fastForward a' = fastForward a
          ∧ recv (data a') = recv (data a)
          ∧ state a' = state a.
Proof.
  intros Hout.
  destruct (processVote_cases now vote a)
    as [(e & _ & ->)
       |[(_ & _ & [->| ->])
        |[(e & _ & _ & _ & ->)|(_ & _ & _ & ->)]]];
    try (eexists _, _; split; [done|]; done).
  unfold tallyVote. simpl. rewrite Hout. simpl.
  eexists _, _. split; [done|]. done.
Qed.

(** X14. A finalized round is frozen: every call of [processVote],
    [processBlock] and [done] returns, and along any sequence of them the
    output flag stays set and the period, the lock, the mailbox, the calls
    made on the receiver and the state of the state machine stay as they
    are; [done] signals each time. *)
Theorem finalized_round_is_frozen (cs : list call) (a : agreement) :
  hasOutput a = true →
  ∃ a', run cs a = Some a'
        ∧ hasOutput a' = true
        ∧ period (data a') = period (data a)
        ∧ lockValue (data a') = lockValue (data a)
        ∧ lockRound (data a') = lockRound (data a)
        ∧ fastForward a' = fastForward a
        ∧ recv (data a') = recv (data a)
        ∧ state a' = state a
        ∧ done a' = Returned true a'.
Proof.
  revert a. induction cs as [|c cs IH]; intros a Hout.
  - exists a. simpl. repeat split; try done. unfold done. by rewrite Hout.
  - assert (∃ a1, exec c a = Some a1
                  ∧ hasOutput a1 = true
                  ∧ period (data a1) = period (data a)
                  ∧ lockValue (data a1) = lockValue (data a)
                  ∧ lockRound (data a1) = lockRound (data a)
                  ∧ fastForward a1 = fastForward a
                  ∧ recv (data a1) = recv (data a)
                  ∧ state a1 = state a)
      as (a1 & Hc & Hout1 & Hp & Hv & Hr & Hff & Hrecv & Hst).
    { destruct c as [now v|now b|]; simpl.
      - destruct (processVote_finalized now v a Hout) as (e & a1 & -> & H).
        by exists a1.
      - eexists. split; [done|].
        pose proof (processBlock_frame now b a) as Hf. cbv zeta in Hf.
        destruct Hf as (_ & _ & -> & -> & -> & _ & -> & _ & _ & -> & -> & ->).
        done.
      - unfold done. rewrite Hout. by exists a. }
    destruct (IH a1 Hout1) as (a' & Hrun & H1 & H2 & H3 & H4 & H5 & H6 & H7 & H8).
    exists a'. simpl. rewrite Hc.
    repeat split; try done; congruence.
Qed.

(** ** The fast-forward targets *)

(** What [processVote] has found when it puts a value on the channel. *)
Lemma processVote_posts (now : Z) (vote : Vote) (a : agreement) (p : N) :
  posted a (processVote now vote a) = Some p →
  hasOutput a = false
  ∧ ((vType vote = VotePreCom ∧ (vPeriod vote ≤ period (data a))%N
      ∧ p = add64 (period (data a)) 1)
     ∨ (vType vote = VotePreCom ∧ (period (data a) < vPeriod vote)%N
        ∧ p = vPeriod vote)
     ∨ (vType vote = VoteCom ∧ (period (data a) ≤ vPeriod vote)%N
        ∧ p = add64 (vPeriod vote) 1)).
Proof.
  intros H. unfold posted in H.
  vote_split now vote a H; simpl in *;
    try (rewrite Hff in H);
    try (destruct (fastForward a); simplify_eq; fail);
    simplify_eq; (split; [done|]);
    try (destruct Hcond as [(? & _ & _ & ->)|(? & ->)]); auto 10.
Qed.

(** X15. A value [processVote] puts on the fast-forward channel is a
    period above the current one, which [done] adopts; but for the
    wrap-around of uint64: at the period [MaxUint64], or for a Commit quorum
    of the period [MaxUint64], the value is 0, which [done] throws away.  A
    finalized round puts nothing on the channel. *)
Theorem posted_target_is_ahead (now : Z) (vote : Vote) (a : agreement) (p : N) :
  posted a (processVote now vote a) = Some p →
  (period (data a) < 2 ^ 64)%N → (vPeriod vote < 2 ^ 64)%N →
  hasOutput a = false
  ∧ (((period (data a) < p)%N ∧ (p < 2 ^ 64)%N)
     ∨ (p = 0%N
        ∧ (period (data a) = MaxUint64 ∨ vPeriod vote = MaxUint64))).
Proof.
  intros H Hper Hvote.
  destruct (processVote_posts now vote a p H)
    as (Hout & [(_ & Hle & ->)|[(_ & Hlt & ->)|(_ & Hle & ->)]]);
    (split; [done|]); unfold add64, MaxUint64.
  - destruct (decide (period (data a) = 2 ^ 64 - 1)%N) as [Heq|Hne].
    + right. rewrite Heq. split; [done|]. by left.
    + left. rewrite N.mod_small by lia. lia.
  - left. lia.
  - destruct (decide (vPeriod vote = 2 ^ 64 - 1)%N) as [Heq|Hne].
    + right. rewrite Heq. split; [done|]. by right.
    + left. rewrite N.mod_small by lia. lia.
Qed.

(** X16. A call of [processVote] has put the target [p] in the empty
    mailbox, [p] above the period and below [MaxUint64].  Then [done]
    signals and adopts it: the period is [p], the state is the pre-commit
    one, the mailbox is empty, the lock is as it was, every bucket of the
    tally is kept with its votes, and every period up to [p] has one. *)
Theorem posted_target_is_adopted (now : Z) (vote : Vote) (a : agreement)
    (e : option Error) (a' : agreement) (p : N) :
  processVote now vote a = Returned e a' →
  fastForward a = None → fastForward a' = Some p →
  (period (data a) < p)%N → (p < MaxUint64)%N →
  ∃ a'', done a' = Returned true a''
         ∧ period (data a'') = p
         ∧ state a'' = statePreCommit
         ∧ fastForward a'' = None
         ∧ hasOutput a'' = false
         ∧ lockValue (data a'') = lockValue (data a')
         ∧ lockRound (data a'') = lockRound (data a')
         ∧ (∀ q l, votes (data a') !! q = Some l →
                   votes (data a'') !! q = Some l)
         ∧ (∀ q, (period (data a) < q ≤ p)%N →
                 is_Some (votes (data a'') !! q)).
Proof.
  intros Hret Hff Hff' Hlt Hmax.
  assert (posted a (processVote now vote a) = Some p) as Hposted.
  { rewrite Hret. unfold posted. by rewrite Hff. }
  apply processVote_posts in Hposted as [Hout _].
  assert (stateOf (processVote now vote a) = Some a') as Hs by by rewrite Hret.
  pose proof (processVote_frame _ _ _ _ Hs)
    as (_ & _ & _ & _ & _ & _ & Hper & _).
  assert (hasOutput a' = false) as Hout'.
  { destruct (processVote_confirm _ _ _ _ Hs) as [[-> _]|(_ & Htrue & _)];
      [done|].
    exfalso. clear Hs.
    vote_split now vote a Hret; simplify_eq; simpl in *; congruence. }
  unfold done. rewrite Hout', Hff'.
  rewrite decide_False by lia.
  unfold setPeriod, MaxUint64 in *. rewrite decide_False by lia.
  eexists. split; [done|]. simpl.
  repeat split; try done.
  - intros q l Hq. by apply fillBuckets_keeps.
  - intros q Hq. apply fillBuckets_covers, periodsFromTo_elem.
    unfold add64. rewrite Hper. rewrite N.mod_small by lia. lia.
Qed.

(** [processVote] returns when the round is finalized or the mailbox is
    empty: its send goes through, if it comes to it. *)
Lemma processVote_returns (now : Z) (vote : Vote) (a : agreement) :
  hasOutput a = true ∨ fastForward a = None →
  ∃ e a', processVote now vote a = Returned e a'.
Proof.
  intros [Hout|Hff].
  - destruct (processVote_finalized now vote a Hout) as (e & a' & -> & _).
    by eexists _, _.
  - destruct (processVote_cases now vote a)
      as [(e & _ & ->)
         |[(_ & _ & [->| ->])
          |[(e & _ & _ & _ & ->)|(_ & _ & _ & ->)]]];
      try (by eexists _, _).
    destruct (tallyVote_cases vote a)
      as [(h & _ & _ & _ & _ & ->)
         |[->
          |[(h & p & _ & _ & _ & _ & _ & ->)|(_ & _ & _ & _ & _ & ->)]]];
      try (by eexists _, _);
      unfold send; simpl; rewrite Hff; by eexists _, _.
Qed.

(** A vote is in the tally once it is recorded. *)
Lemma recordVote_records (vote : Vote) (d : agreementData) :
  ∃ l, votes (recordVote vote d) !! vPeriod vote = Some l
       ∧ voteMap l (vType vote) !! vProposerID vote = Some vote.
Proof.
  eexists. split; [apply recordVote_has_bucket|].
  rewrite recordVote_bucket, decide_True by done.
  by rewrite lookup_insert_eq.
Qed.

(** X17. [processVote] is suspended on a full mailbox only.  A call in a
    round with output, or with the fast-forward mailbox empty, returns.  A
    call that is suspended is so in its send, in a round without output
    whose mailbox is full: its vote has passed the three checks and is in
    the tally, the mailbox holds what it held, and the value of the send is
    the period plus one, the period of the vote, or the period of the vote
    plus one, by the condition met.  No call runs for ever. *)
Theorem processVote_is_suspended_on_a_full_mailbox_only (now : Z) (vote : Vote)
    (a : agreement) :
  (hasOutput a = true ∨ fastForward a = None →
   ∃ e a', processVote now vote a = Returned e a')
  ∧ (∀ p a', processVote now vote a = BlockedOnSend p a' →
       hasOutput a = false ∧ hasOutput a' = false
       ∧ (∃ q, fastForward a = Some q ∧ fastForward a' = Some q)
       ∧ sanityCheck vote a = None ∧ vPosition vote = aID a
       ∧ checkForkVote vote a = None
       ∧ recorded vote a'
       ∧ ((vType vote = VotePreCom ∧ (vPeriod vote ≤ period (data a))%N
           ∧ p = add64 (period (data a)) 1)
          ∨ (vType vote = VotePreCom ∧ (period (data a) < vPeriod vote)%N
             ∧ p = vPeriod vote)
          ∨ (vType vote = VoteCom ∧ (period (data a) ≤ vPeriod vote)%N
             ∧ p = add64 (vPeriod vote) 1)))
  ∧ processVote now vote a ≠ Diverges.
Proof.
  split; [apply processVote_returns|]. split.
  - intros p a' H.
    assert (posted a (processVote now vote a) = Some p) as Hposted
      by by rewrite H.
    apply processVote_posts in Hposted as [Hout Htarget].
    vote_split now vote a H; try done; simplify_eq; simpl;
      (split; [done|]); (split; [done|]);
      (split; [by exists m|]);
      (split; [done|]); (split; [done|]); (split; [done|]);
      (split; [apply recordVote_records|done]).
  - destruct (processVote_state now vote a) as [a' Ha'].
    intros Heq. by rewrite Heq in Ha'.
Qed.

(** ** What the receiver is told *)

Lemma sanityCheck_signed (vote : Vote) (a : agreement) :
  sanityCheck vote a = None → verifyVoteSignature vote = (true, None).
Proof.
  unfold sanityCheck. case_decide; [|done].
  by destruct (verifyVoteSignature vote) as [[|] [err|]].
Qed.

(** The calls on the receiver a call leaves: those it found; or one
    PullBlocks more; or one ConfirmBlock more, with the hash
    [countVoteNoLock] reports for the Commit votes of the period of the vote
    and with these votes. *)
Lemma exec_recv (c : call) (a a' : agreement) :
  exec c a = Some a' →
  recv (data a') = recv (data a)
  ∨ (∃ hs, recv (data a') = recv (data a) ++ [PullBlocks hs])
  ∨ (∃ now vote h,
       c = CallVote now vote ∧ vType vote = VoteCom
       ∧ countVoteNoLock (data a') (vPeriod vote) VoteCom = (h, true)
       ∧ h ≠ skipBlockHash
       ∧ recv (data a')
         = recv (data a)
           ++ [ConfirmBlock h
                 (voteMap (bucketOf (votes (data a')) (vPeriod vote)) VoteCom)]).
Proof.
  destruct c as [now v|now b|]; simpl.
  - destruct (processVote now v a) as [r a1| |] eqn:Hv; [|done..].
    intros [= <-].
    vote_split now v a Hv; simplify_eq; simpl; eauto.
    right; right. exists now, v, h. done.
  - intros [= <-]. left.
    pose proof (processBlock_frame now b a) as Hf. cbv zeta in Hf. tauto.
  - destruct (done a) as [r a1| |] eqn:Hd; [|done..]. intros [= <-]. left.
    apply done_cases in Hd
        as [->|[(p & _ & _ & _ & ->)|(p & d & _ & _ & _ & Hd & ->)]];
      [done..|].
    apply setPeriod_frame in Hd. simpl. tauto.
Qed.

(** X18. In a round, from a restart through the calls that follow it, the
    calls on the receiver are those made before the round and the calls of
    the round after them; each [ConfirmBlock] of the round hands over a hash
    that is not the skip hash and the Commit votes of one period, for the
    position of the round, signed, from notaries, those of a quorum of the
    notaries being for the hash. *)
Theorem confirmed_block_has_a_quorum (now0 : Z) (ns : gset NodeID)
    (pos : Position) (a0 a1 : agreement) (cs : list call) (a : agreement) :
  restart now0 ns pos a0 = Returned tt a1 →
  run cs a1 = Some a →
  ∃ calls, recv (data a) = recv (data a0) ++ calls
           ∧ Forall (soundConfirm ns pos) calls.
Proof.
  intros Hrestart Hrun.
  set (P := λ b : agreement,
         votersAreNotaries b ∧ tallyIsValid b ∧ votesFiled b
         ∧ notarySet b = ns ∧ aID b = pos
         ∧ ∃ calls, recv (data b) = recv (data a0) ++ calls
                    ∧ Forall (soundConfirm ns pos) calls).
  assert (∀ c b b', P b → exec c b = Some b' → P b') as Hstep.
  { intros c b b' (H1 & H2 & H3 & H4 & H5 & calls & Hcalls & Hsound) Hc.
    pose proof (votersAreNotaries_exec c b b' H1 Hc) as H1'.
    pose proof (tallyIsValid_exec c b b' H2 Hc) as H2'.
    pose proof (votesFiled_exec c b b' H3 Hc) as H3'.
    pose proof (exec_frame c b b' Hc) as (Hns & Hid & _).
    unfold P. rewrite Hns, Hid.
    repeat (split; [done|]).
    destruct (exec_recv c b b' Hc)
      as [->|[[hs ->]|(now & vote & h & _ & Htype & Hcount & Hskip & ->)]].
    - by exists calls.
    - exists (calls ++ [PullBlocks hs]). rewrite Hcalls, app_assoc.
      split; [done|]. apply Forall_app. split; [done|].
      by apply Forall_singleton.
    - exists (calls ++ [ConfirmBlock h
                          (voteMap (bucketOf (votes (data b')) (vPeriod vote))
                                   VoteCom)]).
      rewrite Hcalls, app_assoc. split; [done|].
      apply Forall_app. split; [done|]. apply Forall_singleton.
      cbn [soundConfirm].
      apply countVoteNoLock_winner in Hcount as (l & Hl & Hq & _).
      unfold bucketOf. rewrite Hl.
      change (default newVoteListMap (Some l)) with l.
      destruct H1' as [Hreq Hdom]. rewrite Hns, H4 in Hreq, Hdom.
      split; [done|]. rewrite <- voteCount_voters.
      split; [by rewrite <- Hreq|]. split; [by eapply Hdom|].
      exists (vPeriod vote). intros n v Hn.
      destruct (H3' _ _ _ _ _ Hl Hn) as (? & ? & ?).
      destruct H2' as [H2' _].
      destruct (H2' _ _ _ _ _ Hl Hn) as [Hp Hsane].
      apply sanityCheck_signed in Hsane.
      repeat split; try done. congruence. }
  assert (P a) as (_ & _ & _ & _ & _ & Hcalls).
  { revert Hrun. apply (run_inv P); [done|].
    revert Hrestart. apply (restart_inv P); [done|done|done|].
    split; [apply votersAreNotaries_reset|].
    split; [apply tallyIsValid_reset|].
    split; [apply votesFiled_reset|].
    split; [done|]. split; [done|].
    exists []. simpl. by rewrite app_nil_r. }
  done.
Qed.

(** ** The restart *)

(** The replay of blocks leaves the round state but the blocks, the
    candidate pool and the leader selector as they are. *)
Lemma replayBlocks_frame (now : Z) (bs : list Block) (a : agreement) :
  notarySet (replayBlocks now bs a) = notarySet a
  ∧ aID (replayBlocks now bs a) = aID a
  ∧ state (replayBlocks now bs a) = state a
  ∧ votes (data (replayBlocks now bs a)) = votes (data a)
  ∧ period (data (replayBlocks now bs a)) = period (data a).
Proof.
  unfold replayBlocks. revert a.
  induction bs as [|b bs IH]; simpl; intros a; [done|].
  destruct (IH (processBlock now b a).2) as (-> & -> & -> & -> & ->).
  pose proof (processBlock_frame now b a) as Hf. cbv zeta in Hf. tauto.
Qed.

(** A block recorded after the replay was recorded before it or is one of
    the replayed blocks. *)
Lemma replayBlocks_blocks (now : Z) (bs : list Block) (a : agreement)
    (n : NodeID) (b : Block) :
  blocks (data (replayBlocks now bs a)) !! n = Some b →
  blocks (data a) !! n = Some b ∨ b ∈ bs.
Proof.
  unfold replayBlocks. revert a.
  induction bs as [|b0 bs IH]; simpl; intros a Hn; [by left|].
  apply IH in Hn as [Hn|Hn]; [|right; by right].
  unfold processBlock in Hn. repeat case_match; simpl in Hn; auto.
  apply lookup_insert_Some in Hn as [[_ <-]|[_ Hn]]; [right; left|by left].
Qed.

(** Its counterpart for votes, with what the replay of votes leaves alone. *)
Lemma replayVotes_votes (now : Z) (vs : list Vote) (a a' : agreement) :
  replayVotes now vs a = Returned tt a' →
  notarySet a' = notarySet a ∧ aID a' = aID a ∧ state a' = state a
  ∧ period (data a') = period (data a)
  ∧ blocks (data a') = blocks (data a)
  ∧ ∀ v, recorded v a' → recorded v a ∨ v ∈ vs.
Proof.
  revert a. induction vs as [|v0 vs IH]; simpl; intros a Hr.
  - simplify_eq. repeat split; try done. by left.
  - destruct (processVote now v0 a) as [r a1| |] eqn:Hv; [|done..].
    destruct (IH a1 Hr) as (-> & -> & -> & -> & -> & Hrec).
    assert (stateOf (processVote now v0 a) = Some a1) as Hs by by rewrite Hv.
    pose proof (processVote_frame _ _ _ _ Hs) as Hf.
    repeat split; try tauto.
    intros v Hv1. apply Hrec in Hv1 as [Hv1|Hv1]; [|right; by right].
    assert (exec (CallVote now v0) a = Some a1) as Hc
      by (simpl; by rewrite Hv).
    destruct Hv1 as (l & Hl & Hn).
    apply exec_votes in Hc
        as [[Hvotes _]
           |[(now' & vote & [= <- <-] & _ & _ & _ & Hvotes & _)
            |(q & [=] & _)]];
      rewrite Hvotes in Hl.
    + left. by exists l.
    + destruct (recordVote_elem _ _ _ _ _ _ _ Hl Hn) as [->|(l0 & Hl0 & Hn0)].
      * right. by left.
      * left. by exists l0.
Qed.

(** X19. A restart that returns leaves a round at period 1, in the initial
    state of the state machine, with the notary set and the position it was
    given; nothing of the tally and the blocks of the round before is left:
    every vote of the tally and every recorded block is for the new position
    and comes from the pending buffers. *)
Theorem restart_starts_from_the_buffers (now : Z) (ns : gset NodeID)
    (pos : Position) (a a' : agreement) :
  restart now ns pos a = Returned tt a' →
  notarySet a' = ns ∧ aID a' = pos ∧ state a' = stateInitial
  ∧ period (data a') = 1%N
  ∧ (∀ v, recorded v a' →
          vPosition v = pos ∧ ∃ e, e ∈ pendingVotes a ∧ pvVote e = v)
  ∧ (∀ n b, blocks (data a') !! n = Some b →
            bPosition b = pos ∧ ∃ e, e ∈ pendingBlocks a ∧ pbBlock e = b).
Proof.
  unfold restart. destruct (isStop pos) eqn:Hstop.
  { intros [= <-]. simpl. repeat (split; [done|]). split.
    - intros v (l & Hl & Hn). simpl in Hl.
      apply lookup_singleton_Some in Hl as [_ <-].
      destruct (vType v); simpl in Hn; by rewrite lookup_empty in Hn.
    - intros n b Hn. by rewrite lookup_empty in Hn. }
  cbv zeta.
  change (pendingBlocks (resetRound ns pos a)) with (pendingBlocks a).
  rewrite sweepBlocks_spec.
  change (pendingVotes (withPendingBlocks _ (resetRound ns pos a)))
    with (pendingVotes a).
  rewrite sweepVotes_spec. cbn [fst snd].
  set (a3 := withPendingVotes _ (withPendingBlocks _ (resetRound ns pos a))).
  intros Hr.
  apply replayVotes_votes in Hr as (Hns & Hid & Hst & Hp & Hb & Hrec).
  destruct (replayBlocks_frame now
              (map pbBlock
                 (filter (λ e, replayed pos (bPosition (pbBlock e)))
                    (pendingBlocks a))) a3)
    as (Hns' & Hid' & Hst' & Hv' & Hp').
  rewrite Hns, Hid, Hst, Hp, Hns', Hid', Hst', Hp'.
  repeat (split; [done|]). split.
  - intros v Hv. apply Hrec in Hv as [(l & Hl & Hn)|Hv].
    + exfalso. rewrite Hv' in Hl. simpl in Hl.
      apply lookup_singleton_Some in Hl as [_ <-].
      destruct (vType v); simpl in Hn; by rewrite lookup_empty in Hn.
    + apply list_elem_of_fmap in Hv as (e & -> & He).
      apply list_elem_of_filter in He as [[_ He] Hin]. eauto.
  - intros n b Hn. rewrite Hb in Hn.
    apply replayBlocks_blocks in Hn as [Hn|Hn].
    + subst a3. simpl in Hn. by rewrite lookup_empty in Hn.
    + apply list_elem_of_fmap in Hn as (e & -> & He).
      apply list_elem_of_filter in He as [[_ He] Hin]. eauto.
Qed.

(** ** The new instance *)

(** X20. The instance [newAgreement] makes is stopped, and stays so
    through the calls it gets before a restart: its notary set is empty, so
    that every vote is answered with ErrNotInNotarySet and changes nothing;
    no vote is recorded or buffered, the receiver is not called, and [done]
    does not signal. *)
Theorem new_instance_is_stopped (ld : leaderSelector) (cs : list call)
    (a : agreement) :
  run cs (newAgreement ld) = Some a →
  isStop (aID a) = true ∧ notarySet a = ∅
  ∧ requiredVote (data a) = 1
  ∧ votes (data a) = {[ 1%N := newVoteListMap ]}
  ∧ pendingVotes a = [] ∧ recv (data a) = []
  ∧ (∀ now vote,
       processVote now vote a = Returned (Some ErrNotInNotarySet) a)
  ∧ done a = Returned false a.
Proof.
  intros Hrun.
  set (P := λ b : agreement,
         aID b = stopPosition ∧ notarySet b = ∅
         ∧ requiredVote (data b) = 1
         ∧ votes (data b) = {[ 1%N := newVoteListMap ]}
         ∧ pendingVotes b = [] ∧ recv (data b) = []
         ∧ fastForward b = None ∧ hasOutput b = false).
  assert (∀ now vote b, P b →
            processVote now vote b = Returned (Some ErrNotInNotarySet) b)
    as Hvote.
  { intros now vote b (_ & Hns & _). unfold processVote, sanityCheck.
    rewrite Hns. rewrite decide_False by set_solver. done. }
  assert (P a) as HP.
  { revert Hrun. apply (run_inv P); [|done].
    intros c b b' Hb. destruct c as [now v|now blk|]; simpl.
    - rewrite Hvote by done. by intros [= <-].
    - intros [= <-]. pose proof (processBlock_frame now blk b) as Hf.
      unfold P in *. cbv zeta in Hf.
      destruct Hb as (? & ? & ? & ? & ? & ? & ? & ?).
      destruct Hf as (-> & -> & _ & -> & -> & -> & -> & -> & -> & _). done.
    - destruct Hb as (? & ? & ? & ? & ? & ? & Hff & Hout). unfold done.
      rewrite Hout, Hff. by intros [= <-]. }
  pose proof (Hvote) as Hvote'.
  destruct HP as (Hid & Hns & Hreq & Hv & Hpv & Hrecv & Hff & Hout).
  rewrite Hid. repeat split; try done.
  - intros now vote. apply Hvote'. unfold P. by rewrite Hid.
  - unfold done. by rewrite Hout, Hff.
Qed.

(** ** The pending buffers along a round *)

(** X21. Between two restarts the pending buffers only grow, by one entry
    a call at most: a call of [processVote] appends a vote that passed the
    sanity check and is for another position than that of the round, a call
    of [processBlock] a block for another position, and no entry is dropped
    or moved. *)
Theorem pending_buffers_only_grow (cs : list call) (a a' : agreement) :
  run cs a = Some a' →
  ∃ vs bs,
    pendingVotes a' = pendingVotes a ++ vs
    ∧ pendingBlocks a' = pendingBlocks a ++ bs
    ∧ length vs + length bs ≤ length cs
    ∧ Forall (λ e, vPosition (pvVote e) ≠ aID a
                   ∧ sanityCheck (pvVote e) a = None) vs
    ∧ Forall (λ e, bPosition (pbBlock e) ≠ aID a) bs.
Proof.
  revert a. induction cs as [|c cs IH]; simpl; intros a Hrun.
  - simplify_eq. exists [], []. rewrite !app_nil_r. by repeat split.
  - destruct (exec c a) as [a1|] eqn:Hc; [|done].
    destruct (IH a1 Hrun) as (vs & bs & Hvs & Hbs & Hlen & Hv & Hb).
    pose proof (exec_frame c a a1 Hc) as (Hns & Hid & _).
    assert (Forall (λ e, vPosition (pvVote e) ≠ aID a
                         ∧ sanityCheck (pvVote e) a = None) vs) as Hv'.
    { eapply Forall_impl; [exact Hv|]. intros e [? ?].
      rewrite <- Hid. by rewrite <- (sanityCheck_notarySet _ a a1). }
    assert (Forall (λ e, bPosition (pbBlock e) ≠ aID a) bs) as Hb'.
    { eapply Forall_impl; [exact Hb|]. intros e ?. by rewrite <- Hid. }
    destruct c as [now v|now b|]; simpl in Hc.
    + destruct (processVote now v a) as [r a2| |] eqn:Hpv; [|done..].
      simplify_eq.
      vote_split now v a Hpv; simplify_eq; simpl in *;
        try (exists vs, bs; repeat split; (done || lia)).
      exists (mkPendingVote v now :: vs), bs.
      rewrite Hvs, <- app_assoc. repeat split; try done; simpl; try lia.
      by apply Forall_cons.
    + simplify_eq.
      pose proof (processBlock_frame now b a) as Hf. cbv zeta in Hf.
      destruct Hf as (_ & _ & _ & _ & _ & Hpv & _).
      rewrite Hpv in Hvs. unfold processBlock in Hbs.
      case_decide as Hpos; [case_match|repeat case_match]; simpl in Hbs;
        try (exists vs, bs; repeat split; (done || lia)).
      exists vs, (mkPendingBlock b now :: bs).
      rewrite Hbs, <- app_assoc. repeat split; try done; simpl; try lia.
      by apply Forall_cons.
    + destruct (done a) as [r a2| |] eqn:Hd; [|done..]. simplify_eq.
      apply done_cases in Hd
          as [->|[(p & _ & _ & _ & ->)|(p & d & _ & _ & _ & Hd & ->)]];
        exists vs, bs; repeat split; (done || lia).
Qed.

(** ** Blocks that come early *)

Lemma processBlock_keeps (now : Z) (b : Block) (a : agreement) (n : NodeID) :
  is_Some (blocks (data a) !! n) →
  is_Some (blocks (data (processBlock now b a).2) !! n).
Proof.
  intros Hn. unfold processBlock. repeat case_match; simpl; try done.
  destruct (decide (n = bProposerID b)) as [->|Hne].
  - rewrite lookup_insert_eq. by eexists.
  - by rewrite lookup_insert_ne.
Qed.

(** With a leader selector that takes every block, the proposer of each
    replayed block has a recorded block after the replay. *)
Lemma replayBlocks_records (now : Z) (bs : list Block) (a : agreement)
    (b : Block) :
  (∀ b' ld, (leaderProcessBlock b' ld).1 = None) →
  Forall (λ b', bPosition b' = aID a) bs → b ∈ bs →
  is_Some (blocks (data (replayBlocks now bs a)) !! bProposerID b).
Proof.
  intros Hld. unfold replayBlocks.
  assert (∀ bs a n, is_Some (blocks (data a) !! n) →
            is_Some (blocks (data (foldl (λ a block,
                                            (processBlock now block a).2) a bs))
                       !! n)) as Hkeep.
  { clear. intros bs. induction bs as [|b0 bs IH]; simpl; intros a n Hn;
      [done|]. by apply IH, processBlock_keeps. }
  revert a. induction bs as [|b0 bs IH]; simpl; intros a Hpos Hin.
  - by apply elem_of_nil in Hin.
  - apply Forall_cons in Hpos as [Hp0 Hpos].
    pose proof (processBlock_frame now b0 a) as Hf. cbv zeta in Hf.
    destruct Hf as (_ & Hid & _).
    apply elem_of_cons in Hin as [->|Hin].
    + apply Hkeep. unfold processBlock.
      rewrite decide_False by (intros ?; done).
      destruct (blocks (data a) !! bProposerID b0) as [old|] eqn:Hold.
      * case_decide; simpl; rewrite Hold; by eexists.
      * specialize (Hld b0 (leader (data a))).
        destruct (leaderProcessBlock b0 (leader (data a))) as [[err|] ld];
          [done|]. simpl. rewrite lookup_insert_eq. by eexists.
    + apply IH; [|done]. by rewrite Hid.
Qed.

(** What a restart to a position that is not the stop position does with
    the pending buffers. *)
Lemma restart_sweep (now : Z) (ns : gset NodeID) (pos : Position)
    (a : agreement) :
  isStop pos = false →
  restart now ns pos a
  = replayVotes now
      (map pvVote
         (filter (λ e, replayed pos (vPosition (pvVote e))) (pendingVotes a)))
      (replayBlocks now
         (map pbBlock
            (filter (λ e, replayed pos (bPosition (pbBlock e)))
               (pendingBlocks a)))
         (withPendingVotes
            (filter (λ e, kept now pos (vPosition (pvVote e))
                               (pvReceivedTime e)) (pendingVotes a))
            (withPendingBlocks
               (filter (λ e, kept now pos (bPosition (pbBlock e))
                                  (pbReceivedTime e)) (pendingBlocks a))
               (resetRound ns pos a))))
  ∧ ∀ a', stateOf (restart now ns pos a) = Some a' →
          pendingVotes a'
          = filter (λ e, kept now pos (vPosition (pvVote e)) (pvReceivedTime e))
              (pendingVotes a)
          ∧ pendingBlocks a'
            = filter (λ e, kept now pos (bPosition (pbBlock e))
                               (pbReceivedTime e)) (pendingBlocks a).
Proof.
  intros Hstop.
  assert (restart now ns pos a
          = replayVotes now
              (map pvVote
                 (filter (λ e, replayed pos (vPosition (pvVote e)))
                    (pendingVotes a)))
              (replayBlocks now
                 (map pbBlock
                    (filter (λ e, replayed pos (bPosition (pbBlock e)))
                       (pendingBlocks a)))
                 (withPendingVotes
                    (filter (λ e, kept now pos (vPosition (pvVote e))
                                       (pvReceivedTime e)) (pendingVotes a))
                    (withPendingBlocks
                       (filter (λ e, kept now pos (bPosition (pbBlock e))
                                          (pbReceivedTime e)) (pendingBlocks a))
                       (resetRound ns pos a))))) as Heq.
  { unfold restart. rewrite Hstop. cbv zeta.
    change (pendingBlocks (resetRound ns pos a)) with (pendingBlocks a).
    rewrite sweepBlocks_spec.
    change (pendingVotes (withPendingBlocks _ (resetRound ns pos a)))
      with (pendingVotes a).
    by rewrite sweepVotes_spec. }
  split; [done|]. rewrite Heq. intros a'.
  apply (replay_pending now pos); try done.
  - apply Forall_forall. intros v Hv.
    apply list_elem_of_fmap in Hv as (e & -> & He).
    apply list_elem_of_filter in He as [[_ He] _]. done.
  - apply Forall_forall. intros b Hb.
    apply list_elem_of_fmap in Hb as (e & -> & He).
    apply list_elem_of_filter in He as [[_ He] _]. done.
Qed.

(** X22. A block that came early is not lost.  With a position that is
    not newer than itself and a leader selector that takes every block, a
    restart to the position of a pending block, when it returns, has
    recorded a pending block of that position for its proposer, has no
    entry of that position left in the buffer, and has in the candidate
    pool, under the hash of the recorded block, a recorded pending block of
    that hash: the block itself when no other proposer has a recorded block
    of that hash. *)
Theorem early_block_is_recorded_at_restart (now : Z) (ns : gset NodeID)
    (pos : Position) (a a' : agreement) (e : pendingBlock) :
  (∀ b ld, (leaderProcessBlock b ld).1 = None) →
  Newer pos pos = false → isStop pos = false →
  e ∈ pendingBlocks a → bPosition (pbBlock e) = pos →
  restart now ns pos a = Returned tt a' →
  (∃ b, blocks (data a') !! bProposerID (pbBlock e) = Some b
        ∧ bPosition b = pos
        ∧ (∃ e', e' ∈ pendingBlocks a ∧ pbBlock e' = b)
        ∧ ∃ b', findCandidateBlock (bHash b) a' = Some b'
                ∧ bHash b' = bHash b
                ∧ blocks (data a') !! bProposerID b' = Some b'
                ∧ (∃ e', e' ∈ pendingBlocks a ∧ pbBlock e' = b')
                ∧ ((∀ n' b'', blocks (data a') !! n' = Some b'' →
                              bHash b'' = bHash b →
                              n' = bProposerID (pbBlock e)) →
                   b' = b))
  ∧ ∀ e', e' ∈ pendingBlocks a' → bPosition (pbBlock e') ≠ pos.
Proof.
  intros Hld Hnewer Hstop Hin Hpos Hrestart.
  assert (blocksFiled a') as [Hfiled Hpool].
  { revert Hrestart.
    apply (restart_inv blocksFiled);
      [apply blocksFiled_exec|done|done|apply blocksFiled_reset]. }
  destruct (restart_sweep now ns pos a Hstop) as [Heq Hpending].
  destruct (Hpending a') as [_ Hpb]; [by rewrite Hrestart|].
  rewrite Heq in Hrestart.
  apply replayVotes_votes in Hrestart as (_ & _ & _ & _ & Hblocks & _).
  assert (∀ n b, blocks (data a') !! n = Some b →
            bPosition b = pos ∧ ∃ e', e' ∈ pendingBlocks a ∧ pbBlock e' = b)
    as Horigin.
  { intros n b Hb. rewrite Hblocks in Hb.
    apply replayBlocks_blocks in Hb as [Hb|Hb].
    - simpl in Hb. by rewrite lookup_empty in Hb.
    - apply list_elem_of_fmap in Hb as (e0 & -> & He0).
      apply list_elem_of_filter in He0 as [[_ He0] Hin0].
      split; [done|]. by exists e0. }
  split.
  - assert (is_Some (blocks (data a') !! bProposerID (pbBlock e)))
      as [b Hb].
    { rewrite Hblocks. apply replayBlocks_records; [done| |].
      - apply Forall_forall. intros b0 Hb0.
        apply list_elem_of_fmap in Hb0 as (e0 & -> & He0).
        apply list_elem_of_filter in He0 as [[_ He0] _]. done.
      - apply list_elem_of_fmap. exists e. split; [done|].
        apply list_elem_of_filter. split; [|done].
        split; [by rewrite Hpos|done]. }
    exists b. split; [done|].
    destruct (Horigin _ _ Hb) as [Hbpos Hbfrom].
    split; [done|]. split; [done|].
    destruct (Hfiled _ _ Hb) as [_ [b' Hb']].
    destruct (Hpool _ _ Hb') as [Hhash Hrec].
    destruct (Horigin _ _ Hrec) as [_ Hfrom'].
    exists b'. unfold findCandidateBlock.
    split; [done|]. split; [done|]. split; [done|]. split; [done|].
    intros Honly. specialize (Honly _ _ Hrec Hhash).
    rewrite Honly in Hrec. congruence.
  - intros e' He'. rewrite Hpb in He'.
    apply list_elem_of_filter in He' as [(_ & Hne & _) _]. done.
Qed.

End Agreement.

(** The type parameters of the section are read off the other arguments. *)
Arguments mkAgreementData {leaderSelector}.
Arguments recv {leaderSelector}.
Arguments leader {leaderSelector}.
Arguments lockValue {leaderSelector}.
Arguments lockRound {leaderSelector}.
Arguments period {leaderSelector}.
Arguments requiredVote {leaderSelector}.
Arguments votes {leaderSelector}.
Arguments blocks {leaderSelector}.
Arguments mkAgreement {leaderSelector}.
Arguments state {leaderSelector}.
Arguments data {leaderSelector}.
Arguments aID {leaderSelector}.
Arguments notarySet {leaderSelector}.
Arguments hasOutput {leaderSelector}.
Arguments pendingBlocks {leaderSelector}.
Arguments pendingVotes {leaderSelector}.
Arguments candidateBlock {leaderSelector}.
Arguments fastForward {leaderSelector}.
Arguments Returned {leaderSelector A}.
Arguments BlockedOnSend {leaderSelector A}.
Arguments Diverges {leaderSelector A}.
Arguments stateOf {leaderSelector A}.
Arguments errorOf {ExtError leaderSelector}.
Arguments posted {ExtError leaderSelector}.
Arguments ErrNotInNotarySet {ExtError}.
Arguments ErrIncorrectVoteSignature {ExtError}.
Arguments ErrFork {ExtError}.
Arguments ErrForkVote {ExtError}.
Arguments confirmCount {leaderSelector}.
Arguments countVoteNoLock {leaderSelector}.
Arguments recordVote {leaderSelector}.
Arguments recorded {leaderSelector}.
Arguments lockBound {leaderSelector}.
Arguments checkForkVote {ExtError leaderSelector}.
Arguments withPendingVotes {leaderSelector}.
Arguments withPendingBlocks {leaderSelector}.
Arguments done {leaderSelector}.
Arguments countVoteMay {leaderSelector}.

(** * The instance at work

    An instance of what core/agreement.go leaves open, to run the model on:
    the null hash is the zero hash and the skip hash has every bit set; on
    the one chain of the examples a position is newer than a lower one; a
    vote is signed when its signature is the id of its proposer; the leader
    selector has no state and takes every block. *)

(** The conjuncts of a goal, one goal each; an equation is left for the
    machine to compute. *)
Ltac split_all := repeat match goal with |- _ ∧ _ => split end.

Definition exNull : Hash := 0.

Definition exSkip : Hash := 2 ^ 256 - 1.

Definition exNewer (pos other : Position) : bool :=
  bool_decide (Height other < Height pos)%N.

Definition exVerify (vote : Vote) : bool * option unit :=
  (bool_decide (vSignature vote = [vProposerID vote]), None).

Definition exLeader (block : Block) (ld : unit) : option unit * unit :=
  (None, tt).

Definition exProcessVote
  : Z → Vote → agreement unit → Result unit (option (Error unit)) :=
  processVote exNull exSkip exNewer unit exVerify unit.

Definition exProcessBlock
  : Z → Block → agreement unit → option (Error unit) * agreement unit :=
  processBlock exNewer unit unit exLeader.

Definition exRestart
  : Z → gset NodeID → Position → agreement unit → Result unit unit :=
  restart exNull exSkip exNewer unit exVerify unit id exLeader.

Definition exStop : Z → agreement unit → Result unit unit :=
  stop exNull exSkip exNewer unit exVerify unit id exLeader.

Definition exRun : list call → agreement unit → option (agreement unit) :=
  run exNull exSkip exNewer unit exVerify unit exLeader.

Definition exSanityCheck : Vote → agreement unit → option (Error unit) :=
  sanityCheck unit exVerify unit.

Definition exCheckForkVote : Vote → agreement unit → option (Error unit) :=
  checkForkVote.

(** Four notaries, and the position they agree on. *)
Definition exNotaries : gset NodeID := {[ 1%N; 2%N; 3%N; 4%N ]}.

Definition exPosition : Position := mkPosition 0 1.

(** The vote of the notary [n] for the hash [h], signed. *)
Definition exVote (p : N) (t : VoteType) (n : NodeID) (h : Hash) : Vote :=
  mkVote n exPosition p t h [n].

Definition exCall (p : N) (t : VoteType) (n : NodeID) (h : Hash) : call :=
  CallVote 0 (exVote p t n h).

(** The state a run of the examples ends in; the fresh instance when a call
    of the run does not return. *)
Definition exAfter (cs : list call) (a : agreement unit) : agreement unit :=
  default a (exRun cs a).

(** The instance as [newAgreement] makes it, stopped. *)
Definition exNew : agreement unit := newAgreement exNull unit id tt.

(** The instance, restarted for the four notaries. *)
Definition exStart : agreement unit :=
  default exNew (stateOf (exRestart 0 exNotaries exPosition exNew)).

Lemma exStart_restart :
  exRestart 0 exNotaries exPosition exNew = Returned tt exStart.
Proof. vm_compute. reflexivity. Qed.

(** Quorum size: the restart for four notaries asks for three votes. *)
Lemma quorum_size_formula_witness : requiredVote (data exStart) = 3.
Proof.
  destruct (quorum_size_formula exNull exSkip exNewer unit exVerify unit id
              exLeader 0 exNotaries exPosition exNew exStart [] exStart)
    as (_ & _ & H4 & _).
  - vm_compute. reflexivity.
  - reflexivity.
  - apply H4. vm_compute. reflexivity.
Defined.

(** ** Finalization at work *)

(** Two Commit votes for the hash 7, and the third. *)
Definition exTwoCommits : list call :=
  [exCall 1 VoteCom 1 7; exCall 1 VoteCom 2 7].

Definition exThreeCommits : list call :=
  exTwoCommits ++ [exCall 1 VoteCom 3 7].

(** The third Commit vote for the hash 7 confirms it, once. *)
Lemma finalization_at_most_once_witness :
  ∃ a', exProcessVote 0 (exVote 1 VoteCom 3 7) (exAfter exTwoCommits exStart)
        = Returned None a'
        ∧ hasOutput a' = true ∧ confirmCount a' = 1.
Proof.
  destruct (finalization_at_most_once exNull exSkip exNewer unit exVerify unit
              id exLeader 0 exNotaries exPosition exNew exStart exTwoCommits
              (exAfter exTwoCommits exStart) exStart_restart)
    as (_ & _ & Hfires & _).
  - vm_compute. reflexivity.
  - destruct (Hfires 0%Z (exVote 1 VoteCom 3 7) 7%N)
      as (a' & Hret & Hout & _ & Hcount).
    + vm_compute. reflexivity.
    + reflexivity.
    + vm_compute. reflexivity.
    + vm_compute. reflexivity.
    + vm_compute. reflexivity.
    + by vm_compute.
    + vm_compute. lia.
    + left. vm_compute. lia.
    + exists a'. split_all; [exact Hret|exact Hout|exact Hcount].
Defined.

(** Two notaries, whose quorum size is one. *)
Definition exTwoNotaries : gset NodeID := {[ 1%N; 2%N ]}.

Definition exStartOfTwo : agreement unit :=
  default exNew (stateOf (exRestart 0 exTwoNotaries exPosition exNew)).

(** C1 as stated fails twice.  In a finalized round the second Commit vote
    of a notary, for another hash, is answered with the fork-vote error, not
    with nil.  With two notaries the Commit vote for the skip hash and the
    Commit vote for the hash 7 both make a quorum of one; the tally, in the
    order the model visits it (one of the orders Go may take), reports the
    skip hash, and the hash 7 is not confirmed. *)
Lemma finalization_counterexample :
  (let a := exAfter exThreeCommits exStart in
   let vote := exVote 1 VoteCom 1 8 in
   exRun exThreeCommits exStart = Some a
   ∧ hasOutput a = true
   ∧ exSanityCheck vote a = None ∧ vPosition vote = aID a
   ∧ exProcessVote 0 vote a
     = Returned (Some (ErrForkVote 1 (exVote 1 VoteCom 1 7) vote)) a)
  ∧ (let cs := [exCall 1 VoteCom 1 exSkip; CallDone] in
     let a := exAfter cs exStartOfTwo in
     let vote := exVote 1 VoteCom 2 7 in
     exRestart 0 exTwoNotaries exPosition exNew = Returned tt exStartOfTwo
     ∧ exRun cs exStartOfTwo = Some a
     ∧ hasOutput a = false
     ∧ exSanityCheck vote a = None ∧ vPosition vote = aID a
     ∧ exCheckForkVote vote a = None
     ∧ requiredVote (data a)
       ≤ voteCount 7
           (voteMap (bucketOf (votes (recordVote vote (data a))) 1) VoteCom)
     ∧ 7%N ≠ exSkip
     ∧ ∃ a', exProcessVote 0 vote a = Returned None a'
             ∧ hasOutput a' = false ∧ confirmCount a' = 0).
Proof.
  split.
  - cbv zeta. split_all; vm_compute; reflexivity.
  - cbv zeta. split_all; try (vm_compute; reflexivity).
    + vm_compute. lia.
    + eexists. split_all; vm_compute; reflexivity.
Qed.

(** ** Forks at work *)

Definition exBlock (n : NodeID) (h : Hash) : Block := mkBlock n exPosition h.

(** The second block of a proposer, and the second vote of a notary, for
    another hash. *)
Lemma fork_detection_witness :
  (let a := exAfter [CallBlock 0 (exBlock 1 7)] exStart in
   exProcessBlock 1 (exBlock 1 8) a = (Some (ErrFork 1 7 8), a))
  ∧ (let a := exAfter [exCall 1 VoteInit 1 7] exStart in
     exProcessVote 1 (exVote 1 VoteInit 1 8) a
     = Returned
         (Some (ErrForkVote 1 (exVote 1 VoteInit 1 7) (exVote 1 VoteInit 1 8)))
         a).
Proof.
  destruct (fork_detection exNull exSkip exNewer unit exVerify unit exLeader)
    as [Hblock Hvote].
  split; cbv zeta.
  - apply (Hblock 1%Z (exBlock 1 8) _ (exBlock 1 7)).
    + vm_compute. reflexivity.
    + vm_compute. reflexivity.
    + by vm_compute.
  - apply (Hvote 1%Z (exVote 1 VoteInit 1 8) _
             (mkVoteListMap {[ 1%N := exVote 1 VoteInit 1 7 ]} ∅ ∅)
             (exVote 1 VoteInit 1 7)).
    + vm_compute. reflexivity.
    + vm_compute. reflexivity.
    + vm_compute. reflexivity.
    + vm_compute. reflexivity.
    + by vm_compute.
Defined.

(** C2 as stated fails for votes.  The notary 1 has an Init vote of period 1
    in the tally.  Its Init vote of period 1 for the next height, for
    another hash, brings no fork-vote error: it is buffered, and the state
    changes.  A vote with that key and a bad signature is answered with
    ErrIncorrectVoteSignature. *)
Lemma fork_vote_counterexample :
  let a := exAfter [exCall 1 VoteInit 1 7] exStart in
  let next := mkVote 1 (mkPosition 0 2) 1 VoteInit 8 [1%N] in
  let unsigned := mkVote 1 exPosition 1 VoteInit 8 [] in
  exRun [exCall 1 VoteInit 1 7] exStart = Some a
  ∧ recorded (exVote 1 VoteInit 1 7) a
  ∧ exProcessVote 5 next a
    = Returned None (withPendingVotes (pendingVotes a ++ [mkPendingVote next 5]) a)
  ∧ exProcessVote 5 unsigned a = Returned (Some ErrIncorrectVoteSignature) a.
Proof.
  cbv zeta. split_all; try (vm_compute; reflexivity).
  eexists. split; vm_compute; reflexivity.
Qed.

(** ** The lock round at work *)

(** Three PreCommit votes of period 3 in a round at period 1. *)
Definition exPreCommitsOfPeriod3 : list call :=
  [exCall 3 VotePreCom 1 7; exCall 3 VotePreCom 2 7; exCall 3 VotePreCom 3 7].

(** After them the lock round is the target in the mailbox. *)
Lemma lock_round_bound_witness :
  lockBound (exAfter exPreCommitsOfPeriod3 exStart).
Proof.
  apply (lock_round_bound exNull exSkip exNewer unit exVerify unit id exLeader
           0 exNotaries exPosition exNew exStart exPreCommitsOfPeriod3).
  - exact exStart_restart.
  - vm_compute. reflexivity.
Defined.

(** C3 as stated fails: after a restart and three calls of [processVote]
    the lock round is 3 and the period is 1. *)
Lemma lock_round_counterexample :
  let a := exAfter exPreCommitsOfPeriod3 exStart in
  exRestart 0 exNotaries exPosition exNew = Returned tt exStart
  ∧ exRun exPreCommitsOfPeriod3 exStart = Some a
  ∧ lockRound (data a) = 3%N ∧ period (data a) = 1%N
  ∧ ¬ (lockRound (data a) ≤ period (data a))%N.
Proof.
  cbv zeta. split_all; try (vm_compute; reflexivity).
  vm_compute. intros H. apply H. reflexivity.
Qed.

(** ** Fast-forward at work *)

(** The round at period 2 with its lock round still 1: three Commit votes
    for the skip hash, and [done]. *)
Definition exToPeriod2 : list call :=
  [exCall 1 VoteCom 1 exSkip; exCall 1 VoteCom 2 exSkip;
   exCall 1 VoteCom 3 exSkip; CallDone].

(** Condition 1: at period 2, the third PreCommit vote of period 2 for the
    hash 7 takes the lock and sends the target 3. *)
Lemma fast_forward_condition1_witness :
  let a := exAfter (exToPeriod2 ++ [exCall 2 VotePreCom 1 7; exCall 2 VotePreCom 2 7])
             exStart in
  ∃ a', exProcessVote 0 (exVote 2 VotePreCom 3 7) a = Returned None a'
        ∧ lockValue (data a') = 7%N ∧ lockRound (data a') = 2%N
        ∧ fastForward a' = Some 3%N.
Proof.
  cbv zeta.
  destruct (fast_forward_condition1 exNull exSkip exNewer unit exVerify unit
              id exLeader 0 exNotaries exPosition exNew exStart
              (exToPeriod2
                 ++ [exCall 2 VotePreCom 1 7; exCall 2 VotePreCom 2 7])
              (exAfter (exToPeriod2
                          ++ [exCall 2 VotePreCom 1 7; exCall 2 VotePreCom 2 7])
                 exStart)
              0 (exVote 2 VotePreCom 3 7) 7%N exStart_restart)
    as (a' & _ & _ & Hvalue & Hround & _ & Hsent).
  - vm_compute. reflexivity.
  - vm_compute. reflexivity.
  - vm_compute. reflexivity.
  - vm_compute. reflexivity.
  - vm_compute. reflexivity.
  - reflexivity.
  - by vm_compute.
  - vm_compute. lia.
  - left. vm_compute. lia.
  - by vm_compute.
  - by vm_compute.
  - by vm_compute.
  - destruct Hsent as [Hret Hff]; [vm_compute; reflexivity|].
    exists a'. split_all; [exact Hret|exact Hvalue|exact Hround|exact Hff].
Defined.

(** The calls that bring the round to period 5 with the hash 8 locked in
    round 3, and the hash 7 holding the PreCommit quorum of period 4. *)
Definition exLockedOn8 : list call :=
  [exCall 3 VoteCom 1 exSkip; exCall 3 VoteCom 2 exSkip;
   exCall 3 VoteCom 3 exSkip; CallDone;
   exCall 2 VotePreCom 1 7; exCall 2 VotePreCom 2 7; exCall 2 VotePreCom 3 7;
   CallDone;
   exCall 4 VotePreCom 1 7; exCall 4 VotePreCom 2 7; exCall 4 VotePreCom 3 7;
   exCall 3 VotePreCom 1 8; exCall 3 VotePreCom 2 8; exCall 3 VotePreCom 3 8].

(** The round of the two notaries at period 3, locked on the hash 7 in
    round 2, with the PreCommit vote of the notary 1 for the hash 7 in
    period 3. *)
Definition exTwoLockedOn7 : list call :=
  [exCall 1 VoteCom 1 exSkip; CallDone; exCall 2 VotePreCom 1 7; CallDone;
   exCall 3 VotePreCom 1 7].

(** C4 as stated fails.  The round is at period 5, locked on the hash 8 in
    round 3; the PreCommit votes of period 4 have their quorum on the hash
    7.  The fourth PreCommit vote of period 4, for the hash 8, meets the
    three conditions of C4, the winning hash 7 not being the lock
    value 8; the code compares the hash of the vote with the lock value,
    finds them equal, and leaves the lock and the mailbox as they are.  And
    in a round finalized in period 2 the PreCommit quorum of period 2, on
    the hash 9, moves no lock, the three conditions met.  And the vote of
    the node 9, no notary, is turned away by the sanity check.  And with
    two notaries, whose quorum size is one, the PreCommit vote of the notary
    2 for the hash 3 gives the period 3 two hashes with a quorum, 3 and 7,
    either of which the tally may report; the three conditions are met with
    the hash 3, and the lock is set to the hash 7, the one the tally reports
    in the order the model visits it. *)
Lemma fast_forward_condition1_counterexample :
  (let a := exAfter exLockedOn8 exStart in
   let vote := exVote 4 VotePreCom 4 8 in
   exRun exLockedOn8 exStart = Some a
   ∧ exSanityCheck vote a = None ∧ vPosition vote = aID a
   ∧ exCheckForkVote vote a = None ∧ hasOutput a = false
   ∧ countVoteNoLock (recordVote vote (data a)) 4 VotePreCom = (7%N, true)
   ∧ 7%N ≠ exSkip
   ∧ (vPeriod vote ≤ period (data a))%N
   ∧ (lockRound (data a) < vPeriod vote)%N
   ∧ 7%N ≠ lockValue (data a)
   ∧ ∃ a', exProcessVote 0 vote a = Returned None a'
           ∧ lockValue (data a') = 8%N ∧ lockRound (data a') = 3%N
           ∧ fastForward a' = fastForward a)
  ∧ (let cs := exToPeriod2
                 ++ [exCall 2 VoteCom 1 7; exCall 2 VoteCom 2 7;
                     exCall 2 VoteCom 3 7;
                     exCall 2 VotePreCom 1 9; exCall 2 VotePreCom 2 9] in
     let a := exAfter cs exStart in
     let vote := exVote 2 VotePreCom 3 9 in
     exRun cs exStart = Some a
     ∧ hasOutput a = true
     ∧ exSanityCheck vote a = None ∧ vPosition vote = aID a
     ∧ exCheckForkVote vote a = None
     ∧ countVoteNoLock (recordVote vote (data a)) 2 VotePreCom = (9%N, true)
     ∧ 9%N ≠ exSkip
     ∧ (vPeriod vote ≤ period (data a))%N
     ∧ (lockRound (data a) < vPeriod vote)%N
     ∧ 9%N ≠ lockValue (data a)
     ∧ ∃ a', exProcessVote 0 vote a = Returned None a'
             ∧ lockValue (data a') = exNull ∧ lockRound (data a') = 1%N
             ∧ fastForward a' = None)
  ∧ (let a := exAfter exLockedOn8 exStart in
     let vote := exVote 4 VotePreCom 9 9 in
     countVoteNoLock (data a) 4 VotePreCom = (7%N, true)
     ∧ vBlockHash vote ≠ lockValue (data a)
     ∧ exProcessVote 0 vote a = Returned (Some ErrNotInNotarySet) a)
  ∧ (let a := exAfter exTwoLockedOn7 exStartOfTwo in
     let vote := exVote 3 VotePreCom 2 3 in
     let l := bucketOf (votes (recordVote vote (data a))) 3 in
     exRestart 0 exTwoNotaries exPosition exNew = Returned tt exStartOfTwo
     ∧ exRun exTwoLockedOn7 exStartOfTwo = Some a
     ∧ exSanityCheck vote a = None ∧ vPosition vote = aID a
     ∧ exCheckForkVote vote a = None ∧ hasOutput a = false
     ∧ requiredVote (data a) ≤ voteCount 3 (voteMap l VotePreCom)
     ∧ requiredVote (data a) ≤ voteCount 7 (voteMap l VotePreCom)
     ∧ countVoteMay (recordVote vote (data a)) 3 VotePreCom (3%N, true)
     ∧ countVoteMay (recordVote vote (data a)) 3 VotePreCom (7%N, true)
     ∧ 3%N ≠ exSkip
     ∧ (vPeriod vote ≤ period (data a))%N
     ∧ (lockRound (data a) < vPeriod vote)%N
     ∧ 3%N ≠ lockValue (data a)
     ∧ ∃ a', exProcessVote 0 vote a = Returned None a'
             ∧ lockValue (data a') = 7%N ∧ lockRound (data a') = 3%N).
Proof.
  split_all; cbv zeta.
  - split_all; try (vm_compute; reflexivity); try (by vm_compute).
    eexists. split_all; vm_compute; reflexivity.
  - split_all; try (vm_compute; reflexivity); try (by vm_compute).
    eexists. split_all; vm_compute; reflexivity.
  - split_all; try (vm_compute; reflexivity); try (by vm_compute).
  - split_all; try (vm_compute; reflexivity); try (by vm_compute);
      try (vm_compute; lia).
    + eapply (countVoteMay_quorum unit);
        [apply recordVote_has_bucket|vm_compute; lia..].
    + eapply (countVoteMay_quorum unit);
        [apply recordVote_has_bucket|vm_compute; lia..].
    + eexists. split_all; vm_compute; reflexivity.
Qed.

(** Condition 2: with the period 1 and the lock round 1, the third PreCommit
    vote of period 3 for the hash 7 takes the lock in round 3 and sends the
    target 3. *)
Lemma fast_forward_condition2_witness :
  let a := exAfter [exCall 3 VotePreCom 1 7; exCall 3 VotePreCom 2 7] exStart in
  period (data a) = 1%N ∧ lockRound (data a) = 1%N
  ∧ ∃ a', exProcessVote 0 (exVote 3 VotePreCom 3 7) a = Returned None a'
          ∧ lockValue (data a') = 7%N ∧ lockRound (data a') = 3%N
          ∧ fastForward a' = Some 3%N.
Proof.
  cbv zeta.
  split; [vm_compute; reflexivity|]. split; [vm_compute; reflexivity|].
  destruct (fast_forward_condition2 exNull exSkip exNewer unit exVerify unit
              id exLeader 0 exNotaries exPosition exNew exStart
              [exCall 3 VotePreCom 1 7; exCall 3 VotePreCom 2 7]
              (exAfter [exCall 3 VotePreCom 1 7; exCall 3 VotePreCom 2 7]
                 exStart)
              0 (exVote 3 VotePreCom 3 7) 7%N exStart_restart)
    as (a' & _ & _ & Hvalue & Hround & _ & Hsent).
  - vm_compute. reflexivity.
  - vm_compute. reflexivity.
  - vm_compute. reflexivity.
  - vm_compute. reflexivity.
  - vm_compute. reflexivity.
  - reflexivity.
  - by vm_compute.
  - by vm_compute.
  - vm_compute. lia.
  - left. vm_compute. lia.
  - destruct Hsent as [Hret Hff]; [vm_compute; reflexivity|].
    exists a'. split_all; [exact Hret|exact Hvalue|exact Hround|exact Hff].
Defined.

(** C5 as stated fails in a finalized round: the hash 7 is confirmed in
    period 1; the third PreCommit vote of period 3 for the hash 9 completes
    a quorum in a period above the current one, and [processVote] returns
    with the lock and the mailbox as they were.  And in a round without
    output the vote of the node 9, no notary, sends nothing: the sanity
    check turns it away.  And with two notaries, whose quorum size is one,
    the PreCommit votes of period 3 for the skip hash and for the hash 7
    both make a quorum, either of which the tally may report; in the order
    the model visits it the tally reports the skip hash, and the lock and
    the mailbox stay as they were. *)
Lemma fast_forward_condition2_counterexample :
  (let cs := exThreeCommits
               ++ [exCall 3 VotePreCom 1 9; exCall 3 VotePreCom 2 9] in
   let a := exAfter cs exStart in
   let vote := exVote 3 VotePreCom 3 9 in
   exRun cs exStart = Some a
   ∧ hasOutput a = true
   ∧ exSanityCheck vote a = None ∧ vPosition vote = aID a
   ∧ exCheckForkVote vote a = None
   ∧ (period (data a) < vPeriod vote)%N
   ∧ countVoteNoLock (recordVote vote (data a)) 3 VotePreCom = (9%N, true)
   ∧ 9%N ≠ exSkip
   ∧ ∃ a', exProcessVote 0 vote a = Returned None a'
           ∧ lockValue (data a') = exNull ∧ lockRound (data a') = 1%N
           ∧ fastForward a' = None)
  ∧ (let a := exAfter exPreCommitsOfPeriod3 exStart in
     let vote := exVote 3 VotePreCom 9 7 in
     exRun exPreCommitsOfPeriod3 exStart = Some a
     ∧ hasOutput a = false
     ∧ (period (data a) < vPeriod vote)%N
     ∧ countVoteNoLock (data a) 3 VotePreCom = (7%N, true)
     ∧ exProcessVote 0 vote a = Returned (Some ErrNotInNotarySet) a
     ∧ posted a (exProcessVote 0 vote a) = None)
  ∧ (let a := exAfter [exCall 3 VotePreCom 1 exSkip] exStartOfTwo in
     let vote := exVote 3 VotePreCom 2 7 in
     let l := bucketOf (votes (recordVote vote (data a))) 3 in
     exRestart 0 exTwoNotaries exPosition exNew = Returned tt exStartOfTwo
     ∧ exRun [exCall 3 VotePreCom 1 exSkip] exStartOfTwo = Some a
     ∧ exSanityCheck vote a = None ∧ vPosition vote = aID a
     ∧ exCheckForkVote vote a = None ∧ hasOutput a = false
     ∧ (period (data a) < vPeriod vote)%N
     ∧ requiredVote (data a) ≤ voteCount 7 (voteMap l VotePreCom)
     ∧ requiredVote (data a) ≤ voteCount exSkip (voteMap l VotePreCom)
     ∧ countVoteMay (recordVote vote (data a)) 3 VotePreCom (7%N, true)
     ∧ countVoteMay (recordVote vote (data a)) 3 VotePreCom (exSkip, true)
     ∧ 7%N ≠ exSkip
     ∧ ∃ a', exProcessVote 0 vote a = Returned None a'
             ∧ lockValue (data a') = exNull ∧ lockRound (data a') = 1%N
             ∧ fastForward a' = None).
Proof.
  split_all; cbv zeta.
  - split_all; try (vm_compute; reflexivity); try (by vm_compute).
    eexists. split_all; vm_compute; reflexivity.
  - split_all; try (vm_compute; reflexivity); try (by vm_compute).
  - split_all; try (vm_compute; reflexivity); try (by vm_compute);
      try (vm_compute; lia).
    + eapply (countVoteMay_quorum unit);
        [apply recordVote_has_bucket|vm_compute; lia..].
    + eapply (countVoteMay_quorum unit);
        [apply recordVote_has_bucket|vm_compute; lia..].
    + eexists. split_all; vm_compute; reflexivity.
Qed.

(** ** Pulling blocks at work *)

(** Two Init votes for the hash 7, a block nobody has seen, and two Commit
    votes for the skip hash. *)
Definition exSkipAfterInit : list call :=
  [exCall 1 VoteInit 1 7; exCall 1 VoteInit 2 7;
   exCall 1 VoteCom 1 exSkip; exCall 1 VoteCom 2 exSkip].

(** The third Commit vote for the skip hash pulls the hash 7 and sends the
    target 2. *)
Lemma commit_quorum_pulls_blocks_witness :
  let a := exAfter exSkipAfterInit exStart in
  ∃ hashes a',
    exProcessVote 0 (exVote 1 VoteCom 3 exSkip) a = Returned None a'
    ∧ recv (data a') = recv (data a) ++ [PullBlocks hashes]
    ∧ (∀ h, h ∈ hashes → h ≠ exNull ∧ h ≠ exSkip)
    ∧ fastForward a' = Some 2%N.
Proof.
  cbv zeta.
  destruct (commit_quorum_pulls_blocks exNull exSkip exNewer unit exVerify unit
              0 (exVote 1 VoteCom 3 exSkip) (exAfter exSkipAfterInit exStart))
    as (hashes & a' & _ & _ & Hrecv & Hmem & _ & Hsent).
  - vm_compute. reflexivity.
  - vm_compute. reflexivity.
  - vm_compute. reflexivity.
  - vm_compute. reflexivity.
  - reflexivity.
  - by vm_compute.
  - vm_compute. lia.
  - intros h. vm_compute. intros [= <-]. reflexivity.
  - destruct Hsent as [Hret Hff]; [vm_compute; reflexivity|].
    exists hashes, a'. split_all; [exact Hret|exact Hrecv| |exact Hff].
    intros h Hh. apply Hmem in Hh. tauto.
Defined.

(** C6 as stated fails.  The third Commit vote for the hash 7 completes the
    Commit quorum of the current period: [processVote] confirms the hash,
    pulls nothing and sends nothing.  And where blocks are pulled, the list
    names a hash once for each vote that names it: 7 twice here.  And the
    Commit vote of the node 9, no notary, is turned away by the sanity
    check. *)
Lemma commit_quorum_counterexample :
  (let a := exAfter exTwoCommits exStart in
   let vote := exVote 1 VoteCom 3 7 in
   exRun exTwoCommits exStart = Some a
   ∧ exSanityCheck vote a = None ∧ vPosition vote = aID a
   ∧ exCheckForkVote vote a = None
   ∧ (period (data a) ≤ vPeriod vote)%N
   ∧ requiredVote (data a)
     ≤ size (voteMap (bucketOf (votes (recordVote vote (data a))) 1) VoteCom)
   ∧ ∃ a', exProcessVote 0 vote a = Returned None a'
           ∧ recv (data a')
             = [ConfirmBlock 7
                  (voteMap (bucketOf (votes (recordVote vote (data a))) 1)
                           VoteCom)]
           ∧ fastForward a' = None)
  ∧ (let a := exAfter exSkipAfterInit exStart in
     exRun exSkipAfterInit exStart = Some a
     ∧ ∃ a', exProcessVote 0 (exVote 1 VoteCom 3 exSkip) a = Returned None a'
             ∧ recv (data a') = [PullBlocks [7%N; 7%N]])
  ∧ (let cs := exSkipAfterInit ++ [exCall 1 VoteCom 3 exSkip; CallDone] in
     let a := exAfter cs exStart in
     let vote := exVote 2 VoteCom 9 exSkip in
     exRun cs exStart = Some a
     ∧ hasOutput a = false
     ∧ (period (data a) ≤ vPeriod vote)%N
     ∧ exProcessVote 0 vote a = Returned (Some ErrNotInNotarySet) a).
Proof.
  split_all; cbv zeta.
  - split_all; try (vm_compute; reflexivity); try (by vm_compute).
    eexists. split_all; vm_compute; reflexivity.
  - split; [vm_compute; reflexivity|].
    eexists. split_all; vm_compute; reflexivity.
  - split_all; try (vm_compute; reflexivity); try (by vm_compute).
Qed.

(** ** The pending buffers at work *)

(** Votes for the heights 0, 2 and 3 of the chain. *)
Definition exVoteAt (height : N) (n : NodeID) : Vote :=
  mkVote n (mkPosition 0 height) 1 VoteInit 7 [n].

(** The instance at height 1 is handed a vote for height 2 at time 0, and
    two votes for height 3, one 95 seconds later and one at time 0. *)
Definition exEarlyVotes : list call :=
  [CallVote 0 (exVoteAt 2 1); CallVote (95 * Second) (exVoteAt 3 1);
   CallVote 0 (exVoteAt 3 2)].



(** ** Resubmission at work *)

(** A block and a vote of the notary 1, handed in again. *)
Lemma resubmission_is_idempotent_witness :
  let a := exAfter [CallBlock 0 (exBlock 1 7); exCall 1 VoteInit 1 7] exStart in
  errorOf (exProcessVote 1 (exVote 1 VoteInit 1 7) a) = None
  ∧ (∃ a', exProcessVote 1 (exVote 1 VoteInit 1 7) a = Returned None a')
  ∧ exProcessBlock 1 (exBlock 1 7) a = (None, a).
Proof.
  cbv zeta.
  destruct (resubmission_is_idempotent exNull exSkip exNewer unit exVerify unit
              id exLeader 0 exNotaries exPosition exNew exStart
              [CallBlock 0 (exBlock 1 7); exCall 1 VoteInit 1 7]
              (exAfter [CallBlock 0 (exBlock 1 7); exCall 1 VoteInit 1 7]
                 exStart) exStart_restart)
    as [Hvote Hblock].
  - vm_compute. reflexivity.
  - destruct (Hvote 1%Z (exVote 1 VoteInit 1 7)) as (Herr & _ & Hret & _).
    + eexists. split; vm_compute; reflexivity.
    + split_all; [exact Herr| |].
      * apply Hret. right. vm_compute. reflexivity.
      * apply Hblock. vm_compute. reflexivity.
Defined.

(** Three Commit votes of period 1 for the skip hash. *)
Definition exSkipQuorum : list call :=
  [exCall 1 VoteCom 1 exSkip; exCall 1 VoteCom 2 exSkip;
   exCall 1 VoteCom 3 exSkip].

(** C9 as stated fails: a recorded vote handed in again is not always
    answered.  The third PreCommit vote of period 3 for the hash 7 has taken
    the lock and left the target 3 in the mailbox; handed in again it meets
    condition 2 again and is suspended in its send, the mailbox being full.
    And the third Commit vote of period 1 for the skip hash, handed in
    again, meets condition 3 again: the receiver is asked to pull blocks a
    second time before the call is suspended in its send. *)
Lemma resubmission_counterexample :
  (let a := exAfter exPreCommitsOfPeriod3 exStart in
   let vote := exVote 3 VotePreCom 3 7 in
   exRun exPreCommitsOfPeriod3 exStart = Some a
   ∧ recorded vote a
   ∧ hasOutput a = false ∧ fastForward a = Some 3%N
   ∧ exProcessVote 0 vote a = BlockedOnSend 3 a)
  ∧ (let a := exAfter exSkipQuorum exStart in
     let vote := exVote 1 VoteCom 3 exSkip in
     exRun exSkipQuorum exStart = Some a
     ∧ recorded vote a
     ∧ hasOutput a = false ∧ fastForward a = Some 2%N
     ∧ recv (data a) = [PullBlocks []]
     ∧ ∃ a', exProcessVote 0 vote a = BlockedOnSend 2 a'
             ∧ recv (data a') = [PullBlocks []; PullBlocks []]).
Proof.
  split; cbv zeta.
  - split_all; try (vm_compute; reflexivity).
    eexists. split; vm_compute; reflexivity.
  - split_all; try (vm_compute; reflexivity).
    + eexists. split; vm_compute; reflexivity.
    + eexists. split; vm_compute; reflexivity.
Qed.

(** ** The stopped instance at work *)

(** The running instance, stopped. *)
Definition exStopped : agreement unit :=
  default exNew (stateOf (exStop 0 exStart)).

(** The stopped instance turns a notary's vote away and buffers a block. *)
Lemma stopped_rejects_votes_witness :
  let cs := [exCall 1 VoteInit 1 7; CallBlock 0 (exBlock 1 7); CallDone] in
  let a := exAfter cs exStopped in
  exProcessVote 0 (exVote 1 VoteInit 1 7) a
  = Returned (Some ErrNotInNotarySet) a
  ∧ pendingVotes a = []
  ∧ exProcessBlock 1 (exBlock 2 7) a
    = (None,
       withPendingBlocks
         (pendingBlocks a ++ [mkPendingBlock (exBlock 2 7) 1]) a).
Proof.
  cbv zeta.
  destruct (stopped_rejects_votes exNull exSkip exNewer unit exVerify unit id
              exLeader 0 exStart exStopped
              [exCall 1 VoteInit 1 7; CallBlock 0 (exBlock 1 7); CallDone]
              (exAfter [exCall 1 VoteInit 1 7; CallBlock 0 (exBlock 1 7);
                        CallDone] exStopped))
    as (Hvote & Hpending & _ & Hblock).
  - vm_compute. reflexivity.
  - vm_compute. reflexivity.
  - split_all.
    + apply Hvote.
    + rewrite Hpending. vm_compute. reflexivity.
    + apply Hblock. by vm_compute.
Defined.

(** ** The period at work *)

(** Along the calls that lock the hash 8 the period goes from 1 to 5. *)
Lemma period_is_monotone_witness :
  (period (data exStart) ≤ period (data (exAfter exLockedOn8 exStart)))%N.
Proof.
  apply (period_is_monotone exNull exSkip exNewer unit exVerify unit exLeader
           exLockedOn8).
  vm_compute. reflexivity.
Defined.

(** Three PreCommit votes of the last period there is. *)
Definition exLastPeriod : list call :=
  [exCall MaxUint64 VotePreCom 1 7; exCall MaxUint64 VotePreCom 2 7;
   exCall MaxUint64 VotePreCom 3 7].

(** After them [done] does not return. *)
Lemma done_diverges_at_MaxUint64_witness :
  done (exAfter exLastPeriod exStart) = Diverges.
Proof.
  destruct (done_diverges_at_MaxUint64 unit (exAfter exLastPeriod exStart))
    as [H _].
  - vm_compute. reflexivity.
  - vm_compute. reflexivity.
  - by vm_compute.
  - exact H.
Defined.

(** * More of the instance at work *)

Arguments findCandidateBlock {leaderSelector}.

(** What a call on the receiver hands over in the round of the four
    notaries. *)
Definition exSoundConfirm : recvCall → Prop :=
  soundConfirm exSkip unit exVerify exNotaries exPosition.

(** ** Errors at work *)

(** The vote of the node 9, no notary, is turned away, the state as it
    was. *)
Lemma processVote_error_changes_nothing_witness :
  exProcessVote 0 (exVote 1 VoteInit 9 7) exStart
  = Returned (Some ErrNotInNotarySet) exStart.
Proof.
  destruct (processVote_error_changes_nothing exNull exSkip exNewer unit
              exVerify unit 0 (exVote 1 VoteInit 9 7) exStart
              ErrNotInNotarySet) as [H _].
  - vm_compute. reflexivity.
  - exact H.
Defined.

(** The block of the proposer 1 is recorded and found by its hash. *)
Lemma processBlock_records_block_witness :
  findCandidateBlock 7 (exProcessBlock 0 (exBlock 1 7) exStart).2
  = Some (exBlock 1 7).
Proof.
  destruct (processBlock_records_block exNewer unit unit exLeader 0
              (exBlock 1 7) exStart) as (_ & _ & H & _).
  - vm_compute. reflexivity.
  - vm_compute. reflexivity.
  - reflexivity.
  - exact H.
Defined.

(** The second block of the proposer 1, with another hash, leaves the
    blocks as they are. *)
Lemma processBlock_error_records_nothing_witness :
  let a := exAfter [CallBlock 0 (exBlock 1 7)] exStart in
  blocks (data (exProcessBlock 1 (exBlock 1 8) a).2) = blocks (data a).
Proof.
  cbv zeta.
  destruct (processBlock_error_records_nothing exNewer unit unit exLeader 1
              (exBlock 1 8) (exAfter [CallBlock 0 (exBlock 1 7)] exStart)
              (ErrFork 1 7 8)) as (_ & H & _).
  - vm_compute. reflexivity.
  - exact H.
Defined.

(** ** The tally at work *)

(** With three Commit votes for the hash 7, of four notaries, the hash 7 is
    the one reported. *)
Lemma quorum_is_unique_witness :
  countVoteNoLock (data (exAfter exThreeCommits exStart)) 1 VoteCom
  = (7%N, true).
Proof.
  destruct (quorum_is_unique exNull exSkip exNewer unit exVerify unit id
              exLeader 0 exNotaries exPosition exNew exStart exThreeCommits
              (exAfter exThreeCommits exStart) exStart_restart)
    with (p := 1%N) (t := VoteCom)
         (l := bucketOf (votes (data (exAfter exThreeCommits exStart))) 1)
         (h := 7%N) as [H _].
  - vm_compute. reflexivity.
  - by vm_compute.
  - vm_compute. reflexivity.
  - vm_compute. lia.
  - exact H.
Defined.

(** The two Commit votes for the hash 7 are there after the third. *)
Lemma votes_are_never_retracted_witness :
  voteCount 7
    (voteMap (bucketOf (votes (data (exAfter exTwoCommits exStart))) 1) VoteCom)
  ≤ voteCount 7
      (voteMap (bucketOf (votes (data (exAfter exThreeCommits exStart))) 1)
               VoteCom).
Proof.
  destruct (votes_are_never_retracted exNull exSkip exNewer unit exVerify unit
              exLeader [exCall 1 VoteCom 3 7] (exAfter exTwoCommits exStart)
              (exAfter exThreeCommits exStart) 1 VoteCom 7) as [_ H].
  - vm_compute. reflexivity.
  - exact H.
Defined.

(** The Commit votes of period 1 are three, of four notaries. *)
Lemma recorded_votes_are_valid_witness :
  size (voteMap (bucketOf (votes (data (exAfter exThreeCommits exStart))) 1)
                VoteCom)
  ≤ size exNotaries.
Proof.
  destruct (recorded_votes_are_valid exNull exSkip exNewer unit exVerify unit
              id exLeader 0 exNotaries exPosition exNew exStart exThreeCommits
              (exAfter exThreeCommits exStart) exStart_restart)
    with (p := 1%N)
         (l := bucketOf (votes (data (exAfter exThreeCommits exStart))) 1)
         (t := VoteCom) as [H _].
  - vm_compute. reflexivity.
  - vm_compute. reflexivity.
  - exact H.
Defined.

(** The proposers 1 and 2 each have a recorded block of the hash 7; the
    pool has under the hash 7 a recorded block of that hash, that of the
    proposer 2, which came last. *)
Lemma candidates_are_the_recorded_blocks_witness :
  let a := exAfter [CallBlock 0 (exBlock 1 7); CallBlock 0 (exBlock 2 7)]
             exStart in
  blocks (data a) !! 1%N = Some (exBlock 1 7)
  ∧ findCandidateBlock 7 a = Some (exBlock 2 7)
  ∧ ∃ b', findCandidateBlock 7 a = Some b' ∧ bHash b' = 7%N
          ∧ blocks (data a) !! bProposerID b' = Some b'.
Proof.
  cbv zeta. split; [vm_compute; reflexivity|].
  split; [vm_compute; reflexivity|].
  destruct (candidates_are_the_recorded_blocks exNull exSkip exNewer unit
              exVerify unit id exLeader 0 exNotaries exPosition exNew exStart
              [CallBlock 0 (exBlock 1 7); CallBlock 0 (exBlock 2 7)]
              (exAfter [CallBlock 0 (exBlock 1 7); CallBlock 0 (exBlock 2 7)]
                 exStart) exStart_restart)
    as [H _].
  - vm_compute. reflexivity.
  - destruct (H 1%N (exBlock 1 7)) as (_ & _ & b' & Hfound & Hhash & Hrec & _).
    + vm_compute. reflexivity.
    + exists b'. split_all; [exact Hfound|exact Hhash|exact Hrec].
Defined.

(** At period 2 the tally has the bucket of period 2. *)
Lemma every_period_has_a_bucket_witness :
  is_Some (votes (data (exAfter exToPeriod2 exStart)) !! 2%N).
Proof.
  apply (every_period_has_a_bucket exNull exSkip exNewer unit exVerify unit id
           exLeader 0 exNotaries exPosition exNew exStart exToPeriod2
           (exAfter exToPeriod2 exStart) exStart_restart).
  - vm_compute. reflexivity.
  - by vm_compute.
  - vm_compute. split; discriminate.
Defined.

(** ** The lock at work *)

(** The lock on the hash 7 of round 3 has the PreCommit votes of three
    notaries behind it. *)
Lemma lock_is_justified_witness :
  let a := exAfter exPreCommitsOfPeriod3 exStart in
  (lockValue (data a) = exNull ∧ lockRound (data a) = 1%N)
  ∨ (lockValue (data a) ≠ exSkip
     ∧ size exNotaries / 3 * 2 + 1
       ≤ size (votersFor (lockValue (data a))
                 (voteMap (bucketOf (votes (data a)) (lockRound (data a)))
                          VotePreCom))
     ∧ votersFor (lockValue (data a))
         (voteMap (bucketOf (votes (data a)) (lockRound (data a))) VotePreCom)
       ⊆ exNotaries).
Proof.
  cbv zeta.
  apply (lock_is_justified exNull exSkip exNewer unit exVerify unit id
           exLeader 0 exNotaries exPosition exNew exStart
           exPreCommitsOfPeriod3 (exAfter exPreCommitsOfPeriod3 exStart)
           exStart_restart).
  vm_compute. reflexivity.
Defined.

(** ** The finalized round at work *)

(** After the hash 7 is confirmed, a PreCommit vote of period 3 and a call
    of [done] leave the period at 1. *)
Lemma finalized_round_is_frozen_witness :
  ∃ a', exRun [exCall 3 VotePreCom 1 9; CallDone]
          (exAfter exThreeCommits exStart) = Some a'
        ∧ period (data a') = 1%N.
Proof.
  destruct (finalized_round_is_frozen exNull exSkip exNewer unit exVerify unit
              exLeader [exCall 3 VotePreCom 1 9; CallDone]
              (exAfter exThreeCommits exStart))
    as (a' & Hrun & _ & Hperiod & _).
  - vm_compute. reflexivity.
  - exists a'. split; [exact Hrun|]. rewrite Hperiod. vm_compute. reflexivity.
Defined.

(** ** The targets at work *)

(** The third PreCommit vote of period 3 sends a target above the period. *)
Lemma posted_target_is_ahead_witness :
  let a := exAfter [exCall 3 VotePreCom 1 7; exCall 3 VotePreCom 2 7] exStart in
  ((period (data a) < 3)%N ∧ (3 < 2 ^ 64)%N)
  ∨ (3%N = 0%N
     ∧ (period (data a) = MaxUint64
        ∨ vPeriod (exVote 3 VotePreCom 3 7) = MaxUint64)).
Proof.
  cbv zeta.
  destruct (posted_target_is_ahead exNull exSkip exNewer unit exVerify unit 0
              (exVote 3 VotePreCom 3 7)
              (exAfter [exCall 3 VotePreCom 1 7; exCall 3 VotePreCom 2 7]
                 exStart) 3%N) as [_ H].
  - vm_compute. reflexivity.
  - by vm_compute.
  - by vm_compute.
  - exact H.
Defined.

(** [done] adopts the target 3 the vote has sent. *)
Lemma posted_target_is_adopted_witness :
  ∃ a'', done (exAfter exPreCommitsOfPeriod3 exStart) = Returned true a''
         ∧ period (data a'') = 3%N.
Proof.
  destruct (posted_target_is_adopted exNull exSkip exNewer unit exVerify unit 0
              (exVote 3 VotePreCom 3 7)
              (exAfter [exCall 3 VotePreCom 1 7; exCall 3 VotePreCom 2 7]
                 exStart)
              None (exAfter exPreCommitsOfPeriod3 exStart) 3%N)
    as (a'' & Hdone & Hperiod & _).
  - vm_compute. reflexivity.
  - vm_compute. reflexivity.
  - vm_compute. reflexivity.
  - by vm_compute.
  - by vm_compute.
  - exists a''. split; [exact Hdone|exact Hperiod].
Defined.

(** After [done] has adopted the target 3, the fourth PreCommit vote of
    period 3 is answered; before, the mailbox holding the target, the call
    is suspended with the vote in the tally and the mailbox as it was. *)
Lemma processVote_is_suspended_on_a_full_mailbox_only_witness :
  (∃ e a'',
     exProcessVote 0 (exVote 3 VotePreCom 4 7)
       (exAfter (exPreCommitsOfPeriod3 ++ [CallDone]) exStart)
     = Returned e a'')
  ∧ ∃ p a',
      exProcessVote 0 (exVote 3 VotePreCom 4 7)
        (exAfter exPreCommitsOfPeriod3 exStart)
      = BlockedOnSend p a'
      ∧ fastForward a' = fastForward (exAfter exPreCommitsOfPeriod3 exStart)
      ∧ recorded (exVote 3 VotePreCom 4 7) a'.
Proof.
  split.
  - destruct (processVote_is_suspended_on_a_full_mailbox_only exNull exSkip
                exNewer unit exVerify unit 0 (exVote 3 VotePreCom 4 7)
                (exAfter (exPreCommitsOfPeriod3 ++ [CallDone]) exStart))
      as (H & _).
    apply H. right. vm_compute. reflexivity.
  - destruct (processVote_is_suspended_on_a_full_mailbox_only exNull exSkip
                exNewer unit exVerify unit 0 (exVote 3 VotePreCom 4 7)
                (exAfter exPreCommitsOfPeriod3 exStart))
      as (_ & H & _).
    destruct (exProcessVote 0 (exVote 3 VotePreCom 4 7)
                (exAfter exPreCommitsOfPeriod3 exStart))
      as [r a'|p a'|] eqn:Hcall.
    + vm_compute in Hcall. discriminate Hcall.
    + exists p, a'. split; [reflexivity|].
      destruct (H p a' Hcall)
        as (_ & _ & (q & Hq & Hq') & _ & _ & _ & Hrec & _).
      split; [|exact Hrec]. rewrite Hq. exact Hq'.
    + vm_compute in Hcall. discriminate Hcall.
Defined.

(** ** The receiver at work *)

(** The one call on the receiver, for the hash 7, is sound. *)
Lemma confirmed_block_has_a_quorum_witness :
  ∃ calls,
    recv (data (exAfter exThreeCommits exStart)) = recv (data exNew) ++ calls
    ∧ Forall exSoundConfirm calls.
Proof.
  apply (confirmed_block_has_a_quorum exNull exSkip exNewer unit exVerify unit
           id exLeader 0 exNotaries exPosition exNew exStart exThreeCommits
           (exAfter exThreeCommits exStart) exStart_restart).
  vm_compute. reflexivity.
Defined.

(** ** The restart at work *)

(** The restart of the new instance for the four notaries. *)
Lemma restart_starts_from_the_buffers_witness :
  notarySet exStart = exNotaries ∧ aID exStart = exPosition
  ∧ state exStart = stateInitial ∧ period (data exStart) = 1%N.
Proof.
  destruct (restart_starts_from_the_buffers exNull exSkip exNewer unit exVerify
              unit id exLeader 0 exNotaries exPosition exNew exStart
              exStart_restart) as (H1 & H2 & H3 & H4 & _).
  split_all; [exact H1|exact H2|exact H3|exact H4].
Defined.

(** The new instance, handed a vote and a block, does not signal. *)
Lemma new_instance_is_stopped_witness :
  let a := exAfter [exCall 1 VoteInit 1 7; CallBlock 0 (exBlock 1 7)] exNew in
  done a = Returned false a.
Proof.
  cbv zeta.
  destruct (new_instance_is_stopped exNull exSkip exNewer unit exVerify unit
              id exLeader tt
              [exCall 1 VoteInit 1 7; CallBlock 0 (exBlock 1 7)]
              (exAfter [exCall 1 VoteInit 1 7; CallBlock 0 (exBlock 1 7)]
                 exNew)) as (_ & _ & _ & _ & _ & _ & _ & H).
  - vm_compute. reflexivity.
  - exact H.
Defined.

(** ** The buffers at work *)

(** The three early votes are three entries more. *)
Lemma pending_buffers_only_grow_witness :
  ∃ vs bs,
    pendingVotes (exAfter exEarlyVotes exStart) = pendingVotes exStart ++ vs
    ∧ pendingBlocks (exAfter exEarlyVotes exStart) = pendingBlocks exStart ++ bs
    ∧ length vs + length bs ≤ 3.
Proof.
  destruct (pending_buffers_only_grow exNull exSkip exNewer unit exVerify unit
              exLeader exEarlyVotes exStart (exAfter exEarlyVotes exStart))
    as (vs & bs & Hvs & Hbs & Hlen & _).
  - vm_compute. reflexivity.
  - exists vs, bs. split_all; [exact Hvs|exact Hbs|exact Hlen].
Defined.

(** The new instance buffers the block of the proposer 1; the restart for
    its position records it. *)
Lemma early_block_is_recorded_at_restart_witness :
  let a := (exProcessBlock 0 (exBlock 1 7) exNew).2 in
  let a' := default a (stateOf (exRestart 1 exNotaries exPosition a)) in
  ∃ b, blocks (data a') !! 1%N = Some b ∧ bPosition b = exPosition
       ∧ ∃ b', findCandidateBlock (bHash b) a' = Some b'
               ∧ bHash b' = bHash b.
Proof.
  cbv zeta.
  destruct (early_block_is_recorded_at_restart exNull exSkip exNewer unit
              exVerify unit id exLeader 1 exNotaries exPosition
              (exProcessBlock 0 (exBlock 1 7) exNew).2
              (default (exProcessBlock 0 (exBlock 1 7) exNew).2
                 (stateOf (exRestart 1 exNotaries exPosition
                             (exProcessBlock 0 (exBlock 1 7) exNew).2)))
              (mkPendingBlock (exBlock 1 7) 0))
    as [(b & Hb & Hpos & _ & b' & Hfound & Hhash & _) _].
  - intros b ld. reflexivity.
  - vm_compute. reflexivity.
  - vm_compute. reflexivity.
  - apply list_elem_of_In. vm_compute. left. reflexivity.
  - reflexivity.
  - vm_compute. reflexivity.
  - exists b. split; [exact Hb|]. split; [exact Hpos|].
    exists b'. split; [exact Hfound|exact Hhash].
Defined.

(** * The primary-key bit map of the SQLVM storage
      (core/vm/sqlvm/common/storage.go)

    A table keeps the ids of its rows in a bit map: a header slot with the
    greatest id and the number of ids, and after it one slot of 256 bits for
    every 256 ids.  [SetPK] sets the bits of a list of ids and [RepeatPK]
    reads the ids back. *)

Module Storage.

(** common.Hash is [32]byte and common.Address is [20]byte: the list of
    their bytes, a byte being a number below 256; schema.TableRef is a
    uint8. *)
Abbreviation Hash := (list N) (only parsing).
Abbreviation Address := (list N) (only parsing).
Abbreviation TableRef := N (only parsing).

Definition HashLength : nat := 32.

(** The lists that are hashes. *)
Definition wfHash (h : Hash) : Prop :=
  length h = HashLength ∧ Forall (λ b, (b < 256)%N) h.

(** [[]byte("tables")] and [[]byte("primary")]. *)
Definition pathCompTables : list N := [116; 97; 98; 108; 101; 115]%N.

Definition pathCompPrimary : list N := [112; 114; 105; 109; 97; 114; 121]%N.

Definition uint8ToBytes (i : N) : list N := [i].

Definition tableRefToBytes (t : TableRef) : list N := uint8ToBytes t.

(** [n |= (1 << pos)] on a byte: the constant 1 is a byte there, and a
    byte shifted by 8 or more is 0. *)
Definition setBit (n pos : N) : N := N.lor n (N.shiftl 1 pos mod 256).

(** [n & (1 << pos) > 0] *)
Definition hasBit (n pos : N) : bool :=
  bool_decide (0 < N.land n (N.shiftl 1 pos mod 256))%N.

(** The [n] low bytes of a number, the most significant first:
    binary.BigEndian.PutUint64 writes [toBE 8 v]. *)
Fixpoint toBE (n : nat) (v : N) : list N :=
  match n with
  | 0 => []
  | S n' => toBE n' (v / 256) ++ [(v mod 256)%N]
  end.

(** The number the bytes spell, the most significant first:
    binary.BigEndian.Uint64 reads [fromBE] of 8 bytes. *)
Definition fromBE (b : list N) : N := foldl (λ acc x, (acc * 256 + x)%N) 0%N b.

(** [DecodePKHeader]: [lastRowID] from [header[:8]] and [rowCount] from
    [header[8:16]]. *)
Definition DecodePKHeader (header : Hash) : N * N :=
  (fromBE (take 8 header), fromBE (take 8 (drop 8 header))).

(** [EncodePKHeader]: the two numbers in the first 16 bytes of a zero
    hash. *)
Definition EncodePKHeader (lastRowID rowCount : N) : Hash :=
  toBE 8 lastRowID ++ toBE 8 rowCount ++ replicate 16 0%N.

(** [getCountAndOffset]: for each byte [j] of the hash and each bit [i] of
    the byte that is set, the offset [j * 8 + i], in the order of the two
    loops. *)
Definition getCountAndOffset (d : Hash) : list N :=
  concat (imap (λ j b,
                  map (λ i, N.of_nat (j * 8 + i))
                      (filter (λ i, hasBit b (N.of_nat i) = true) (seq 0 8)))
               d).

(** The offsets of the bytes from the byte [j0] on. *)
Definition offsetsFrom (j0 : nat) (d : list N) : list N :=
  concat (imap (λ j b,
                  map (λ i, N.of_nat ((j0 + j) * 8 + i))
                      (filter (λ i, hasBit b (N.of_nat i) = true) (seq 0 8)))
               d).

(** The bit [o] of a hash: the bit [o mod 8] of its byte [o / 8]. *)
Definition pkBit (d : Hash) (o : N) : bool :=
  hasBit (d !!! N.to_nat (o / 8)) (o mod 8).

(** The method Bytes of big.Int: the absolute value, the most significant byte
    first, with no leading zero byte. *)
Definition bigBytes (z : Z) : list N :=
  let n := Z.to_N (Z.abs z) in
  toBE ((N.to_nat (N.size n) + 7) / 8) n.

Section Storage.

(** What storage.go uses and does not declare. *)

(** The state database the storage embeds (vm.StateDB), with the two
    methods the bit map calls; [SetState] changes the database in place, and
    is here the database it leaves. *)
Variable StateDB : Type.
Variable GetState : StateDB → Address → Hash → Hash.
Variable SetState : StateDB → Address → Hash → Hash → StateDB.

(** [hashPathKey]: the Keccak-256 digest of the RLP encoding of the key. *)
Variable hashPathKey : list (list N) → Hash.

(** [hash.Big()] and [common.BytesToHash] of package common. *)
Variable hashBig : Hash → Z.
Variable bytesToHash : list N → Hash.

(** What the statements on the state take of them: a slot holds what was
    last set at its account and key; [Big] is the number the 32 bytes of a
    hash spell, and [BytesToHash] keeps the low 32 bytes of the bytes of a
    number, so that a hash made of a number that is not negative spells the
    number modulo [2 ^ 256]. *)
Hypothesis GetState_SetState : ∀ s a k v a' k',
  GetState (SetState s a k v) a' k'
  = if decide (a' = a ∧ k' = k) then v else GetState s a' k'.

Hypothesis hashBig_range : ∀ h, (0 ≤ hashBig h < 2 ^ 256)%Z.

Hypothesis hashBig_bytesToHash : ∀ z,
  (0 ≤ z)%Z → hashBig (bytesToHash (bigBytes z)) = (z mod 2 ^ 256)%Z.

Definition GetPrimaryPathHash (tableRef : TableRef) : Hash :=
  hashPathKey [pathCompTables; tableRefToBytes tableRef; pathCompPrimary].

Definition ShiftHashBigInt (hash : Hash) (shift : Z) : Hash :=
  bytesToHash (bigBytes (hashBig hash + shift)).

Definition ShiftHashUint64 (hash : Hash) (shift : N) : Hash :=
  ShiftHashBigInt hash (Z.of_N shift).

(** [ShiftHashListEntry]: the shift [entrySize * idx + headerSize] is
    computed on big integers and does not wrap. *)
Definition ShiftHashListEntry (base : Hash) (headerSize entrySize idx : N)
  : Hash :=
  ShiftHashBigInt base (Z.of_N entrySize * Z.of_N idx + Z.of_N headerSize).

Definition shiftTableWriterList (base : Hash) (idx : N) : Hash :=
  ShiftHashListEntry base 1 1 idx.

(** [UpdateHash]: Go visits the map in an order of its choosing, the model
    in the order of [map_to_list]; the keys of a map differ, so the state
    that is left is the same. *)
Definition UpdateHash (m : gmap Hash Hash) (address : Address) (s : StateDB)
  : StateDB :=
  foldl (λ s kv, SetState s address kv.1 kv.2) s (map_to_list m).

(** The variables of the loop of [SetPK]. *)
Record pkLoop := mkPkLoop {
  lastRowID : N;
  rowCount : N;
  slotHashToData : gmap Hash Hash
}.

(** One turn of the loop of [SetPK], for the id [id]. *)
Definition setPKStep (s : StateDB) (address : Address) (hash : Hash)
    (acc : pkLoop) (id : N) : pkLoop :=
  let lastRowID' := if decide (lastRowID acc < id)%N then id else lastRowID acc in
  let slotNum := (id / 256 + 1)%N in
  let byteLoc := N.to_nat (N.land id 255 / 8) in
  let bitLoc := N.land id 7 in
  let slotHash := ShiftHashUint64 hash slotNum in
  let data := match slotHashToData acc !! slotHash with
              | Some d => d
              | None => GetState s address slotHash
              end in
  if hasBit (data !!! byteLoc) bitLoc then
    mkPkLoop lastRowID' (rowCount acc) (<[slotHash := data]> (slotHashToData acc))
  else
    mkPkLoop lastRowID' (add64 (rowCount acc) 1)
      (<[slotHash := <[byteLoc := setBit (data !!! byteLoc) bitLoc]> data]>
         (slotHashToData acc)).

Definition SetPK (address : Address) (tableRef : TableRef) (IDs : list N)
    (s : StateDB) : StateDB :=
  let hash := GetPrimaryPathHash tableRef in
  let header := DecodePKHeader (GetState s address hash) in
  let acc := foldl (setPKStep s address hash)
               (mkPkLoop header.1 header.2 ∅) IDs in
  SetState (UpdateHash (slotHashToData acc) address s) address hash
    (EncodePKHeader (lastRowID acc) (rowCount acc)).

(** The ids of the slot of number [k]: the inner loop of [RepeatPK]. *)
Definition slotIDs (address : Address) (hash : Hash) (s : StateDB) (k : nat)
  : list N :=
  map (λ o, (o + N.of_nat k * 256)%N)
      (getCountAndOffset
         (GetState s address (ShiftHashUint64 hash (N.of_nat k + 1)))).

(** [RepeatPK].  The result is a slice of [rowCount] numbers, written from
    its start: with more set bits than [rowCount] in the slots the write
    leaves the slice and the call panics, which is [None]; with fewer the
    rest of the slice stays zero.  An id is [o + slotNum * 256] with
    [slotNum * 256] at most [lastRowID] and [o] below 256, which fits 64
    bits.  A [rowCount] no slice can have, where [make] panics, is not
    told apart. *)
Definition RepeatPK (address : Address) (tableRef : TableRef) (s : StateDB)
  : option (list N) :=
  let hash := GetPrimaryPathHash tableRef in
  let header := DecodePKHeader (GetState s address hash) in
  let maxSlotNum := (header.1 / 256 + 1)%N in
  let ids := concat (map (slotIDs address hash s) (seq 0 (N.to_nat maxSlotNum))) in
  if decide (length ids ≤ N.to_nat header.2)
  then Some (ids ++ replicate (N.to_nat header.2 - length ids) 0%N)
  else None.

(** ** What the statements say of a table *)

(** The table of [tableRef] at [address] holds the ids [S], none above
    [last]: the header gives [last] and the number of the ids, and the bit
    of an id is set exactly when the id is one of them; the slots of the
    account are hashes. *)
Definition pkHolds (address : Address) (tableRef : TableRef) (s : StateDB)
    (S : gset N) (last : N) : Prop :=
  let hash := GetPrimaryPathHash tableRef in
  (∀ k, wfHash (GetState s address k))
  ∧ DecodePKHeader (GetState s address hash) = (last, N.of_nat (size S))
  ∧ (∀ id, id ∈ S → (id ≤ last)%N)
  ∧ (∀ id, (id < 2 ^ 64)%N →
           pkBit (GetState s address (ShiftHashUint64 hash (id / 256 + 1)))
                 (id mod 256) = true
           ↔ id ∈ S).

(** The hash the loop of [SetPK] works on at a key: that of its map, or
    that of the state. *)
Definition pkData (s : StateDB) (address : Address) (m : gmap Hash Hash)
    (k : Hash) : Hash :=
  match m !! k with
  | Some d => d
  | None => GetState s address k
  end.

(** What holds in the loop of [SetPK] after the ids [processed], the table
    holding the ids [S0] when the loop starts. *)
Definition pkInv (s : StateDB) (address : Address) (hash : Hash) (S0 : gset N)
    (last0 : N) (processed : list N) (acc : pkLoop) : Prop :=
  lastRowID acc = foldl N.max last0 processed
  ∧ rowCount acc = N.of_nat (size (S0 ∪ list_to_set processed))
  ∧ (∀ k, wfHash (pkData s address (slotHashToData acc) k))
  ∧ (∀ k, is_Some (slotHashToData acc !! k) →
          ∃ id, id ∈ processed ∧ k = ShiftHashUint64 hash (id / 256 + 1))
  ∧ (∀ id, (id < 2 ^ 64)%N →
           pkBit (pkData s address (slotHashToData acc)
                   (ShiftHashUint64 hash (id / 256 + 1)))
                 (id mod 256) = true
           ↔ id ∈ S0 ∪ list_to_set processed).

(** * Properties *)

(** Goals on quotients and remainders by constants. *)
Ltac divmod := zify; Z.to_euclidean_division_equations; lia.

(** ** Bytes and numbers *)

Lemma fromBE_snoc (b : list N) (x : N) :
  fromBE (b ++ [x]) = (fromBE b * 256 + x)%N.
Proof. unfold fromBE. by rewrite foldl_app. Qed.

Lemma length_toBE (n : nat) (v : N) : length (toBE n v) = n.
Proof.
  revert v. induction n as [|n IH]; simpl; intros v; [done|].
  rewrite length_app, IH. simpl. lia.
Qed.

Lemma toBE_bytes (n : nat) (v : N) : Forall (λ b, (b < 256)%N) (toBE n v).
Proof.
  revert v. induction n as [|n IH]; simpl; intros v; [done|].
  apply Forall_app. split; [apply IH|].
  apply Forall_singleton. by apply N.mod_lt.
Qed.

(** The number the bytes of [toBE n v] spell is [v], cut to [n] bytes. *)
Lemma fromBE_toBE (n : nat) (v : N) :
  fromBE (toBE n v) = (v mod 256 ^ N.of_nat n)%N.
Proof.
  revert v. induction n as [|n IH]; intros v.
  - simpl. by rewrite N.mod_1_r.
  - cbn [toBE]. rewrite fromBE_snoc, IH.
    rewrite Nat2N.inj_succ, N.pow_succ_r'.
    rewrite N.Div0.mod_mul_r. lia.
Qed.

Lemma fromBE_bound (b : list N) :
  Forall (λ x, (x < 256)%N) b → (fromBE b < 256 ^ N.of_nat (length b))%N.
Proof.
  induction b as [|x b IH] using rev_ind; intros Hb.
  - done.
  - apply Forall_app in Hb as [Hb Hx]. rewrite Forall_singleton in Hx.
    rewrite fromBE_snoc, length_app.
    replace (N.of_nat (length b + length [x]))
      with (N.succ (N.of_nat (length b))) by (simpl; lia).
    rewrite N.pow_succ_r'. specialize (IH Hb).
    revert IH. generalize (256 ^ N.of_nat (length b))%N (fromBE b). lia.
Qed.

Lemma wfHash_EncodePKHeader (lastRowID rowCount : N) :
  wfHash (EncodePKHeader lastRowID rowCount).
Proof.
  unfold wfHash, EncodePKHeader. split.
  - by rewrite !length_app, !length_toBE, length_replicate.
  - apply Forall_app. split; [apply toBE_bytes|].
    apply Forall_app. split; [apply toBE_bytes|].
    apply Forall_replicate. lia.
Qed.

Lemma DecodePKHeader_Encode (lastRowID rowCount : N) :
  (lastRowID < 2 ^ 64)%N → (rowCount < 2 ^ 64)%N →
  DecodePKHeader (EncodePKHeader lastRowID rowCount) = (lastRowID, rowCount).
Proof.
  intros Hl Hc. unfold DecodePKHeader, EncodePKHeader.
  rewrite take_app_length' by by rewrite length_toBE.
  rewrite drop_app_length' by by rewrite length_toBE.
  rewrite take_app_length' by by rewrite length_toBE.
  rewrite !fromBE_toBE.
  change (256 ^ N.of_nat 8)%N with (2 ^ 64)%N.
  by rewrite !N.mod_small.
Qed.

(** X23. The header of a primary-key bit map: [DecodePKHeader] gives back
    the two uint64 values [EncodePKHeader] was given; the header is a hash
    of 32 bytes whose last 16 are zero; and [DecodePKHeader] reads the first
    16 bytes only. *)
Theorem pk_header_round_trip (lastRowID rowCount : N) :
  (lastRowID < 2 ^ 64)%N → (rowCount < 2 ^ 64)%N →
  DecodePKHeader (EncodePKHeader lastRowID rowCount) = (lastRowID, rowCount)
  ∧ wfHash (EncodePKHeader lastRowID rowCount)
  ∧ drop 16 (EncodePKHeader lastRowID rowCount) = replicate 16 0%N
  ∧ ∀ h h' : Hash, take 16 h = take 16 h' →
                   DecodePKHeader h = DecodePKHeader h'.
Proof.
  intros Hl Hc. split; [by apply DecodePKHeader_Encode|].
  split; [apply wfHash_EncodePKHeader|]. split.
  - unfold EncodePKHeader. rewrite app_assoc.
    rewrite drop_app_length'; [done|].
    by rewrite length_app, !length_toBE.
  - intros h h' Heq. unfold DecodePKHeader.
    assert (∀ l : Hash, take 8 l = take 8 (take 16 l)) as H8
      by (intros l; by rewrite take_take).
    rewrite (H8 h), (H8 h'), !take_drop_commute. simpl. by rewrite Heq.
Qed.

(** ** Bits of a byte *)

(** The byte [1 << pos]: a power of two, or 0 when the bit is shifted out. *)
Lemma shl_byte (pos : N) :
  (N.shiftl 1 pos mod 256)%N = if decide (pos < 8)%N then (2 ^ pos)%N else 0%N.
Proof.
  rewrite N.shiftl_1_l. case_decide as Hpos.
  - apply N.mod_small. change 256%N with (2 ^ 8)%N.
    by apply N.pow_lt_mono_r.
  - replace pos with (8 + (pos - 8))%N by lia.
    rewrite N.pow_add_r. change (2 ^ 8)%N with 256%N.
    by rewrite N.mul_comm, N.Div0.mod_mul.
Qed.

Lemma land_pow2 (n pos : N) :
  N.land n (2 ^ pos) = if N.testbit n pos then (2 ^ pos)%N else 0%N.
Proof.
  apply N.bits_inj. intros i. rewrite N.land_spec, N.pow2_bits_eqb.
  destruct (N.eqb_spec pos i) as [->|Hne].
  - destruct (N.testbit n i) eqn:Hi; rewrite ?andb_true_r.
    + by rewrite N.pow2_bits_true.
    + by rewrite N.bits_0.
  - rewrite andb_false_r. destruct (N.testbit n pos).
    + by rewrite N.pow2_bits_false.
    + by rewrite N.bits_0.
Qed.

Lemma hasBit_testbit (n pos : N) :
  (pos < 8)%N → hasBit n pos = N.testbit n pos.
Proof.
  intros Hpos. unfold hasBit. rewrite shl_byte, decide_True by done.
  rewrite land_pow2. destruct (N.testbit n pos).
  - apply bool_decide_eq_true_2.
    apply N.neq_0_lt_0, N.pow_nonzero. done.
  - by apply bool_decide_eq_false_2.
Qed.

Lemma hasBit_out (n pos : N) : (8 ≤ pos)%N → hasBit n pos = false.
Proof.
  intros Hpos. unfold hasBit. rewrite shl_byte, decide_False by lia.
  rewrite N.land_0_r. by apply bool_decide_eq_false_2.
Qed.

Lemma setBit_out (n pos : N) : (8 ≤ pos)%N → setBit n pos = n.
Proof.
  intros Hpos. unfold setBit. rewrite shl_byte, decide_False by lia.
  apply N.lor_0_r.
Qed.

Lemma setBit_testbit (n pos i : N) :
  (pos < 8)%N →
  N.testbit (setBit n pos) i = N.testbit n i || bool_decide (i = pos).
Proof.
  intros Hpos. unfold setBit. rewrite shl_byte, decide_True by done.
  rewrite N.lor_spec, N.pow2_bits_eqb. f_equal.
  destruct (N.eqb_spec pos i) as [->|Hne].
  - by rewrite bool_decide_eq_true_2.
  - by rewrite bool_decide_eq_false_2.
Qed.

Lemma byte_testbit (n : N) :
  (n < 256)%N ↔ ∀ i, (8 ≤ i)%N → N.testbit n i = false.
Proof.
  split.
  - intros Hn i Hi. destruct (decide (n = 0%N)) as [->|Hn0];
      [apply N.bits_0|].
    apply N.bits_above_log2.
    assert (N.log2 n < 8)%N; [|lia].
    apply N.log2_lt_pow2; [lia|done].
  - intros Hbits. destruct (decide (n = 0%N)) as [->|Hn0]; [done|].
    change 256%N with (2 ^ 8)%N. apply N.log2_lt_pow2; [lia|].
    destruct (N.lt_ge_cases (N.log2 n) 8) as [|Hge]; [done|].
    specialize (Hbits (N.log2 n) Hge).
    rewrite N.bit_log2 in Hbits by done. done.
Qed.

Lemma setBit_lt (n pos : N) : (n < 256)%N → (setBit n pos < 256)%N.
Proof.
  intros Hn. destruct (decide (pos < 8)%N) as [Hpos|Hpos].
  - apply byte_testbit. intros i Hi. rewrite setBit_testbit by done.
    rewrite (proj1 (byte_testbit n) Hn i Hi).
    by rewrite bool_decide_eq_false_2 by lia.
  - rewrite setBit_out by lia. done.
Qed.

(** The bit [q] of a byte whose bit [pos] has been set. *)
Lemma hasBit_setBit (n pos q : N) :
  (pos < 8)%N → (q < 8)%N →
  hasBit (setBit n pos) q = hasBit n q || bool_decide (q = pos).
Proof.
  intros Hpos Hq. rewrite !hasBit_testbit by done. by apply setBit_testbit.
Qed.

(** X24. The bits of a byte.  With [pos] below 8, [setBit] sets the bit
    [pos], leaves the other bits as they are and leaves a byte a byte;
    [hasBit] then finds the bit.  A position of 8 or more is shifted out of
    the byte: [setBit] changes nothing and [hasBit] finds no bit.  Setting a
    bit that is set changes nothing. *)
Theorem bits_of_a_byte (n pos : N) :
  ((pos < 8)%N →
     hasBit (setBit n pos) pos = true
     ∧ ((n < 256)%N → (setBit n pos < 256)%N)
     ∧ ∀ q, (q < 8)%N → q ≠ pos → hasBit (setBit n pos) q = hasBit n q)
  ∧ ((8 ≤ pos)%N → setBit n pos = n ∧ hasBit n pos = false)
  ∧ (hasBit n pos = true → setBit n pos = n).
Proof.
  split; [|split].
  - intros Hpos. split; [|split].
    + rewrite hasBit_setBit by done. rewrite bool_decide_eq_true_2 by done.
      apply orb_true_r.
    + apply setBit_lt.
    + intros q Hq Hne. rewrite hasBit_setBit by done.
      rewrite bool_decide_eq_false_2 by done. apply orb_false_r.
  - intros Hpos. split; [by apply setBit_out|by apply hasBit_out].
  - intros Hbit. destruct (decide (pos < 8)%N) as [Hpos|Hpos];
      [|apply setBit_out; lia].
    apply N.bits_inj. intros i. rewrite setBit_testbit by done.
    case_bool_decide as Hi; [|apply orb_false_r].
    subst i. rewrite hasBit_testbit in Hbit by done. by rewrite Hbit.
Qed.

(** ** The bits of a slot *)



Lemma offsetsFrom_cons (j0 : nat) (b : N) (d : list N) :
  offsetsFrom j0 (b :: d)
  = map (λ i, N.of_nat (j0 * 8 + i))
        (filter (λ i, hasBit b (N.of_nat i) = true) (seq 0 8))
    ++ offsetsFrom (S j0) d.
Proof.
  unfold offsetsFrom. rewrite imap_cons. cbn [concat]. f_equal.
  - by rewrite Nat.add_0_r.
  - f_equal. apply imap_ext. intros j x _. simpl.
    by replace (j0 + S j) with (S (j0 + j)) by lia.
Qed.

Lemma offsetsFrom_elem (j0 : nat) (d : list N) (o : N) :
  o ∈ offsetsFrom j0 d
  ↔ ∃ j b i, d !! j = Some b ∧ i < 8 ∧ hasBit b (N.of_nat i) = true
             ∧ o = N.of_nat ((j0 + j) * 8 + i).
Proof.
  revert j0. induction d as [|b d IH]; intros j0.
  - split; [intros H; by apply elem_of_nil in H|].
    by intros (j & b & i & Hj & _).
  - rewrite offsetsFrom_cons, elem_of_app, IH, list_elem_of_fmap. split.
    + intros [(i & -> & Hi)|(j & b' & i & Hj & Hi & Hb & ->)].
      * apply list_elem_of_filter in Hi as [Hb Hi]. apply elem_of_seq in Hi.
        exists 0, b, i. rewrite Nat.add_0_r. repeat split; (done || lia).
      * exists (S j), b', i. repeat split; try done.
        by replace (j0 + S j) with (S j0 + j) by lia.
    + intros (j & b' & i & Hj & Hi & Hb & ->). destruct j as [|j].
      * left. simpl in Hj. simplify_eq. exists i. rewrite Nat.add_0_r.
        split; [done|]. apply list_elem_of_filter. split; [done|].
        apply elem_of_seq. lia.
      * right. exists j, b', i. repeat split; try done.
        by replace (j0 + S j) with (S j0 + j) by lia.
Qed.

Lemma StronglySorted_filter {A} (R : relation A) (P : A → Prop)
    `{!∀ x, Decision (P x)} (l : list A) :
  StronglySorted R l → StronglySorted R (filter P l).
Proof.
  induction 1 as [|x l Hl IH Hx]; [constructor|].
  destruct (decide (P x)).
  - rewrite filter_cons_True by done. constructor; [done|].
    apply Forall_forall. intros y Hy.
    apply list_elem_of_filter in Hy as [_ Hy].
    by apply (proj1 (Forall_forall _ _) Hx).
  - by rewrite filter_cons_False.
Qed.

Lemma seq_sorted (j n : nat) : StronglySorted lt (seq j n).
Proof.
  revert j. induction n as [|n IH]; intros j; simpl; constructor; [apply IH|].
  apply Forall_forall. intros y Hy. apply elem_of_seq in Hy. lia.
Qed.

Lemma offsetsFrom_sorted (j0 : nat) (d : list N) :
  StronglySorted N.lt (offsetsFrom j0 d).
Proof.
  revert j0. induction d as [|b d IH]; intros j0; [constructor|].
  rewrite offsetsFrom_cons. apply StronglySorted_app_2; [| |apply IH].
  - intros x1 x2 Hx1 Hx2.
    apply list_elem_of_fmap in Hx1 as (i & -> & Hi).
    apply list_elem_of_filter in Hi as [_ Hi]. apply elem_of_seq in Hi.
    apply offsetsFrom_elem in Hx2 as (j & b' & i' & _ & _ & _ & ->). lia.
  - apply (StronglySorted_fmap _ lt N.lt); [intros x y Hxy; lia|].
    apply StronglySorted_filter, seq_sorted.
Qed.

Lemma getCountAndOffset_elem (d : Hash) (o : N) :
  o ∈ getCountAndOffset d
  ↔ (o < 8 * N.of_nat (length d))%N ∧ pkBit d o = true.
Proof.
  change (getCountAndOffset d) with (offsetsFrom 0 d).
  rewrite offsetsFrom_elem. unfold pkBit. split.
  - intros (j & b & i & Hj & Hi & Hb & ->).
    pose proof (lookup_lt_Some _ _ _ Hj) as Hlen.
    replace (N.of_nat ((0 + j) * 8 + i))
      with (N.of_nat i + N.of_nat j * 8)%N by lia.
    rewrite N.div_add, N.Div0.mod_add by done.
    rewrite N.div_small, N.mod_small by lia.
    rewrite N.add_0_l, Nat2N.id.
    rewrite (list_lookup_total_correct _ _ _ Hj). split; [lia|done].
  - intros [Ho Hb].
    assert (N.to_nat (o / 8) < length d) as Hlen.
    { assert (o / 8 < N.of_nat (length d))%N; [|lia].
      apply N.Div0.div_lt_upper_bound. lia. }
    destruct (lookup_lt_is_Some_2 d _ Hlen) as [b Hj].
    rewrite (list_lookup_total_correct _ _ _ Hj) in Hb.
    exists (N.to_nat (o / 8)), b, (N.to_nat (o mod 8)).
    assert (o mod 8 < 8)%N by by apply N.mod_lt.
    rewrite N2Nat.id. repeat split; try done; [lia|].
    pose proof (N.div_mod o 8). lia.
Qed.

(** X25. [getCountAndOffset] lists the set bits of a hash: the offsets it
    returns are in ascending order, without repeats, and an offset is among
    them exactly when it is below 8 times the number of bytes (256 for a
    hash) and bit [offset mod 8] of byte [offset / 8] is set. *)
Theorem getCountAndOffset_lists_the_set_bits (d : Hash) :
  StronglySorted N.lt (getCountAndOffset d)
  ∧ NoDup (getCountAndOffset d)
  ∧ ∀ o, o ∈ getCountAndOffset d
         ↔ (o < 8 * N.of_nat (length d))%N
           ∧ hasBit (d !!! N.to_nat (o / 8)) (o mod 8) = true.
Proof.
  assert (StronglySorted N.lt (getCountAndOffset d)) as Hsorted
    by apply (offsetsFrom_sorted 0).
  split; [done|]. split; [|apply getCountAndOffset_elem].
  clear -Hsorted. induction Hsorted as [|x l Hl IH Hx]; constructor; [|done].
  intros Hin. apply (proj1 (Forall_forall _ _) Hx) in Hin. lia.
Qed.

(** ** The state and the slots *)

Lemma hashBig_shift (h : Hash) (k : N) :
  (k < 2 ^ 64)%N →
  hashBig (ShiftHashUint64 h k)
  = (if decide (hashBig h + Z.of_N k < 2 ^ 256)%Z
     then hashBig h + Z.of_N k
     else hashBig h + Z.of_N k - 2 ^ 256)%Z.
Proof.
  intros Hk. pose proof (hashBig_range h) as Hh.
  unfold ShiftHashUint64, ShiftHashBigInt.
  rewrite hashBig_bytesToHash by lia.
  assert (Z.of_N k < 2 ^ 64)%Z as Hk' by lia.
  case_decide as Hlt.
  - apply Z.mod_small. lia.
  - symmetry. apply (Z.mod_unique _ _ 1); lia.
Qed.

(** Offsets below [2 ^ 64] lead to slots of their own, none the hash they
    start from. *)
Lemma ShiftHashUint64_inj (h : Hash) (k k' : N) :
  (k < 2 ^ 64)%N → (k' < 2 ^ 64)%N →
  ShiftHashUint64 h k = ShiftHashUint64 h k' → k = k'.
Proof.
  intros Hk Hk' Heq. apply (f_equal hashBig) in Heq.
  rewrite !hashBig_shift in Heq by done.
  pose proof (hashBig_range h).
  assert (Z.of_N k < 2 ^ 64)%Z by lia.
  assert (Z.of_N k' < 2 ^ 64)%Z by lia.
  repeat case_decide; lia.
Qed.

Lemma ShiftHashUint64_ne (h : Hash) (k : N) :
  (0 < k < 2 ^ 64)%N → ShiftHashUint64 h k ≠ h.
Proof.
  intros Hk Heq. apply (f_equal hashBig) in Heq.
  rewrite hashBig_shift in Heq by lia.
  pose proof (hashBig_range h).
  assert (0 < Z.of_N k < 2 ^ 64)%Z by lia.
  case_decide; lia.
Qed.

(** What [UpdateHash] leaves: the hashes of the map at its keys. *)
Lemma UpdateHash_lookup (m : gmap Hash Hash) (a : Address) (s : StateDB)
    (a' : Address) (k : Hash) :
  GetState (UpdateHash m a s) a' k
  = if decide (a' = a) then default (GetState s a' k) (m !! k)
    else GetState s a' k.
Proof.
  unfold UpdateHash.
  assert (∀ (l : list (Hash * Hash)) s,
            NoDup l.*1 →
            GetState (foldl (λ s kv, SetState s a kv.1 kv.2) s l) a' k
            = if decide (a' = a)
              then default (GetState s a' k)
                     ((list_to_map l : gmap Hash Hash) !! k)
              else GetState s a' k) as Hgen.
  { intros l. induction l as [|[k0 v0] l IH]; intros s0 Hnd; simpl.
    - by case_decide.
    - apply NoDup_cons in Hnd as [Hk0 Hnd]. rewrite IH by done.
      rewrite GetState_SetState. case_decide as Ha; [|by rewrite decide_False by tauto].
      destruct (decide (k = k0)) as [->|Hne].
      + rewrite lookup_insert_eq, decide_True by done.
        rewrite (not_elem_of_list_to_map_1 _ k0 Hk0). done.
      + rewrite lookup_insert_ne, decide_False by (try tauto; done). done. }
  rewrite Hgen by apply NoDup_fst_map_to_list.
  by rewrite list_to_map_to_list.
Qed.

(** ** The loop of SetPK *)


Lemma land_255 (id : N) : N.land id 255 = (id mod 256)%N.
Proof. change 255%N with (N.ones 8). by rewrite N.land_ones. Qed.

Lemma land_7 (id : N) : N.land id 7 = (id mod 8)%N.
Proof. change 7%N with (N.ones 3). by rewrite N.land_ones. Qed.

(** The bit the loop tests and sets for an id: bit [id mod 256] of the
    slot. *)
Lemma pkBit_of_id (data : Hash) (id : N) :
  hasBit (data !!! N.to_nat (N.land id 255 / 8)) (N.land id 7)
  = pkBit data (id mod 256).
Proof.
  unfold pkBit. rewrite land_255, land_7. f_equal. divmod.
Qed.

(** The bits of a slot once the bit [o] is set. *)
Lemma pkBit_insert (d : Hash) (o o' : N) :
  length d = HashLength → (o < 256)%N → (o' < 256)%N →
  pkBit (<[N.to_nat (o / 8) := setBit (d !!! N.to_nat (o / 8)) (o mod 8)]> d) o'
  = pkBit d o' || bool_decide (o' = o).
Proof.
  intros Hlen Ho Ho'. unfold pkBit, HashLength in *.
  assert (o mod 8 < 8)%N by by apply N.mod_lt.
  assert (o' mod 8 < 8)%N by by apply N.mod_lt.
  destruct (decide (o' / 8 = o / 8)%N) as [Heq|Hne].
  - rewrite Heq. rewrite list_lookup_total_insert_eq by (rewrite Hlen; divmod).
    rewrite hasBit_setBit by done. f_equal.
    apply bool_decide_ext. split; [intros ?; divmod|by intros ->].
  - rewrite list_lookup_total_insert_ne by lia.
    rewrite (bool_decide_eq_false_2 (o' = o)) by (intros ->; done).
    by rewrite orb_false_r.
Qed.

Lemma pkData_insert (s : StateDB) (address : Address) (m : gmap Hash Hash)
    (k0 : Hash) (d : Hash) (k : Hash) :
  pkData s address (<[k0 := d]> m) k
  = if decide (k = k0) then d else pkData s address m k.
Proof.
  unfold pkData. destruct (decide (k = k0)) as [->|Hne].
  - by rewrite lookup_insert_eq.
  - by rewrite lookup_insert_ne.
Qed.

Lemma pkInv_step (s : StateDB) (address : Address) (hash : Hash) (S0 : gset N)
    (last0 : N) (processed : list N) (acc : pkLoop) (id : N) :
  pkInv s address hash S0 last0 processed acc →
  (id < 2 ^ 64)%N →
  (N.of_nat (size (S0 ∪ list_to_set (processed ++ [id]))) < 2 ^ 64)%N →
  pkInv s address hash S0 last0 (processed ++ [id])
    (setPKStep s address hash acc id).
Proof.
  intros (Hlast & Hcount & Hwf & Hkeys & Hbits) Hid Hsize.
  assert ((list_to_set (processed ++ [id]) : gset N)
          = list_to_set processed ∪ {[id]}) as Hset.
  { rewrite list_to_set_app_L. simpl. by rewrite union_empty_r_L. }
  unfold pkInv. rewrite Hset in *. clear Hset.
  pose proof (Hbits id Hid) as Hbit.
  unfold setPKStep.
  change (match slotHashToData acc !! ShiftHashUint64 hash (id / 256 + 1) with
          | Some d => d
          | None => GetState s address (ShiftHashUint64 hash (id / 256 + 1))
          end)
    with (pkData s address (slotHashToData acc)
            (ShiftHashUint64 hash (id / 256 + 1))).
  remember (ShiftHashUint64 hash (id / 256 + 1)) as slotHash eqn:Hslot.
  remember (pkData s address (slotHashToData acc) slotHash) as data eqn:Hdata0.
  rewrite pkBit_of_id.
  assert ((if decide (lastRowID acc < id)%N then id else lastRowID acc)
          = foldl N.max last0 (processed ++ [id])) as Hlast'.
  { rewrite foldl_app. simpl. rewrite <- Hlast. case_decide; lia. }
  rewrite Hlast'. clear Hlast'.
  assert (id mod 256 < 256)%N as Ho by by apply N.mod_lt.
  destruct (Hwf slotHash) as [Hlen Hbytes].
  rewrite <- Hdata0 in Hlen, Hbytes.
  assert (∀ d' k, is_Some (<[slotHash := d']> (slotHashToData acc) !! k) →
                  ∃ id', id' ∈ processed ++ [id]
                         ∧ k = ShiftHashUint64 hash (id' / 256 + 1)) as Hkeys'.
  { intros d' k Hk.
    destruct (decide (k = slotHash)) as [Heq|Hne].
    - exists id. split; [|congruence]. apply elem_of_app. right. by left.
    - rewrite lookup_insert_ne in Hk by done.
      destruct (Hkeys k Hk) as (id' & Hin & ->). exists id'.
      split; [|done]. apply elem_of_app. by left. }
  destruct (pkBit data (id mod 256)) eqn:Hset.
  - assert (id ∈ S0 ∪ list_to_set processed) as Hin by by apply Hbit.
    assert (S0 ∪ (list_to_set processed ∪ {[id]})
            = S0 ∪ list_to_set processed) as ->.
    { apply set_eq. intros x.
      rewrite !elem_of_union, elem_of_singleton.
      split; [intros [?|[?| ->]]; [tauto..|]|tauto].
      by apply elem_of_union in Hin. }
    cbn [lastRowID rowCount slotHashToData].
    split; [done|]. split; [done|]. split; [|split].
    + intros k. rewrite pkData_insert.
      case_decide; [by split|apply Hwf].
    + apply Hkeys'.
    + intros id' Hid'. rewrite pkData_insert.
      case_decide as Hk; [|by apply Hbits].
      rewrite <- (Hbits id' Hid'). by rewrite Hk, <- Hdata0.
  - assert (id ∉ S0 ∪ list_to_set processed) as Hnotin.
    { intros Hin. apply Hbit in Hin. congruence. }
    assert (size (S0 ∪ (list_to_set processed ∪ {[id]}))
            = S (size (S0 ∪ list_to_set processed))) as Hsz.
    { rewrite (assoc_L (∪)). rewrite size_union.
      - rewrite size_singleton. lia.
      - intros x Hx Hx'. apply elem_of_singleton in Hx'. by subst x. }
    rewrite Hsz in *.
    assert (<[N.to_nat (N.land id 255 / 8)
              := setBit (data !!! N.to_nat (N.land id 255 / 8)) (N.land id 7)]>
              data
            = <[N.to_nat (id mod 256 / 8)
                := setBit (data !!! N.to_nat (id mod 256 / 8))
                     (id mod 256 mod 8)]> data) as ->.
    { rewrite land_255, land_7.
      by replace (id mod 256 mod 8)%N with (id mod 8)%N by divmod. }
    remember (<[N.to_nat (id mod 256 / 8)
                := setBit (data !!! N.to_nat (id mod 256 / 8))
                     (id mod 256 mod 8)]> data) as data' eqn:Hdata'.
    cbn [lastRowID rowCount slotHashToData].
    split; [done|]. split; [|split; [|split]].
    + rewrite Hcount. unfold add64. rewrite N.mod_small by lia. lia.
    + intros k. rewrite pkData_insert.
      case_decide; [|apply Hwf]. rewrite Hdata'. split.
      * by rewrite length_insert.
      * apply Forall_insert; [done|]. apply setBit_lt.
        apply (proj1 (Forall_forall _ _) Hbytes).
        apply list_elem_of_lookup_total_2. rewrite Hlen. unfold HashLength.
        divmod.
    + apply Hkeys'.
    + intros id' Hid'. rewrite pkData_insert.
      case_decide as Hk.
      * rewrite Hdata'.
        rewrite pkBit_insert; [|done|done|by apply N.mod_lt].
        rewrite orb_true_iff, bool_decide_eq_true.
        rewrite Hdata0, <- Hk, (Hbits id' Hid').
        rewrite Hslot in Hk.
        apply ShiftHashUint64_inj in Hk; [|divmod..].
        rewrite !elem_of_union, elem_of_singleton.
        split; [intros [?|?]; [tauto|right; right; divmod]|].
        intros [?|[?| ->]]; tauto.
      * rewrite (Hbits id' Hid').
        rewrite !elem_of_union, elem_of_singleton.
        split; [tauto|]. intros [?|[?| ->]]; [tauto..|]. by subst slotHash.
Qed.

Lemma pkInv_loop (s : StateDB) (address : Address) (hash : Hash) (S0 : gset N)
    (last0 : N) (IDs processed : list N) (acc : pkLoop) :
  pkInv s address hash S0 last0 processed acc →
  Forall (λ id, (id < 2 ^ 64)%N) IDs →
  (N.of_nat (size (S0 ∪ list_to_set (processed ++ IDs))) < 2 ^ 64)%N →
  pkInv s address hash S0 last0 (processed ++ IDs)
    (foldl (setPKStep s address hash) acc IDs).
Proof.
  revert processed acc.
  induction IDs as [|id IDs IH]; simpl; intros processed acc Hinv Hids Hsize.
  - by rewrite app_nil_r.
  - apply Forall_cons in Hids as [Hid Hids].
    replace (processed ++ id :: IDs) with ((processed ++ [id]) ++ IDs) in *
      by by rewrite <- app_assoc.
    apply IH; [|done|done].
    apply pkInv_step; [done|done|].
    eapply N.le_lt_trans; [|exact Hsize].
    assert (S0 ∪ list_to_set (processed ++ [id])
            ⊆ S0 ∪ list_to_set ((processed ++ [id]) ++ IDs)) as Hsub.
    { rewrite (list_to_set_app_L (processed ++ [id])).
      apply union_mono_l, union_subseteq_l. }
    apply subseteq_size in Hsub. lia.
Qed.

(** ** SetPK and RepeatPK *)

Lemma foldl_max_le (last0 : N) (ids : list N) :
  (last0 ≤ foldl N.max last0 ids)%N
  ∧ ∀ id, id ∈ ids → (id ≤ foldl N.max last0 ids)%N.
Proof.
  revert last0. induction ids as [|x ids IH]; simpl; intros last0.
  - split; [lia|]. intros id Hid. by apply elem_of_nil in Hid.
  - destruct (IH (N.max last0 x)) as [H1 H2]. split; [lia|].
    intros id Hid. apply elem_of_cons in Hid as [->|Hid]; [lia|by apply H2].
Qed.

Lemma foldl_max_lt (last0 b : N) (ids : list N) :
  (last0 < b)%N → Forall (λ id, (id < b)%N) ids →
  (foldl N.max last0 ids < b)%N.
Proof.
  revert last0. induction ids as [|x ids IH]; simpl; intros last0 Hl Hids;
    [done|].
  apply Forall_cons in Hids as [Hx Hids]. apply IH; [lia|done].
Qed.

(** The two numbers of the header of a hash of the state are uint64. *)
Lemma DecodePKHeader_bound (h : Hash) :
  wfHash h →
  ((DecodePKHeader h).1 < 2 ^ 64)%N ∧ ((DecodePKHeader h).2 < 2 ^ 64)%N.
Proof.
  intros [Hlen Hbytes]. unfold DecodePKHeader, HashLength in *. simpl.
  assert (Forall (λ b, (b < 256)%N) (take 8 h)) as Hb1
    by by apply Forall_take.
  assert (Forall (λ b, (b < 256)%N) (take 8 (drop 8 h))) as Hb2
    by by apply Forall_take, Forall_drop.
  pose proof (fromBE_bound _ Hb1) as H1.
  pose proof (fromBE_bound _ Hb2) as H2.
  rewrite length_take in H1. rewrite length_take, length_drop in H2.
  rewrite Hlen in H1, H2. done.
Qed.

(** The state [SetPK] leaves, read at the account of the table. *)
Lemma SetPK_lookup (address : Address) (tableRef : TableRef) (IDs : list N)
    (s : StateDB) (a' : Address) (k : Hash) :
  let hash := GetPrimaryPathHash tableRef in
  let header := DecodePKHeader (GetState s address hash) in
  let acc := foldl (setPKStep s address hash)
               (mkPkLoop header.1 header.2 ∅) IDs in
  GetState (SetPK address tableRef IDs s) a' k
  = if decide (a' = address) then
      if decide (k = hash)
      then EncodePKHeader (lastRowID acc) (rowCount acc)
      else pkData s address (slotHashToData acc) k
    else GetState s a' k.
Proof.
  intros hash header acc. unfold SetPK. fold hash header acc.
  rewrite GetState_SetState, UpdateHash_lookup.
  destruct (decide (a' = address)) as [->|Ha].
  - destruct (decide (k = hash)) as [->|Hk].
    + by rewrite decide_True.
    + rewrite decide_False by tauto. unfold pkData.
      by destruct (slotHashToData acc !! k).
  - by rewrite decide_False by tauto.
Qed.

Lemma SetPK_holds (address : Address) (tableRef : TableRef) (s : StateDB)
    (S0 : gset N) (last0 : N) (IDs : list N) :
  pkHolds address tableRef s S0 last0 →
  Forall (λ id, (id < 2 ^ 64)%N) IDs →
  (N.of_nat (size (S0 ∪ list_to_set IDs)) < 2 ^ 64)%N →
  pkHolds address tableRef (SetPK address tableRef IDs s)
    (S0 ∪ list_to_set IDs) (foldl N.max last0 IDs)
  ∧ (∀ a' k, a' ≠ address →
             GetState (SetPK address tableRef IDs s) a' k = GetState s a' k)
  ∧ (∀ k, k ≠ GetPrimaryPathHash tableRef →
          (∀ id, id ∈ IDs →
                 k ≠ ShiftHashUint64 (GetPrimaryPathHash tableRef)
                       (id / 256 + 1)) →
          GetState (SetPK address tableRef IDs s) address k
          = GetState s address k).
Proof.
  intros (Hwf & Hhdr & Hle & Hbits) Hids Hsize.
  pose proof (SetPK_lookup address tableRef IDs s) as Hlookup.
  cbv zeta in Hlookup. rewrite Hhdr in Hlookup. cbn [fst snd] in Hlookup.
  remember (GetPrimaryPathHash tableRef) as hash eqn:Hhash.
  remember (foldl (setPKStep s address hash) (mkPkLoop last0
              (N.of_nat (size S0)) ∅) IDs) as acc eqn:Hacc.
  assert (pkInv s address hash S0 last0 IDs acc)
    as (Hlast & Hcount & Hwf' & Hkeys & Hbits').
  { rewrite Hacc. apply (pkInv_loop s address hash S0 last0 IDs []); try done.
    unfold pkInv. cbn [lastRowID rowCount slotHashToData].
    simpl. rewrite union_empty_r_L.
    split; [done|]. split; [done|]. split; [|split].
    - intros k. unfold pkData. rewrite lookup_empty. apply Hwf.
    - intros k Hk. rewrite lookup_empty in Hk. by destruct Hk.
    - intros id Hid. unfold pkData. rewrite lookup_empty.
      rewrite union_empty_r_L. by apply Hbits. }
  assert (last0 < 2 ^ 64)%N as Hlast0.
  { destruct (DecodePKHeader_bound _ (Hwf hash)) as [H1 _].
    rewrite Hhdr in H1. done. }
  unfold pkHolds. rewrite <- Hhash. split; [split; [|split; [|split]]|split].
  - intros k. rewrite Hlookup, decide_True by done.
    case_decide; [apply wfHash_EncodePKHeader|apply Hwf'].
  - rewrite Hlookup, !decide_True by done.
    rewrite Hlast, Hcount. apply DecodePKHeader_Encode; [|done].
    by apply foldl_max_lt.
  - intros id Hid. destruct (foldl_max_le last0 IDs) as [H1 H2].
    apply elem_of_union in Hid as [Hid|Hid].
    + specialize (Hle id Hid). lia.
    + apply H2. by apply elem_of_list_to_set in Hid.
  - intros id Hid. rewrite Hlookup, decide_True by done.
    rewrite decide_False; [by apply Hbits'|].
    apply ShiftHashUint64_ne. divmod.
  - intros a' k Ha. by rewrite Hlookup, decide_False.
  - intros k Hk Hslots. rewrite Hlookup, decide_True, decide_False by done.
    unfold pkData. destruct (slotHashToData acc !! k) as [d|] eqn:Hd; [|done].
    destruct (Hkeys k) as (id & Hin & ->); [by eexists|].
    by destruct (Hslots id Hin).
Qed.

(** The ids of the slots from [j] on, [n] of them. *)
Lemma slots_elem (f : nat → list N) (j n : nat) (x : N) :
  x ∈ concat (map f (seq j n)) ↔ ∃ k, j ≤ k < j + n ∧ x ∈ f k.
Proof.
  revert j. induction n as [|n IH]; simpl; intros j.
  - split; [intros H; by apply elem_of_nil in H|]. intros (k & ? & _). lia.
  - rewrite elem_of_app, IH. split.
    + intros [Hx|(k & Hk & Hx)]; [exists j|exists k]; split; (done || lia).
    + intros (k & Hk & Hx). destruct (decide (k = j)) as [->|Hne];
        [by left|]. right. exists k. split; [lia|done].
Qed.

Lemma slots_sorted (f : nat → list N) (j n : nat) :
  (∀ k, StronglySorted N.lt (f k)) →
  (∀ k x, x ∈ f k →
          (N.of_nat k * 256 ≤ x < (N.of_nat k + 1) * 256)%N) →
  StronglySorted N.lt (concat (map f (seq j n))).
Proof.
  intros Hsorted Hrange. revert j.
  induction n as [|n IH]; simpl; intros j; [constructor|].
  apply StronglySorted_app_2; [|done|apply IH].
  intros x1 x2 Hx1 Hx2. apply slots_elem in Hx2 as (k & Hk & Hx2).
  apply Hrange in Hx1, Hx2. nia.
Qed.

Lemma RepeatPK_holds (address : Address) (tableRef : TableRef) (s : StateDB)
    (S0 : gset N) (last0 : N) :
  pkHolds address tableRef s S0 last0 →
  ∃ ids, RepeatPK address tableRef s = Some ids
         ∧ StronglySorted N.lt ids
         ∧ (∀ id, id ∈ ids ↔ id ∈ S0)
         ∧ length ids = size S0.
Proof.
  intros (Hwf & Hhdr & Hle & Hbits).
  unfold RepeatPK. rewrite Hhdr. cbn [fst snd].
  remember (GetPrimaryPathHash tableRef) as hash eqn:Hhash.
  assert (last0 < 2 ^ 64)%N as Hlast0.
  { destruct (DecodePKHeader_bound _ (Hwf hash)) as [H1 _].
    rewrite Hhdr in H1. done. }
  assert (∀ k x, x ∈ slotIDs address hash s k
                 ↔ (N.of_nat k * 256 ≤ x < (N.of_nat k + 1) * 256)%N
                   ∧ pkBit (GetState s address
                              (ShiftHashUint64 hash (N.of_nat k + 1)))
                           (x mod 256) = true) as Hslot.
  { intros k x. unfold slotIDs. rewrite list_elem_of_fmap.
    setoid_rewrite getCountAndOffset_elem.
    destruct (Hwf (ShiftHashUint64 hash (N.of_nat k + 1))) as [Hlen _].
    rewrite Hlen. unfold HashLength. split.
    - intros (o & -> & Ho & Hbit).
      replace ((o + N.of_nat k * 256) mod 256)%N with o by divmod.
      split; [lia|done].
    - intros [Hx Hbit]. exists (x mod 256)%N.
      split; [divmod|]. split; [divmod|done]. }
  remember (concat (map (slotIDs address hash s)
                      (seq 0 (N.to_nat (last0 / 256 + 1))))) as ids eqn:Hids.
  assert (StronglySorted N.lt ids) as Hsorted.
  { rewrite Hids. apply slots_sorted.
    - intros k. unfold slotIDs.
      apply (StronglySorted_fmap _ N.lt N.lt); [intros x y Hxy; lia|].
      apply (offsetsFrom_sorted 0).
    - intros k x Hx. by apply Hslot in Hx as [Hx _]. }
  assert (∀ id, id ∈ ids ↔ id ∈ S0) as Helem.
  { intros id. rewrite Hids, slots_elem. split.
    - intros (k & Hk & Hx). apply Hslot in Hx as [Hx Hbit].
      assert (id < 2 ^ 64)%N as Hid by divmod.
      apply (Hbits id Hid).
      by replace (id / 256 + 1)%N with (N.of_nat k + 1)%N by divmod.
    - intros Hin. specialize (Hle id Hin).
      assert (id < 2 ^ 64)%N as Hid by lia.
      exists (N.to_nat (id / 256)). split; [divmod|].
      apply Hslot. split; [divmod|].
      rewrite N2Nat.id. by apply (Hbits id Hid). }
  assert (length ids = size S0) as Hlen.
  { assert (NoDup ids) as Hnd.
    { clear -Hsorted. induction Hsorted as [|x l Hl IH Hx]; constructor;
        [|done].
      intros Hin. apply (proj1 (Forall_forall _ _) Hx) in Hin. lia. }
    rewrite <- (size_list_to_set (C := gset N) ids Hnd). f_equal.
    apply set_eq. intros x. by rewrite elem_of_list_to_set. }
  exists ids. rewrite decide_True by lia.
  replace (N.to_nat (N.of_nat (size S0)) - length ids) with 0 by lia.
  simpl. rewrite app_nil_r. done.
Qed.

(** ** Shifts that are not offsets of the bit map *)

Lemma hashBig_ShiftHashBigInt (h : Hash) (z : Z) :
  (0 ≤ z)%Z →
  hashBig (ShiftHashBigInt h z) = ((hashBig h + z) mod 2 ^ 256)%Z.
Proof.
  intros Hz. pose proof (hashBig_range h).
  unfold ShiftHashBigInt. apply hashBig_bytesToHash. lia.
Qed.

Lemma mod_inj_below (m a b b' : Z) :
  (0 ≤ b < m)%Z → (0 ≤ b' < m)%Z →
  ((a + b) mod m = (a + b') mod m)%Z → b = b'.
Proof.
  intros Hb Hb' Heq.
  assert (((a + b) - (a + b')) mod m = 0)%Z as Hd.
  { rewrite Zminus_mod, Heq, Z.sub_diag. apply Z.mod_0_l. lia. }
  replace (a + b - (a + b'))%Z with (b - b')%Z in Hd by lia.
  apply Z.mod_divide in Hd; [|lia]. destruct Hd as [q Hq].
  assert (q = 0)%Z by nia. lia.
Qed.

Lemma ShiftHashBigInt_inj (h : Hash) (z z' : Z) :
  (0 ≤ z < 2 ^ 256)%Z → (0 ≤ z' < 2 ^ 256)%Z →
  ShiftHashBigInt h z = ShiftHashBigInt h z' → z = z'.
Proof.
  intros Hz Hz' Heq. apply (f_equal hashBig) in Heq.
  rewrite !hashBig_ShiftHashBigInt in Heq by lia.
  by apply (mod_inj_below (2 ^ 256) (hashBig h)).
Qed.

Lemma ShiftHashBigInt_ne (h : Hash) (z : Z) :
  (0 < z < 2 ^ 256)%Z → ShiftHashBigInt h z ≠ h.
Proof.
  intros Hz Heq. apply (f_equal hashBig) in Heq.
  rewrite hashBig_ShiftHashBigInt in Heq by lia.
  pose proof (hashBig_range h) as Hh.
  rewrite <- (Z.mod_small (hashBig h) (2 ^ 256)) in Heq at 2 by done.
  replace (hashBig h) with (hashBig h + 0)%Z in Heq at 2 by lia.
  apply mod_inj_below in Heq; lia.
Qed.

(** The slot [j] of the entry [idx] of a list, as the readers of a list
    reach it: the entry, then [j] slots on. *)
Lemma hashBig_entry_slot (base : Hash) (headerSize entrySize idx j : N) :
  hashBig (ShiftHashUint64 (ShiftHashListEntry base headerSize entrySize idx) j)
  = ((hashBig base
      + (Z.of_N entrySize * Z.of_N idx + Z.of_N headerSize + Z.of_N j))
     mod 2 ^ 256)%Z.
Proof.
  unfold ShiftHashUint64, ShiftHashListEntry.
  rewrite !hashBig_ShiftHashBigInt by lia.
  rewrite Z.add_mod_idemp_l by done. f_equal. lia.
Qed.

(** ** The table *)

(** A table nothing was written to holds no id. *)
Lemma pkHolds_fresh (address : Address) (tableRef : TableRef) (s : StateDB) :
  (∀ k, GetState s address k = replicate 32 0%N) →
  pkHolds address tableRef s ∅ 0.
Proof.
  intros Hz. unfold pkHolds. cbn zeta. split; [|split; [|split]].
  - intros k. rewrite Hz. split; [done|]. by apply Forall_replicate.
  - by rewrite Hz.
  - intros id Hin. by apply not_elem_of_empty in Hin.
  - intros id Hid. rewrite Hz. unfold pkBit.
    rewrite lookup_total_replicate_2 by divmod.
    split; [|by intros Hin%not_elem_of_empty].
    unfold hasBit. rewrite N.land_0_l. intros Hb.
    apply bool_decide_eq_true_1 in Hb. lia.
Qed.

Lemma size_list_to_set_le (l : list N) :
  size (list_to_set l : gset N) ≤ length l.
Proof.
  induction l as [|x l IH].
  - rewrite list_to_set_nil, size_empty. done.
  - rewrite list_to_set_cons, size_union_alt, size_singleton.
    assert (size ((list_to_set l : gset N) ∖ {[x]}) ≤ size (list_to_set l : gset N))
      by (apply subseteq_size; intros y Hy; by apply elem_of_difference in Hy as [? _]).
    simpl. lia.
Qed.

(** X26. [SetPK] adds the ids to the table.  On a table that holds the ids
    [S0], the greatest of them at most [last0], [SetPK] with the uint64 ids
    [IDs] leaves the table holding [S0] and the ids of [IDs]: the header
    counts each id once, however often [IDs] names it and whether or not the
    table held it, and its [lastRowID] is the greatest of [last0] and the
    ids.  Nothing else is written: the other accounts keep their state, and
    so does every slot of the account that is neither the header nor the
    slot of one of the ids. *)
Theorem SetPK_adds_the_ids (address : Address) (tableRef : TableRef)
    (s : StateDB) (S0 : gset N) (last0 : N) (IDs : list N) :
  pkHolds address tableRef s S0 last0 →
  Forall (λ id, (id < 2 ^ 64)%N) IDs →
  (N.of_nat (size (S0 ∪ list_to_set IDs)) < 2 ^ 64)%N →
  pkHolds address tableRef (SetPK address tableRef IDs s)
    (S0 ∪ list_to_set IDs) (foldl N.max last0 IDs)
  ∧ (∀ a' k, a' ≠ address →
             GetState (SetPK address tableRef IDs s) a' k = GetState s a' k)
  ∧ (∀ k, k ≠ GetPrimaryPathHash tableRef →
          (∀ id, id ∈ IDs →
                 k ≠ ShiftHashUint64 (GetPrimaryPathHash tableRef) (id / 256 + 1)) →
          GetState (SetPK address tableRef IDs s) address k
          = GetState s address k).
Proof. apply SetPK_holds. Qed.

(** X27. [RepeatPK] lists the ids of the table.  On a table that holds the
    ids [S0] it returns, and does not panic; the result has one entry for
    each id of [S0] and no other, in ascending order. *)
Theorem RepeatPK_lists_the_ids (address : Address) (tableRef : TableRef)
    (s : StateDB) (S0 : gset N) (last0 : N) :
  pkHolds address tableRef s S0 last0 →
  ∃ ids, RepeatPK address tableRef s = Some ids
         ∧ StronglySorted N.lt ids
         ∧ (∀ id, id ∈ ids ↔ id ∈ S0)
         ∧ length ids = size S0.
Proof. apply RepeatPK_holds. Qed.

(** X28. What [SetPK] writes [RepeatPK] reads.  On an account whose slots
    are all zero, [SetPK] with the uint64 ids [IDs] and then [RepeatPK]
    gives the ids of [IDs], each once, in ascending order; the header of
    the table then holds the greatest of the ids and the number of the ids
    returned. *)
Theorem RepeatPK_after_SetPK (address : Address) (tableRef : TableRef)
    (s : StateDB) (IDs : list N) :
  (∀ k, GetState s address k = replicate 32 0%N) →
  Forall (λ id, (id < 2 ^ 64)%N) IDs →
  (N.of_nat (length IDs) < 2 ^ 64)%N →
  ∃ ids, RepeatPK address tableRef (SetPK address tableRef IDs s) = Some ids
         ∧ StronglySorted N.lt ids
         ∧ (∀ id, id ∈ ids ↔ id ∈ IDs)
         ∧ DecodePKHeader
             (GetState (SetPK address tableRef IDs s) address
                (GetPrimaryPathHash tableRef))
           = (foldl N.max 0%N IDs, N.of_nat (length ids)).
Proof.
  intros Hz Hids Hlen.
  pose proof (pkHolds_fresh address tableRef s Hz) as H0.
  assert (N.of_nat (size ((∅ : gset N) ∪ list_to_set IDs)) < 2 ^ 64)%N as Hsz.
  { rewrite union_empty_l_L. pose proof (size_list_to_set_le IDs). lia. }
  destruct (SetPK_holds _ _ _ _ _ _ H0 Hids Hsz) as (Hh & _).
  destruct (RepeatPK_holds _ _ _ _ _ Hh) as (ids & Hr & Hs & Hin & Hl).
  exists ids. split; [done|]. split; [done|]. split.
  - intros id. rewrite Hin, union_empty_l_L. apply elem_of_list_to_set.
  - rewrite Hl. by destruct Hh as (_ & Hhdr & _).
Qed.

(** X29. The entries of a list have slots of their own.  With uint64
    sizes and indices and an entry of at least one slot,
    [ShiftHashListEntry] leads from a base to a different hash for each
    index, whether or not [entrySize * idx + headerSize] fits 64 bits; with
    a header of at least one slot none of them is the base; and the slots
    of two entries, reached from the entry by [ShiftHashUint64] with an
    offset below the entry size, are the same slot only for the same index
    and offset.  The writers of a table are such a list. *)
Theorem list_entries_have_slots_of_their_own (base : Hash)
    (headerSize entrySize : N) :
  (headerSize < 2 ^ 64)%N → (0 < entrySize < 2 ^ 64)%N →
  (∀ idx idx', (idx < 2 ^ 64)%N → (idx' < 2 ^ 64)%N →
     ShiftHashListEntry base headerSize entrySize idx
     = ShiftHashListEntry base headerSize entrySize idx' →
     idx = idx')
  ∧ (∀ idx, (idx < 2 ^ 64)%N → (0 < headerSize)%N →
       ShiftHashListEntry base headerSize entrySize idx ≠ base)
  ∧ (∀ idx idx' j j',
       (idx < 2 ^ 64)%N → (idx' < 2 ^ 64)%N →
       (j < entrySize)%N → (j' < entrySize)%N →
       ShiftHashUint64 (ShiftHashListEntry base headerSize entrySize idx) j
       = ShiftHashUint64 (ShiftHashListEntry base headerSize entrySize idx') j' →
       idx = idx' ∧ j = j')
  ∧ (∀ idx idx', (idx < 2 ^ 64)%N → (idx' < 2 ^ 64)%N →
       shiftTableWriterList base idx = shiftTableWriterList base idx' →
       idx = idx').
Proof.
  intros Hh He.
  assert (2 ^ 64 * 2 ^ 64 + 2 ^ 64 + 2 ^ 64 < 2 ^ 256)%Z as Hbig by done.
  assert (∀ idx, (idx < 2 ^ 64)%N →
            0 ≤ Z.of_N entrySize * Z.of_N idx < 2 ^ 64 * 2 ^ 64)%Z as Hmul.
  { intros idx Hidx. split; [lia|].
    assert (Z.of_N entrySize < 2 ^ 64)%Z by lia.
    assert (Z.of_N idx < 2 ^ 64)%Z by lia. nia. }
  assert (∀ idx idx', (idx < 2 ^ 64)%N → (idx' < 2 ^ 64)%N →
            ShiftHashListEntry base headerSize entrySize idx
            = ShiftHashListEntry base headerSize entrySize idx' →
            idx = idx') as Hinj.
  { intros idx idx' Hi Hi' Heq. unfold ShiftHashListEntry in Heq.
    pose proof (Hmul idx Hi). pose proof (Hmul idx' Hi').
    apply ShiftHashBigInt_inj in Heq; [|lia|lia]. nia. }
  split; [done|]. split; [|split].
  - intros idx Hi Hpos. pose proof (Hmul idx Hi).
    apply ShiftHashBigInt_ne. lia.
  - intros idx idx' j j' Hi Hi' Hj Hj' Heq.
    apply (f_equal hashBig) in Heq. rewrite !hashBig_entry_slot in Heq.
    pose proof (Hmul idx Hi). pose proof (Hmul idx' Hi').
    apply mod_inj_below in Heq; [|lia|lia].
    assert (Z.of_N idx = Z.of_N idx') as Hidx by nia.
    split; [lia|]. rewrite Hidx in Heq. lia.
  - intros idx idx' Hi Hi' Heq. unfold shiftTableWriterList in Heq.
    unfold ShiftHashListEntry in Heq.
    apply ShiftHashBigInt_inj in Heq; lia.
Qed.

End Storage.

(** * The bit map at work *)

(** A state database for the examples: the slots of every account as a
    function; a path hash and the two conversions of package common on
    big-endian bytes. *)
Definition exStateDB : Type := list N → list N → list N.

Definition exGetState (s : exStateDB) (a : Address) (k : Hash) : Hash := s a k.

Definition exSetState (s : exStateDB) (a : Address) (k v : Hash) : exStateDB :=
  λ a' k', if decide (a' = a ∧ k' = k) then v else s a' k'.

Definition exHashPathKey (key : list (list N)) : Hash :=
  toBE 32 (fromBE (concat key)).

Definition exHashBig (h : Hash) : Z := (Z.of_N (fromBE h) mod 2 ^ 256)%Z.

Definition exBytesToHash (b : list N) : Hash := toBE 32 (fromBE b).

Definition exFresh : exStateDB := λ _ _, replicate 32 0%N.

Definition exAddress : Address := replicate 20 1%N.

Definition exSetPK : Address → TableRef → list N → exStateDB → exStateDB :=
  SetPK exStateDB exGetState exSetState exHashPathKey exHashBig exBytesToHash.

Definition exRepeatPK : Address → TableRef → exStateDB → option (list N) :=
  RepeatPK exStateDB exGetState exHashPathKey exHashBig exBytesToHash.

Definition exPkHolds : Address → TableRef → exStateDB → gset N → N → Prop :=
  pkHolds exStateDB exGetState exHashPathKey exHashBig exBytesToHash.

Lemma exGetState_SetState (s : exStateDB) (a : Address) (k v : Hash)
    (a' : Address) (k' : Hash) :
  exGetState (exSetState s a k v) a' k'
  = if decide (a' = a ∧ k' = k) then v else exGetState s a' k'.
Proof. done. Qed.

Lemma exHashBig_range (h : Hash) : (0 ≤ exHashBig h < 2 ^ 256)%Z.
Proof. by apply Z.mod_pos_bound. Qed.

Lemma fromBE_bigBytes (z : Z) : (0 ≤ z)%Z → fromBE (bigBytes z) = Z.to_N z.
Proof.
  intros Hz. unfold bigBytes. cbn zeta. rewrite Z.abs_eq by done.
  rewrite fromBE_toBE. apply N.mod_small.
  eapply N.lt_le_trans; [apply N.size_gt|].
  change 256%N with (2 ^ 8)%N. rewrite <- N.pow_mul_r.
  apply N.pow_le_mono_r; [done|].
  generalize (N.size (Z.to_N z)). intros n.
  pose proof (Nat.div_mod_eq (N.to_nat n + 7) 8) as Hd.
  pose proof (Nat.mod_upper_bound (N.to_nat n + 7) 8). lia.
Qed.

Lemma exHashBig_bytesToHash (z : Z) :
  (0 ≤ z)%Z → exHashBig (exBytesToHash (bigBytes z)) = (z mod 2 ^ 256)%Z.
Proof.
  intros Hz. unfold exHashBig, exBytesToHash.
  rewrite fromBE_toBE, fromBE_bigBytes by done.
  rewrite N2Z.inj_mod, Z2N.id by done.
  change (Z.of_N (256 ^ N.of_nat 32)) with (2 ^ 256)%Z.
  apply Z.mod_mod. done.
Qed.

Lemma exFresh_holds : exPkHolds exAddress 1%N exFresh ∅ 0%N.
Proof. by apply pkHolds_fresh. Qed.

Definition exIDs : list N := [300; 5; 300; 7]%N.

Lemma exIDs_uint64 : Forall (λ id, (id < 2 ^ 64)%N) exIDs.
Proof. repeat constructor. Qed.

Lemma exIDs_count :
  (N.of_nat (size ((∅ : gset N) ∪ list_to_set exIDs)) < 2 ^ 64)%N.
Proof.
  rewrite union_empty_l_L. pose proof (size_list_to_set_le exIDs) as Hle.
  change (length exIDs) with 4 in Hle. lia.
Qed.

Lemma exTable_holds :
  exPkHolds exAddress 1%N (exSetPK exAddress 1%N exIDs exFresh)
    (∅ ∪ list_to_set exIDs) 300%N.
Proof.
  apply (SetPK_holds _ _ _ _ _ _ exGetState_SetState exHashBig_range
           exHashBig_bytesToHash exAddress 1%N exFresh ∅ 0%N exIDs
           exFresh_holds exIDs_uint64 exIDs_count).
Qed.

(** The ids come back once each and in order, and the header counts them. *)
Example exTable_runs :
  exRepeatPK exAddress 1%N (exSetPK exAddress 1%N exIDs exFresh)
  = Some [5; 7; 300]%N
  ∧ DecodePKHeader
      (exGetState (exSetPK exAddress 1%N exIDs exFresh) exAddress
         (GetPrimaryPathHash exHashPathKey 1%N))
    = (300, 3)%N.
Proof. by vm_compute. Qed.

Lemma pk_header_round_trip_witness :
  DecodePKHeader (EncodePKHeader 300 3) = (300, 3)%N.
Proof. by destruct (pk_header_round_trip 300 3) as [H _]. Defined.

Lemma bits_of_a_byte_witness : hasBit (setBit 5 1) 1 = true.
Proof.
  destruct (bits_of_a_byte 5 1) as [H _]. by destruct H as [H _].
Defined.

Lemma SetPK_adds_the_ids_witness :
  exPkHolds exAddress 1%N (exSetPK exAddress 1%N exIDs exFresh)
    (∅ ∪ list_to_set exIDs) 300%N.
Proof.
  by destruct (SetPK_adds_the_ids _ _ _ _ _ _ exGetState_SetState
                 exHashBig_range exHashBig_bytesToHash exAddress 1%N exFresh
                 ∅ 0%N exIDs exFresh_holds exIDs_uint64 exIDs_count)
    as [H _].
Defined.

Lemma RepeatPK_lists_the_ids_witness :
  ∃ ids, exRepeatPK exAddress 1%N (exSetPK exAddress 1%N exIDs exFresh)
         = Some ids
         ∧ StronglySorted N.lt ids
         ∧ (∀ id, id ∈ ids ↔ id ∈ (∅ : gset N) ∪ list_to_set exIDs)
         ∧ length ids = size ((∅ : gset N) ∪ list_to_set exIDs).
Proof.
  exact (RepeatPK_lists_the_ids _ _ _ _ _ exAddress 1%N _ _ _ exTable_holds).
Defined.

Lemma RepeatPK_after_SetPK_witness :
  ∃ ids, exRepeatPK exAddress 1%N (exSetPK exAddress 1%N exIDs exFresh)
         = Some ids
         ∧ StronglySorted N.lt ids
         ∧ (∀ id, id ∈ ids ↔ id ∈ exIDs)
         ∧ DecodePKHeader
             (exGetState (exSetPK exAddress 1%N exIDs exFresh) exAddress
                (GetPrimaryPathHash exHashPathKey 1%N))
           = (foldl N.max 0%N exIDs, N.of_nat (length ids)).
Proof.
  apply (RepeatPK_after_SetPK _ _ _ _ _ _ exGetState_SetState exHashBig_range
           exHashBig_bytesToHash exAddress 1%N exFresh exIDs).
  - done.
  - apply exIDs_uint64.
  - done.
Defined.

Lemma list_entries_have_slots_of_their_own_witness :
  (0 < 1 < 2 ^ 64)%N
  ∧ ShiftHashListEntry exHashBig exBytesToHash
      (GetPrimaryPathHash exHashPathKey 1%N) 1 1 5
    ≠ GetPrimaryPathHash exHashPathKey 1%N.
Proof.
  destruct (list_entries_have_slots_of_their_own _ _ exHashBig_range
              exHashBig_bytesToHash (GetPrimaryPathHash exHashPathKey 1%N)
              1%N 1%N)
    as (_ & H & _); [done|done|].
  split; [done|]. by apply H.
Defined.

End Storage.
